(** * hexrd: a shallow embedding of six modules and the properties checked on it

    Source files embedded here, one Rocq module each:
    - [hexrd/imageseries/stats.py]                      -> [Stats]
    - [hexrd/fitting/calibration/structureless.py]      -> [Structureless]
    - [hexrd/config/material.py]                        -> [Material]
    - [hexrd/instrument/cylindrical_detector.py]        -> [Cylindrical]
    - [hexrd/ipfcolor/sphere_sector.py]                 -> [SphereSector]

    Python integers are [Z]; [//] and [%] are [Z.div] and [Z.modulo] (both
    floor towards minus infinity, as Python does).  Python exceptions are the
    [Raise] case of [result].  Floating-point quantities are idealised: a
    finite float is a real number and rounding is left out; what is not a
    finite number (an infinity, a nan) is the [None] of [option R].  Where
    rounding decides between a number and a nan, in the dot products whose
    arc cosine [sphere_sector.py] takes, the rounded operation is a
    parameter of which nothing is assumed; [SphereSectorBinary64] evaluates
    one such product in double precision. *)

From Stdlib Require Import ZArith List Lia Bool Ascii String QArith Qround.
From Stdlib Require Import Reals Lra.
From Stdlib Require Floats.
From stdpp Require Import base option list strings pretty gmap.

Local Open Scope Z_scope.

(** ** Python exceptions and fallible computations *)

Module Py.

Inductive exn : Type :=
| ZeroDivisionError
| ValueError
| IndexError
| KeyError
| TypeError
| IOError (msg : string)
| Exception (msg : string).

Inductive result (A : Type) : Type :=
| Ok (a : A)
| Raise (e : exn).
Arguments Ok {A} a.
Arguments Raise {A} e.

Definition bind {A B} (m : result A) (k : A -> result B) : result B :=
  match m with
  | Ok a => k a
  | Raise e => Raise e
  end.

Definition raises {A} (m : result A) : Prop := exists e, m = Raise e.

(** [for x in xs: acc = body(acc, x)], stopping at the first exception. *)
Fixpoint for_each {A S} (xs : list A) (body : S -> A -> result S) (acc : S)
  : result S :=
  match xs with
  | [] => Ok acc
  | x :: rest => bind (body acc x) (for_each rest body)
  end.

(** [a // b] on Python integers. *)
Definition floordiv (a b : Z) : result Z :=
  if b =? 0 then Raise ZeroDivisionError else Ok (a / b).

(** [a % b] on Python integers. *)
Definition pymod (a b : Z) : result Z :=
  if b =? 0 then Raise ZeroDivisionError else Ok (a mod b).

(** [[f(x) for x in xs]] *)
Fixpoint traverse {A B} (f : A -> result B) (xs : list A) : result (list B) :=
  match xs with
  | [] => Ok []
  | x :: rest =>
      bind (f x) (fun y => bind (traverse f rest) (fun ys => Ok (y :: ys)))
  end.

(** A Python [dict] with string keys, its items in insertion order. *)
Definition dict (V : Type) : Type := list (string * V).

(** [d[k]] *)
Fixpoint dict_get {V} (d : dict V) (k : string) : result V :=
  match d with
  | [] => Raise KeyError
  | (k', v) :: rest => if String.eqb k' k then Ok v else dict_get rest k
  end.

(** [d[k] = v]: a key already there keeps its place. *)
Fixpoint dict_set {V} (d : dict V) (k : string) (v : V) : dict V :=
  match d with
  | [] => [(k, v)]
  | (k', v') :: rest =>
      if String.eqb k' k then (k', v) :: rest
      else (k', v') :: dict_set rest k v
  end.

(** [d.get(k)] *)
Definition dict_lookup {V} (d : dict V) (k : string) : option V :=
  match dict_get d k with
  | Ok v => Some v
  | Raise _ => None
  end.

(** [list(d)], the keys in order. *)
Definition keys {V} (d : dict V) : list string := map fst d.

(** [dict.fromkeys(ks)]: every key bound to [None]. *)
Definition fromkeys {V} (ks : list string) : dict (option V) :=
  fold_left (fun d k => dict_set d k None) ks [].

(** The value of a computation that returned, [d] otherwise. *)
Definition unwrap {A} (d : A) (m : result A) : A :=
  match m with
  | Ok a => a
  | Raise _ => d
  end.

(** [enumerate(xs)] *)
Definition enumerate {A} (xs : list A) : list (nat * A) :=
  imap (fun i x => (i, x)) xs.

End Py.

Import Py.

(** ** NumPy floats *)

Module Np.

(** [x / y] on floats: a zero divisor gives an infinity or a nan (and a
    warning), never an exception. *)
Definition divide (x y : R) : option R :=
  if Req_dec_T y 0 then None else Some (x / y)%R.

End Np.

(** [result] is a monad; stdpp's [x ← m; k] is its sequencing. *)
#[global] Instance result_ret : MRet result := fun _ a => Ok a.
#[global] Instance result_bind : MBind result := fun _ _ k m => Py.bind m k.

(** ** hexrd/imageseries/stats.py *)

Module Stats.

(** A frame is an [nr] x [nc] array of integer pixels, a list of rows. *)
Definition image := list (list Z).

(** What the code reads of an image series: [len(ims)] and [ims[i]] through
    [frames], [ims.shape] and [ims.dtype.itemsize]. *)
Record imageseries := {
  frames : list image;
  shape : Z * Z;
  itemsize : Z
}.

Definition len (ims : imageseries) : Z := Z.of_nat (length (frames ims)).

(** [np.zeros((nr, nc), dtype=dt)] *)
Definition zeros (nr nc : Z) : image :=
  replicate (Z.to_nat nr) (replicate (Z.to_nat nc) 0).

(** [_nframes]: [np.min((mynf, nframes)) if nframes > 0 else mynf] *)
Definition _nframes (ims : imageseries) (nframes : Z) : Z :=
  let mynf := len ims in
  if 0 <? nframes then Z.min mynf nframes else mynf.

(** [_chunk_ranges] *)
Definition _chunk_ranges (nrows nchunk chunk : Z) : result (Z * Z) :=
  csize ← floordiv nrows nchunk;
  rem ← pymod nrows nchunk;
  if chunk <? rem then
    let r0 := chunk * (csize + 1) in
    let r1 := r0 + csize + 1 in
    Ok (r0, r1)
  else
    let r0 := chunk * csize + rem in
    let r1 := r0 + csize in
    Ok (r0, r1).

(** [a[r0:r1]] for [0 <= r0], [0 <= r1]: Python clamps a slice to the array. *)
Definition slice {A} (r0 r1 : Z) (a : list A) : list A :=
  take (Z.to_nat (r1 - r0)) (drop (Z.to_nat r0) a).

(** Modelled from the spec: the rectangle operation of
    [hexrd.imageseries.process.ProcessedImageSeries], which is not among the
    sources.  The spec has a band computed on the series restricted to that
    band's rows, all its frames materialised over the band; so
    [PIS(ims, [('rectangle', [[r0, r1], [0, ncols]])])] is every frame cut
    down to the rows [r0:r1] and the columns [0:ncols], with as many frames
    as [ims], and its shape counts the rows the slice keeps.  What the class
    does on a series without frames is not known from the spec. *)
Definition PIS_rectangle (ims : imageseries) (r0 r1 ncols : Z) : imageseries :=
  {| frames := map (fun f => map (slice 0 ncols) (slice r0 r1 f)) (frames ims);
     shape :=
       (Z.of_nat (length (slice r0 r1 (zeros (fst (shape ims)) 0))), ncols);
     itemsize := itemsize ims |}.

(** [_toarray]: the first [nframes] frames stacked; [ims[i]] past the end
    raises. *)
Definition _toarray (ims : imageseries) (nframes : Z) : result (list image) :=
  for_each (seqZ 0 nframes)
    (fun a i =>
       match frames ims !! Z.to_nat i with
       | Some f => Ok (a ++ [f])
       | None => Raise IndexError
       end) [].

(** [np.maximum] of two frames. *)
Definition maximum (a b : image) : image := zip_with (zip_with Z.max) a b.

(** [np.max(a, axis=0)]: the reduction has no identity, so an empty stack
    raises. *)
Definition np_max (a : list image) : result image :=
  match a with
  | [] => Raise ValueError
  | f :: fs => Ok (fold_left maximum fs f)
  end.

(** [img[r0:r1, :] = v], for rows of one width: a value as high as the
    slice replaces its rows, a value of one row is spread over them, any
    other value cannot be broadcast. *)
Definition set_rows (img : image) (r0 r1 : Z) (v : image) : result image :=
  let m := length (slice r0 r1 img) in
  let put (rows : image) :=
    take (Z.to_nat r0) img ++ rows ++ drop (Z.to_nat r0 + m)%nat img in
  if Nat.eqb m (length v) then Ok (put v)
  else match v with
       | [row] => Ok (put (replicate m row))
       | _ => Raise ValueError
       end.

Definition chunk_t : Type := Z * Z * image.

(** [_chunk_op]: its first statement rebinds [nf] to [len(ims)]. *)
Definition _chunk_op (op : list image -> result image) (ims : imageseries)
    (nf : Z) (chunk : chunk_t) : result image :=
  let nf := len ims in
  let '(nrows, ncols) := shape ims in
  let '(i, nchunk, img) := chunk in
  '(r0, r1) ← _chunk_ranges nrows nchunk i;
  let pims := PIS_rectangle ims r0 r1 ncols in
  a ← _toarray pims nf;
  v ← op a;
  set_rows img r0 r1 v.

(** [_old_max]: the frame-by-frame running maximum. *)
Definition _old_max (ims : imageseries) (nframes : Z) : result image :=
  let nf := _nframes ims nframes in
  match frames ims with
  | [] => Raise IndexError
  | f0 :: _ =>
      for_each (seqZ 1 (nf - 1))
        (fun imgmax i =>
           match frames ims !! Z.to_nat i with
           | Some f => Ok (maximum imgmax f)
           | None => Raise IndexError
           end) f0
  end.

Section WithBuffer.

(** The memory budget, [int(0.5*vmem.available)], measured when the module is
    loaded. *)
Variable STATS_BUFFER : Z.

(** [max] *)
Definition max (ims : imageseries) (chunk : option chunk_t) (nframes : Z)
  : result image :=
  let nf := _nframes ims nframes in
  match chunk with
  | None =>
      let '(nr, nc) := shape ims in
      let mem := nf * nr * nc * itemsize ims in
      q ← floordiv mem STATS_BUFFER;
      let nchunks := 1 + q in
      let img := zeros nr nc in
      for_each (seqZ 0 nchunks)
        (fun img i => _chunk_op np_max ims nf (i, nchunks, img)) img
  | Some chunk => _chunk_op np_max ims nf chunk
  end.

(** [_rows_in_buffer]: [int(np.ceil(STATS_BUFFER/rsize))], the quotient taken
    exactly. *)
Definition _rows_in_buffer (ncol rsize : Z) : result Z :=
  if rsize =? 0 then Raise ZeroDivisionError
  else Ok (Qceiling (inject_Z STATS_BUFFER / inject_Z rsize)).

End WithBuffer.

(** [_row_ranges]: the generator run to exhaustion, its yields in order.
    [fuel] bounds the number of loop tests; [None] means the loop was still
    running when the fuel ran out. *)
Fixpoint _row_ranges_from (fuel : nat) (n m i : Z) : option (list (Z * Z)) :=
  match fuel with
  | O => None
  | S fuel' =>
      if i <? n then
        let imax := i + m in
        let y := if imax <=? n then (i, imax) else (i, n) in
        cons y <$> _row_ranges_from fuel' n m imax
      else Some []
  end.

Definition _row_ranges (fuel : nat) (n m : Z) : option (list (Z * Z)) :=
  _row_ranges_from fuel n m 0.

(** The row bands [percentile] works through: the rows per band from
    [_rows_in_buffer(nframes, nf*nc*dt.itemsize)], then
    [_row_ranges(nr, nrpb)]. *)
Definition percentile_bands (STATS_BUFFER : Z) (fuel : nat)
    (ims : imageseries) (nframes : Z) : result (option (list (Z * Z))) :=
  let nf := _nframes ims nframes in
  let '(nr, nc) := shape ims in
  nrpb ← _rows_in_buffer STATS_BUFFER nframes (nf * nc * itemsize ims);
  Ok (_row_ranges fuel nr nrpb).

(** The per-pixel maximum of the first [k] frames, the reference the
    statistics are compared with. *)
Definition max_of_first (k : nat) (ims : imageseries) : result image :=
  np_max (take k (frames ims)).

(** A series whose frames all have the shape the series reports. *)
Record well_shaped (ims : imageseries) : Prop := {
  ws_nr : 0 <= fst (shape ims);
  ws_nc : 0 <= snd (shape ims);
  ws_itemsize : 0 <= itemsize ims;
  ws_rows :
    Forall (fun f : image => length f = Z.to_nat (fst (shape ims)))
      (frames ims);
  ws_cols :
    Forall (Forall (fun row : list Z =>
                      length row = Z.to_nat (snd (shape ims))))
      (frames ims)
}.

(** The per-pixel maximum over all the frames of the series. *)
Definition full_max (f : image) (fs : list image) : image :=
  fold_left maximum fs f.

(** Consecutive bands: each starts where the one before ended. *)
Fixpoint chained (lo : Z) (bands : list (Z * Z)) (hi : Z) : Prop :=
  match bands with
  | [] => lo = hi
  | (a, b) :: rest => a = lo /\ a <= b /\ chained b rest hi
  end.

(** The closed form of a band's first row: [i] whole bands of [nrows//nchunk]
    rows, and one more row for each earlier band below the remainder. *)
Definition chunk_start (nrows nchunk i : Z) : Z :=
  i * (nrows / nchunk) + Z.min i (nrows mod nchunk).

(** The bands [_row_ranges(n, m)] yields, in closed form: band [k] is
    [(k*m, min(n, (k+1)*m))], for [k] below the ceiling of [n/m]. *)
Definition row_band (n m k : Z) : Z * Z := (k * m, Z.min n ((k + 1) * m)).

Definition row_band_count (n m : Z) : Z := (n + m - 1) / m.

(** Two 1 x 1 frames of 2-byte pixels, the brighter one second. *)
Definition two_frames : imageseries :=
  {| frames := [[[1]]; [[5]]]; shape := (1, 1); itemsize := 2 |}.

End Stats.

(** ** hexrd/imageseries/stats.py: [average], [median], [percentile] *)

Module StatsReductions.

Import Stats.

(** The values one pixel takes along axis 0 of a stack of frames:
    [a[:, r, c]]. *)
Definition pixel_values (a : list image) (r c : nat) : list Z :=
  map (fun f : image => nth c (nth r f []) 0) a.

(** A reduction along axis 0 of a stack of shape [(nf,) + shp]: every pixel
    of the result is [stat] of the values of that pixel along the frames. *)
Definition axis0 {A} (stat : list Z -> A) (shp : Z * Z) (a : list image)
  : list (list A) :=
  map (fun r =>
         map (fun c => stat (pixel_values a r c))
           (seq 0 (Z.to_nat (snd shp))))
    (seq 0 (Z.to_nat (fst shp))).

(** [np.zeros_like(f)] *)
Definition zeros_like (f : image) : image := map (map (fun _ => 0)) f.

(** [average]: the float copy of the first frame, the frames [1 .. nf-1]
    added to it in place, and the division by [nf].  Frames are of one
    shape, as those of an image series are. *)
Definition average (ims : imageseries) (nframes : Z)
  : result (list (list (option R))) :=
  let nf := _nframes ims nframes in
  match frames ims with
  | [] => Raise IndexError
  | f0 :: _ =>
      avg ← for_each (seqZ 1 (nf - 1))
               (fun avg i =>
                  match frames ims !! Z.to_nat i with
                  | Some f =>
                      Ok (zip_with (zip_with (fun a x => (a + IZR x)%R)) avg f)
                  | None => Raise IndexError
                  end)
               (map (map IZR) f0);
      Ok (map (map (fun a => Np.divide a (IZR nf))) avg)
  end.

(** The mean of the values of one pixel. *)
Definition mean (l : list Z) : R :=
  (IZR (fold_right Z.add 0%Z l) / IZR (Z.of_nat (length l)))%R.

Section WithLibrary.

(** The memory budget of the module. *)
Variable STATS_BUFFER : Z.

(** [np.percentile(., pct, axis=0)] and [np.median(., axis=0)] at one
    pixel, followed by the cast to the pixel type that the assignment into
    the image makes: each is a function of the values of the pixel along the
    frames. *)
Variable np_percentile : R -> list Z -> Z.
Variable np_median : list Z -> Z.

(** [percentile].  The generator [_row_ranges] is drained first ([None]
    when [fuel] loop tests do not exhaust it); when it ends, the loop over
    its yields is the loop of the source. *)
Definition percentile (fuel : nat) (ims : imageseries) (pct : R)
    (nframes : Z) : result (option image) :=
  let nf := _nframes ims nframes in
  let '(nr, nc) := shape ims in
  nrpb ← _rows_in_buffer STATS_BUFFER nframes (nf * nc * itemsize ims);
  img ← match frames ims with
        | [] => Raise IndexError
        | f0 :: _ => Ok (zeros_like f0)
        end;
  match _row_ranges fuel nr nrpb with
  | None => Ok None
  | Some bands =>
      img ← for_each bands
              (fun img rr =>
                 let pims := PIS_rectangle ims (fst rr) (snd rr) nc in
                 a ← _toarray pims nf;
                 set_rows img (fst rr) (snd rr)
                   (axis0 (np_percentile pct) (shape pims) a))
              img;
      Ok (Some img)
  end.

(** [median] *)
Definition median (fuel : nat) (ims : imageseries) (nframes : Z)
    (chunk : option chunk_t) : result (option image) :=
  match chunk with
  | None => percentile fuel ims 50 nframes
  | Some (i, nchunk, img) =>
      let nf := _nframes ims nframes in
      let '(nrows, ncols) := shape ims in
      '(r0, r1) ← _chunk_ranges nrows nchunk i;
      let pims := PIS_rectangle ims r0 r1 ncols in
      a ← _toarray pims nf;
      img ← set_rows img r0 r1 (axis0 np_median (shape pims) a);
      Ok (Some img)
  end.

End WithLibrary.

(** A statistic to run the definitions on: the first of the values. *)
Definition pick_first (l : list Z) : Z := hd 0 l.

(** Three 2 x 1 frames of 2-byte pixels. *)
Definition three_frames : imageseries :=
  {| frames := [[[1]; [10]]; [[5]; [2]]; [[3]; [30]]];
     shape := (2, 1); itemsize := 2 |}.

End StatsReductions.

(** ** hexrd/config/material.py *)

Module Material.

Local Open Scope string_scope.

(** [os.path.isabs] (POSIX): the path starts with a slash. *)
Definition isabs (s : string) : bool :=
  match s with
  | String "/"%char _ => true
  | _ => false
  end.

Fixpoint ends_with_sep (s : string) : bool :=
  match s with
  | EmptyString => false
  | String c EmptyString => Ascii.eqb c "/"%char
  | String _ rest => ends_with_sep rest
  end.

(** [os.path.join(a, b)] (POSIX): an absolute [b] replaces [a]; otherwise
    [b] is appended, after a slash unless [a] is empty or ends with one. *)
Definition join (a b : string) : string :=
  if isabs b then b
  else if (String.eqb a "" || ends_with_sep a)%bool then a ++ b
  else a ++ "/" ++ b.

(** What [definitions] reads of the root configuration: the value of
    [self._cfg.get('material:definitions')] and [self._cfg.working_dir]. *)
Record config := {
  material_definitions : string;
  working_dir : string
}.

Definition dquote : string := String (Ascii.ascii_of_nat 34) EmptyString.

(** The literal handed to [IOError]: the [%s] in it is never filled in. *)
Definition not_exist_message : string :=
  dquote ++ "material:definitions" ++ dquote ++ ": " ++
  dquote ++ "%s" ++ dquote ++ " does not exist".

Section WithFilesystem.

(** [os.path.exists] on the file system of the run. *)
Variable path_exists : string -> bool.

(** [MaterialConfig.definitions] *)
Definition definitions (cfg : config) : result string :=
  let temp := material_definitions cfg in
  let temp := if negb (isabs temp) then join (working_dir cfg) temp else temp in
  if path_exists temp then Ok temp
  else Raise (IOError not_exist_message).

End WithFilesystem.

(** [sub in s] on strings. *)
Fixpoint contains (sub s : string) : bool :=
  (String.prefix sub s ||
   match s with
   | EmptyString => false
   | String _ rest => contains sub rest
   end)%bool.

(** A configuration with a relative path, and a file system without it. *)
Definition cfg_relative : config :=
  {| material_definitions := "materials.h5"; working_dir := "/data" |}.

Definition empty_fs : string -> bool := fun _ => false.

End Material.

(** ** hexrd/config/material.py: the materials and what is derived from them *)

Module MaterialState.

Import Material.

Local Open Scope string_scope.

(** [valWUnit(name, unitType, value, unit)] *)
Record valunit := valWUnit {
  vu_name : string;
  vu_type : string;
  vu_value : R;
  vu_unit : string
}.

(** The defaults of the module: angstrom, and degrees. *)
Definition DMIN_DFLT : R := 0.5.
Definition TTHW_DFLT : R := 0.25.

(** What the properties read of the root configuration: the values at
    [material:definitions] and [material:active], and those at
    [material:dmin] and [material:tth_width], which may be absent. *)
Record settings := {
  root : config;
  material_active : string;
  material_dmin : option R;
  material_tth_width : option R
}.

(** [np.radians] *)
Definition radians (x : R) : R := (x * PI / 180)%R.

Section WithCollaborators.

(** A material of [hexrd.material] and its plane data, with what the
    properties do to them: read [planeData] and its [wavelength], assign
    [tThWidth] of the plane data a material holds, assign [beamEnergy]. *)
Variable material : Type.
Variable plane_data_t : Type.
Variable planeData : material -> plane_data_t.
Variable wavelength : plane_data_t -> R.
Variable set_tThWidth : material -> R -> material.
Variable set_beamEnergy : material -> valunit -> material.

(** [os.path.exists], [material.load_materials_hdf5(f=, dmin=)] and
    [keVToAngstrom]. *)
Variable path_exists : string -> bool.
Variable load_materials_hdf5 : string -> valunit -> result (dict material).
Variable keVToAngstrom : R -> R.

(** The object: the configuration it reads, and the attribute
    [_materials], absent until the first load or assignment. *)
Record state := {
  cfg : settings;
  _materials : option (dict material)
}.

Definition with_materials (st : state) (mats : dict material) : state :=
  {| cfg := cfg st; _materials := Some mats |}.

(** [dmin] and [tthw] *)
Definition dmin (st : state) : R :=
  default DMIN_DFLT (material_dmin (cfg st)).

Definition tthw (st : state) : R :=
  default TTHW_DFLT (material_tth_width (cfg st)).

(** [active] *)
Definition active (st : state) : string := material_active (cfg st).

(** The [materials] getter: the arguments of the loader are evaluated in
    order, the path first. *)
Definition materials (st : state) : result (dict material) * state :=
  match _materials st with
  | Some mats => (Ok mats, st)
  | None =>
      match definitions path_exists (root (cfg st)) with
      | Raise e => (Raise e, st)
      | Ok f =>
          match load_materials_hdf5 f
                  (valWUnit "dmin" "length" (dmin st) "angstrom") with
          | Raise e => (Raise e, st)
          | Ok mats => (Ok mats, with_materials st mats)
          end
      end
  end.

(** The [materials] setter, given a dict. *)
Definition set_materials (mats : dict material) (st : state) : state :=
  with_materials st mats.

(** [plane_data]: the plane data of the active material, its [tThWidth]
    assigned on the way; the material is an object of the dict the getter
    returned, which therefore holds it as changed. *)
Definition plane_data (st : state) : result plane_data_t * state :=
  let '(r, st) := materials st in
  match r with
  | Raise e => (Raise e, st)
  | Ok mats =>
      match dict_get mats (active st) with
      | Raise e => (Raise e, st)
      | Ok m =>
          let m := set_tThWidth m (radians (tthw st)) in
          (Ok (planeData m), with_materials st (dict_set mats (active st) m))
      end
  end.

(** The [beam_energy] getter *)
Definition beam_energy (st : state) : result R * state :=
  let '(r, st) := plane_data st in
  match r with
  | Raise e => (Raise e, st)
  | Ok pd => (Ok (keVToAngstrom (wavelength pd)), st)
  end.

(** The [beam_energy] setter: [x] is a number or a [valWUnit]. *)
Definition set_beam_energy (x : R + valunit) (st : state)
  : result unit * state :=
  let x := match x with
           | inl v => valWUnit "beam energy" "energy" v "keV"
           | inr u => u
           end in
  let '(r, st) := materials st in
  match r with
  | Raise e => (Raise e, st)
  | Ok mats =>
      (Ok tt,
       with_materials st (map (fun km => (fst km, set_beamEnergy (snd km) x))
                            mats))
  end.

End WithCollaborators.

(** Materials to run the definitions on: a material is its beam energy in
    keV and the width of its plane data; the loader finds two of them. *)
Definition demo_loader (f : string) (dmin : valunit)
  : result (dict (R * R)) :=
  Ok [("ruby", (10, 0)%R); ("ceria", (20, 0)%R)].

Definition demo_settings : settings :=
  {| root := cfg_relative; material_active := "ceria";
     material_dmin := None; material_tth_width := None |}.

End MaterialState.

(** ** hexrd/fitting/calibration/structureless.py *)

Module Structureless.

(** The collaborators outside this file.  Numbers are floats, idealised,
    with the two operations the residual uses: subtraction and
    [np.degrees].  [array2] is an N x 2 array: measured pixel coordinates,
    or (two-theta, eta) pairs.  [detectors] lists the keys of
    [instr.detectors] in order.  The geometric routines read the beam in
    force, so they take the X-ray source that [switch_xray_source] has made
    active.  The helpers of [lmfit_param_handling] and the lmfit minimizer
    ([least_squares] / [scalar_minimize], and [res.params]) close the
    list. *)
Class Collaborators := {
  num : Type;
  sub : num -> num -> num;
  degrees : num -> num;
  instrument : Type;
  parameter : Type;
  distortion : Type;
  euler : Type;
  fit_result : Type;
  array2 : Type := list (num * num);
  detectors : instrument -> list string;
  cart_to_angles : instrument -> string -> string -> array2 -> array2;
  distortion_apply : distortion -> instrument -> string -> array2 -> array2;
  value : parameter -> num;
  update_instrument_from_params :
    instrument -> gmap string parameter -> euler -> instrument;
  tth_parameter_prefixes : instrument -> dict string;
  create_instr_params : instrument -> euler -> list (string * parameter);
  create_tth_parameters :
    instrument -> dict (list (dict (option array2))) ->
    list (string * parameter);
  add_engineering_constraints :
    gmap string parameter -> option string -> gmap string parameter;
  minimize : gmap string parameter -> fit_result;
  result_params : fit_result -> gmap string parameter
}.

Section Calibrator.

Context `{Collaborators}.

(** A ring: detector name to measured pixel coordinates. *)
Definition ring : Type := dict array2.
(** The dataset: X-ray source name to its rings. *)
Definition dataset : Type := dict (list ring).

Record calibrator := {
  _instr : instrument;
  _data : dataset;
  _tth_distortion : option (dict distortion);
  _engineering_constraints : option string;
  euler_convention : euler;
  params : gmap string parameter
}.

Definition with_instr (st : calibrator) (ins : instrument) : calibrator :=
  {| _instr := ins; _data := _data st;
     _tth_distortion := _tth_distortion st;
     _engineering_constraints := _engineering_constraints st;
     euler_convention := euler_convention st; params := params st |}.

Definition with_data (st : calibrator) (dat : dataset) : calibrator :=
  {| _instr := _instr st; _data := dat;
     _tth_distortion := _tth_distortion st;
     _engineering_constraints := _engineering_constraints st;
     euler_convention := euler_convention st; params := params st |}.

Definition with_tth_distortion (st : calibrator) (v : option (dict distortion))
  : calibrator :=
  {| _instr := _instr st; _data := _data st;
     _tth_distortion := v;
     _engineering_constraints := _engineering_constraints st;
     euler_convention := euler_convention st; params := params st |}.

Definition with_engineering_constraints (st : calibrator) (v : option string)
  : calibrator :=
  {| _instr := _instr st; _data := _data st;
     _tth_distortion := _tth_distortion st;
     _engineering_constraints := v;
     euler_convention := euler_convention st; params := params st |}.

Definition with_params (st : calibrator) (p : gmap string parameter)
  : calibrator :=
  {| _instr := _instr st; _data := _data st;
     _tth_distortion := _tth_distortion st;
     _engineering_constraints := _engineering_constraints st;
     euler_convention := euler_convention st; params := p |}.

(** How a method ends: it returns a value or raises, and either way leaves
    the calibrator in some state. *)
Inductive outcome (A : Type) : Type :=
| Returns (a : A) (st : calibrator)
| Throws (e : exn) (st : calibrator).
Arguments Returns {A} a st.
Arguments Throws {A} e st.

Definition returned {A} (o : outcome A) : bool :=
  match o with
  | Returns _ _ => true
  | Throws _ _ => false
  end.

Definition thrown {A} (o : outcome A) : option exn :=
  match o with
  | Returns _ _ => None
  | Throws e _ => Some e
  end.

Definition state_after {A} (o : outcome A) : calibrator :=
  match o with
  | Returns _ st => st
  | Throws _ st => st
  end.

(** The loop of [meas_angles] over the items of one ring: the [ang_dict]
    of the ring, [None] for a detector the ring does not name. *)
Definition ring_angles (st : calibrator) (xray_source : string) (rng : ring)
  : result (dict (option array2)) :=
  for_each rng
    (fun ang_dict '(det_name, meas_xy) =>
       (* panel = self.instr.detectors[det_name] *)
       if bool_decide (det_name ∈ detectors (_instr st)) then
         let angles :=
           cart_to_angles (_instr st) xray_source det_name meas_xy in
         Ok (dict_set ang_dict det_name (Some angles))
       else Raise KeyError)
    (fromkeys (detectors (_instr st))).

(** [meas_angles]: per source, per ring, per detector the angles of the
    measured points. *)
Definition meas_angles (st : calibrator)
  : result (dict (list (dict (option array2)))) :=
  for_each (_data st)
    (fun angles_dict '(xray_source, rings) =>
       ang_list ← traverse (ring_angles st xray_source) rings;
       Ok (dict_set angles_dict xray_source ang_list))
    [].

(** The body of the ring loop of [tth_correction]: the [corr_dict] of one
    ring, all [None] without a distortion object. *)
Definition ring_correction (st : calibrator) (xray_source : string)
    (rng : ring) : result (dict (option (list num))) :=
  match _tth_distortion st with
  | None => Ok (fromkeys (detectors (_instr st)))
  | Some tth_distortion =>
      for_each rng
        (fun corr_dict '(det_name, meas_xy) =>
           sd ← dict_get tth_distortion det_name;
           let tth_corr :=
             map fst (distortion_apply sd (_instr st) xray_source meas_xy) in
           Ok (dict_set corr_dict det_name (Some tth_corr)))
        (fromkeys (detectors (_instr st)))
  end.

(** [tth_correction]: the same shape, the systematic two-theta correction
    of each detector. *)
Definition tth_correction (st : calibrator)
  : result (dict (list (dict (option (list num))))) :=
  for_each (_data st)
    (fun ret '(xray_source, rings) =>
       corr_list ← traverse (ring_correction st xray_source) rings;
       Ok (dict_set ret xray_source corr_list))
    [].

(** [params_dict.add_many], given the parameters: added in order, a later name
    replacing an earlier one. *)
Definition add_many (d : gmap string parameter)
    (ps : list (string * parameter)) : gmap string parameter :=
  fold_left (fun m p => <[fst p := snd p]> m) ps d.

(** What [make_lmfit_params] builds; it reads the instrument, the dataset
    (through [meas_angles]), the Euler convention and the constraint tag. *)
Definition build_params (st : calibrator) : result (gmap string parameter) :=
  ma ← meas_angles st;
  let ps := create_instr_params (_instr st) (euler_convention st)
            ++ create_tth_parameters (_instr st) ma in
  let params_dict := add_many ∅ ps in
  Ok (add_engineering_constraints params_dict (_engineering_constraints st)).

(** [make_lmfit_params] *)
Definition make_lmfit_params (st : calibrator)
  : outcome (gmap string parameter) :=
  match build_params st with
  | Ok params_dict => Returns params_dict (with_params st params_dict)
  | Raise e => Throws e st
  end.

(** [__init__]; the minimizer it binds holds no state of its own here. *)
Definition init (instr : instrument) (data : dataset)
    (tth_distortion : option (dict distortion))
    (engineering_constraints : option string) (euler_convention : euler)
  : outcome unit :=
  let st := {| _instr := instr; _data := data;
               _tth_distortion := tth_distortion;
               _engineering_constraints := engineering_constraints;
               euler_convention := euler_convention; params := ∅ |} in
  match make_lmfit_params st with
  | Returns _ st => Returns tt st
  | Throws e st => Throws e st
  end.

(** The list the constraint setter checks against. *)
Definition valid_settings : list (option string) :=
  [None; Some "None"%string; Some "TARDIS"%string].

(** The [engineering_constraints] setter.  On a value outside
    [valid_settings] the message is never built: [map(valid_settings, str)]
    is handed the list as its function and the type [str] as its iterable,
    and raises [TypeError] before [Exception(msg)] is reached. *)
Definition set_engineering_constraints (v : option string) (st : calibrator)
  : outcome unit :=
  if bool_decide (v = _engineering_constraints st) then Returns tt st
  else if bool_decide (v ∈ valid_settings) then
    match make_lmfit_params (with_engineering_constraints st v) with
    | Returns _ st => Returns tt st
    | Throws e st => Throws e st
    end
  else Throws TypeError st.

(** The [instr] setter. *)
Definition set_instr (ins : instrument) (st : calibrator) : outcome unit :=
  match make_lmfit_params (with_instr st ins) with
  | Returns _ st => Returns tt st
  | Throws e st => Throws e st
  end.

(** The [data] setter. *)
Definition set_data (dat : dataset) (st : calibrator) : outcome unit :=
  match make_lmfit_params (with_data st dat) with
  | Returns _ st => Returns tt st
  | Throws e st => Throws e st
  end.

(** The [tth_distortion] setter: no rebuild. *)
Definition set_tth_distortion (v : option (dict distortion)) (st : calibrator)
  : outcome unit :=
  Returns tt (with_tth_distortion st v).

(** [run_calibration], whatever the method and the options: the fitted
    parameters replace the working ones. *)
Definition run_calibration (st : calibrator) : outcome fit_result :=
  let res := minimize (params st) in
  Returns res (with_params st (result_params res)).

(** [a -= b] on one-dimensional arrays: equal lengths, or a [b] of length
    one spread over [a]; anything else cannot be broadcast. *)
Definition isub (a b : list num) : result (list num) :=
  if Nat.eqb (length b) (length a) then Ok (zip_with sub a b)
  else match b with
       | [b0] => Ok (map (fun x => sub x b0) a)
       | _ => Raise ValueError
       end.

(** [np.hstack]: there must be something to stack. *)
Definition np_hstack (blocks : list (list num)) : result (list num) :=
  match blocks with
  | [] => Raise ValueError
  | _ => Ok (concat blocks)
  end.

(** The body of the innermost loop of [calc_residual], over the
    detectors: one (source, ring, detector) combination. *)
Definition residual_of_detector (params : gmap string parameter)
    (prefix : string) (ii : nat) (rng : dict (option array2))
    (corr_rng : dict (option (list num)))
    (residual : list (list num)) (det_name : string)
  : result (list (list num)) :=
  a ← dict_get rng det_name;
  match a with
  | None => Ok residual
  | Some [] => Ok residual
  | Some a =>
      tth_rng ← match params !! (prefix +:+ pretty ii) with
                | Some p => Ok (value p)
                | None => Raise KeyError
                end;
      let tth_updated := map degrees (map fst a) in
      let delta_tth := map (fun t => sub t tth_rng) tth_updated in
      c ← dict_get corr_rng det_name;
      delta_tth ← match c with
                  | None => Ok delta_tth
                  | Some c => isub delta_tth (map degrees c)
                  end;
      Ok (residual ++ [delta_tth])
  end.

(** The body of the loop over the X-ray sources, with its loop over the
    rings. *)
Definition residual_of_source (st : calibrator)
    (params : gmap string parameter)
    (meas_angles : dict (list (dict (option array2))))
    (tth_correction : dict (list (dict (option (list num)))))
    (prefixes : dict string)
    (residual : list (list num)) (xray_source : string)
  : result (list (list num)) :=
  prefix ← dict_get prefixes xray_source;
  ma ← dict_get meas_angles xray_source;
  tc ← dict_get tth_correction xray_source;
  for_each (enumerate (zip ma tc))
    (fun residual '(ii, (rng, corr_rng)) =>
       for_each (detectors (_instr st))
         (residual_of_detector params prefix ii rng corr_rng)
         residual)
    residual.

(** The loops of [calc_residual], on the instrument as already updated:
    the list [residual] of per-combination arrays. *)
Definition residual_blocks (st : calibrator) (params : gmap string parameter)
  : result (list (list num)) :=
  meas_angles ← meas_angles st;
  tth_correction ← tth_correction st;
  let prefixes := tth_parameter_prefixes (_instr st) in
  for_each (keys (_data st))
    (residual_of_source st params meas_angles tth_correction prefixes)
    [].

(** [calc_residual]: the trial values are pushed into the shared instrument
    first, and stay there. *)
Definition calc_residual (params : gmap string parameter) (st : calibrator)
  : outcome (list num) :=
  let st := with_instr st
              (update_instrument_from_params (_instr st) params
                 (euler_convention st)) in
  match residual_blocks st params ≫= np_hstack with
  | Ok r => Returns r st
  | Raise e => Throws e st
  end.

(** *** The residual, stated from the dataset *)

(** The systematic correction of the points [meas_xy] of a detector: the
    first column of what its distortion object returns, when one is
    configured. *)
Definition corr_of (st : calibrator) (xray_source det_name : string)
    (meas_xy : array2) : option (list num) :=
  match _tth_distortion st ≫= (fun td => dict_lookup td det_name) with
  | Some sd =>
      Some (map fst (distortion_apply sd (_instr st) xray_source meas_xy))
  | None => None
  end.

(** What one (X-ray source, ring, detector) adds to the residual: nothing
    when the ring has no data for the detector or the data is empty,
    otherwise one array, the measured two-theta in degrees minus the ring's
    fitted two-theta [tth_rng], minus the correction in degrees when there
    is one. *)
Definition contribution (st : calibrator) (tth_rng : num)
    (xray_source : string) (rng : ring) (det_name : string)
  : list (list num) :=
  match dict_lookup rng det_name with
  | None => []
  | Some meas_xy =>
      match cart_to_angles (_instr st) xray_source det_name meas_xy with
      | [] => []
      | a =>
          let measured := map (fun p => degrees (fst p)) a in
          match corr_of st xray_source det_name meas_xy with
          | None => [map (fun t => sub t tth_rng) measured]
          | Some corr =>
              [zip_with (fun t c => sub (sub t tth_rng) (degrees c))
                 measured corr]
          end
      end
  end.

(** The contributions in the order X-ray source, ring index, detector;
    [tth xs ii] is the fitted two-theta of ring [ii] of source [xs]. *)
Definition contributions (st : calibrator) (tth : string -> nat -> num)
  : list (list num) :=
  concat (map (fun sr : string * list ring =>
    concat (map (fun ir : nat * ring =>
      concat (map (contribution st (tth (fst sr) (fst ir)) (fst sr) (snd ir))
                (detectors (_instr st))))
      (enumerate (snd sr))))
    (_data st)).

(** What the types of the Python objects and of the collaborators promise:
    dict keys are distinct; a ring names detectors of the instrument only;
    a configured distortion has an object for every detector with data, and
    its correction has one entry per measured point; every source has a
    parameter prefix and every ring its two-theta parameter, named by the
    prefix and the ring index. *)
Record well_formed (st : calibrator) (params : gmap string parameter)
    (tth : string -> nat -> num) : Prop := {
  wf_sources : NoDup (keys (_data st));
  wf_ring_keys : forall xs rings rng,
    (xs, rings) ∈ _data st -> rng ∈ rings -> NoDup (keys rng);
  wf_ring_detectors : forall xs rings rng det,
    (xs, rings) ∈ _data st -> rng ∈ rings -> det ∈ keys rng ->
    det ∈ detectors (_instr st);
  wf_distortion : forall td xs rings rng det meas_xy,
    _tth_distortion st = Some td ->
    (xs, rings) ∈ _data st -> rng ∈ rings -> (det, meas_xy) ∈ rng ->
    exists sd,
      dict_get td det = Ok sd /\
      length (distortion_apply sd (_instr st) xs meas_xy)
      = length (cart_to_angles (_instr st) xs det meas_xy);
  wf_prefix : forall xs rings,
    (xs, rings) ∈ _data st ->
    exists prefix, dict_get (tth_parameter_prefixes (_instr st)) xs = Ok prefix;
  wf_params : forall xs rings (ii : nat) prefix,
    (xs, rings) ∈ _data st -> (ii < length rings)%nat ->
    dict_get (tth_parameter_prefixes (_instr st)) xs = Ok prefix ->
    exists p, params !! (prefix +:+ pretty ii) = Some p /\ value p = tth xs ii
}.

End Calibrator.

Arguments Returns {_ _} a st.
Arguments Throws {_ _} e st.

(** *** A small calibrator to run the definitions on *)

(** Integers stand for the floats, with a stand-in for the map from radians
    to degrees; the instrument is the list of its detector names; geometry
    is the identity; a distortion object corrects every point by its own
    constant. *)
Definition demo : Collaborators := {|
  num := Z;
  sub := Z.sub;
  degrees := fun x => 180 * x;
  instrument := list string;
  parameter := Z;
  distortion := Z;
  euler := unit;
  fit_result := gmap string Z;
  detectors := fun ins => ins;
  cart_to_angles := fun _ _ _ xy => xy;
  distortion_apply := fun sd _ _ xy => map (fun _ => (sd, 0)) xy;
  value := fun p => p;
  update_instrument_from_params := fun ins _ _ => ins;
  tth_parameter_prefixes := fun _ => [("beam", "beam_tth_")]%string;
  create_instr_params := fun _ _ => [("panel_tvec_x", 0)]%string;
  create_tth_parameters :=
    fun _ _ => [("beam_tth_0", 7); ("beam_tth_1", 8)]%string;
  add_engineering_constraints := fun p _ => p;
  minimize := fun p => <["beam_tth_0"%string := 9]> p;
  result_params := fun r => r
|}.

(** Two detectors; ring 0 has two points on det1 and an empty array on
    det2, ring 1 has one point on det2 and nothing for det1. *)
Definition demo_data : @dataset demo :=
  [("beam", [ [("det1", [(1, 0); (2, 0)]); ("det2", [])];
              [("det2", [(3, 0)])] ])]%string.

(** A dataset without a single measured point. *)
Definition demo_no_data : @dataset demo :=
  [("beam", [ [("det2", [])] ])]%string.

Definition demo_instr : @instrument demo := ["det1"; "det2"]%string.

Definition demo_init (data : @dataset demo) (tag : option string)
  : @calibrator demo :=
  state_after (init demo_instr data None tag tt).

(** The parameters the rebuild gives on the demo instrument. *)
Definition demo_params : gmap string Z :=
  @add_many demo ∅
    [("panel_tvec_x", 0); ("beam_tth_0", 7); ("beam_tth_1", 8)]%string.

(** The calibrator on [demo_data], with a distortion object per detector. *)
Definition demo_cal : @calibrator demo :=
  {| _instr := demo_instr; _data := demo_data;
     _tth_distortion := Some [("det1", 1); ("det2", 2)]%string;
     _engineering_constraints := None;
     euler_convention := tt;
     params := demo_params |}.

(** The calibrator on [demo_data] after a fit. *)
Definition demo_fitted : @calibrator demo :=
  state_after (run_calibration (demo_init demo_data None)).

Definition demo_tth (xs : string) (ii : nat) : Z :=
  match ii with
  | O => 7
  | _ => 8
  end.

(** *** A calibrator whose geometry is fitted *)

(** The instrument is one number, the x translation of its panel: the
    instrument parameter is read from it, and [update_instrument_from_params]
    writes the trial value of that parameter into it.  A fit moves the
    translation from 0 to 5 and the two-theta of ring 0 from 7 to 9. *)
Definition demo_geometry : Collaborators := {|
  num := Z;
  sub := Z.sub;
  degrees := fun x => 180 * x;
  instrument := Z;
  parameter := Z;
  distortion := Z;
  euler := unit;
  fit_result := gmap string Z;
  detectors := fun _ => ["det1"; "det2"]%string;
  cart_to_angles := fun _ _ _ xy => xy;
  distortion_apply := fun sd _ _ xy => map (fun _ => (sd, 0)) xy;
  value := fun p => p;
  update_instrument_from_params :=
    fun ins params _ => default ins (params !! "panel_tvec_x"%string);
  tth_parameter_prefixes := fun _ => [("beam", "beam_tth_")]%string;
  create_instr_params := fun ins _ => [("panel_tvec_x", ins)]%string;
  create_tth_parameters :=
    fun _ _ => [("beam_tth_0", 7); ("beam_tth_1", 8)]%string;
  add_engineering_constraints := fun p _ => p;
  minimize :=
    fun p => <["panel_tvec_x"%string := 5]> (<["beam_tth_0"%string := 9]> p);
  result_params := fun r => r
|}.

(** The same dataset as [demo_data], for that calibrator. *)
Definition demo_geometry_data : @dataset demo_geometry :=
  [("beam", [ [("det1", [(1, 0); (2, 0)]); ("det2", [])];
              [("det2", [(3, 0)])] ])]%string.

(** The calibrator after a fit: the residual has been evaluated at the
    fitted values, which wrote them into the instrument, and
    [run_calibration] has stored them. *)
Definition demo_geometry_fitted : @calibrator demo_geometry :=
  let st0 :=
    state_after (@init demo_geometry 0 demo_geometry_data None None tt) in
  let fitted := @result_params demo_geometry
                  (@minimize demo_geometry (params st0)) in
  with_params (state_after (calc_residual fitted st0)) fitted.

End Structureless.

(** ** hexrd/fitting/calibration/structureless.py: the fit and its options *)

Module StructurelessRun.

Import Structureless.

(** A value of an options dictionary: a float, an integer or a string. *)
Inductive optval : Type :=
| OFloat (x : R)
| OInt (n : Z)
| OStr (s : string).

(** [d.update(o)]: the items of [o] stored one after the other. *)
Definition update {V} (d o : dict V) : dict V :=
  fold_left (fun d kv => dict_set d (fst kv) (snd kv)) o d.

(** The options [run_calibration] starts from on the least-squares path. *)
Definition default_options : dict optval :=
  [("ftol", OFloat (1 / 10 ^ 8)); ("xtol", OFloat (1 / 10 ^ 8));
   ("gtol", OFloat (1 / 10 ^ 8)); ("verbose", OInt 2);
   ("max_nfev", OInt 1000); ("x_scale", OStr "jac");
   ("method", OStr "trf"); ("jac", OStr "3-point")]%string.

(** The keywords the call of [scalar_minimize] spells out. *)
Definition explicit_keywords : list string :=
  ["method"; "params"; "max_nfev"]%string.

Section Run.

Context `{Collaborators}.

(** The two entry points of [lmfit.Minimizer] the method calls:
    [least_squares(params, **kws)] and
    [scalar_minimize(method=, params=, max_nfev=, **kws)]. *)
Variable least_squares : gmap string parameter -> dict optval -> fit_result.
Variable scalar_minimize :
  string -> gmap string parameter -> Z -> dict optval -> fit_result.

(** [run_calibration], with its arguments.  A call that spells out a
    keyword and finds the same keyword in the unpacked dictionary raises
    [TypeError] before the callee runs. *)
Definition run_calibration (method : string) (odict : option (dict optval))
    (st : calibrator) : outcome fit_result :=
  let odict := match odict with
               | None => []
               | Some o => o
               end in
  if String.eqb method "least_squares" then
    let fdict := update default_options odict in
    let res := least_squares (params st) fdict in
    Returns res (with_params st (result_params res))
  else
    let fdict := odict in
    if existsb (fun k => bool_decide (k ∈ keys fdict)) explicit_keywords then
      Throws TypeError st
    else
      let res := scalar_minimize method (params st) 50000 fdict in
      Returns res (with_params st (result_params res)).

(** Every detector name a ring of the dataset uses is a detector of the
    instrument. *)
Definition rings_known (ins : instrument) (dat : dataset) : bool :=
  forallb (fun sr : string * list ring =>
    forallb (fun rng : ring =>
      forallb (fun it : string * array2 =>
                 bool_decide (fst it ∈ detectors ins)) rng)
      (snd sr))
    dat.

(** The number of angle pairs a detector gives for the points a ring has
    on it, and their total over the dataset. *)
Definition points_of (st : calibrator) (xray_source : string) (rng : ring)
    (det_name : string) : nat :=
  match dict_lookup rng det_name with
  | None => 0
  | Some meas_xy =>
      length (cart_to_angles (_instr st) xray_source det_name meas_xy)
  end.

Definition n_points (st : calibrator) : nat :=
  sum_list (map (fun sr : string * list ring =>
    sum_list (map (fun rng : ring =>
      sum_list (map (points_of st (fst sr) rng) (detectors (_instr st))))
      (snd sr)))
    (_data st)).

End Run.

(** A dataset whose ring names a detector the demo instrument lacks. *)
Definition demo_stray : @dataset demo :=
  [("beam", [ [("det3", [(1, 0)])] ])]%string.

End StructurelessRun.

(** ** hexrd/instrument/cylindrical_detector.py *)

Module Cylindrical.

Local Open Scope R_scope.

(** What the derived geometry reads of a detector: the pixel grid, the pixel
    pitches and the translation vector. *)
Record detector := {
  rows : Z;
  cols : Z;
  pixel_size_row : R;
  pixel_size_col : R;
  tvec : R * R * R
}.

(** [np.linalg.norm] of a 3-vector. *)
Definition linalg_norm (v : R * R * R) : R :=
  let '(x, y, z) := v in sqrt (x * x + y * y + z * z).

(** [radius] *)
Definition radius (self : detector) : R := linalg_norm (tvec self).

(** [physical_size]: the array of its two entries. *)
Definition physical_size (self : detector) : R * R :=
  (IZR (rows self) * pixel_size_row self,
   IZR (cols self) * pixel_size_col self).

(** [angle_extent]: [sz = self.physical_size[1]], then
    [sz / self.radius / 2.0]. *)
Definition angle_extent (self : detector) : option R :=
  let sz := snd (physical_size self) in
  q ← Np.divide sz (radius self);
  Np.divide q 2.

(** A panel of 2 rows and 4 columns of unit pixels, one unit from the
    origin. *)
Definition panel_2x4 : detector :=
  {| rows := 2; cols := 4; pixel_size_row := 1; pixel_size_col := 1;
     tvec := (0, 0, 1) |}.

End Cylindrical.

(** ** hexrd/instrument/cylindrical_detector.py: angles and gradients *)

Module CylindricalAngles.

Local Open Scope R_scope.

(** *** [_fix_branch_cut_in_gradients] *)

(** One entry of the result: [np.min], along the stacking axis, of the
    absolute values of [g - pi], [g] and [g + pi]. *)
Definition fix_entry (g : R) : R :=
  Rmin (Rmin (Rabs (g - PI)) (Rabs g)) (Rabs (g + PI)).

(** [_fix_branch_cut_in_gradients], on a 2-D array. *)
Definition _fix_branch_cut_in_gradients (pgarray : list (list R))
  : list (list R) :=
  map (map fix_entry) pgarray.

(** *** [angles_to_cart] *)

(** A 3 x 3 matrix, the triple of its rows. *)
Definition mat3 : Type := (R * R * R) * (R * R * R) * (R * R * R).

(** [ct.identity_3x3], by its name. *)
Definition identity_3x3 : mat3 := ((1, 0, 0), (0, 1, 0), (0, 0, 1)).

(** [np.arccos]: not a number outside [-1, 1]. *)
Definition np_arccos (x : R) : option R :=
  if Rle_dec (-1) x then if Rle_dec x 1 then Some (acos x) else None
  else None.

(** The rotations by [t] about the first and about the second axis, and
    the product of two matrices. *)
Definition rot_x (t : R) : mat3 :=
  ((1, 0, 0), (0, cos t, - sin t), (0, sin t, cos t)).

Definition rot_y (t : R) : mat3 :=
  ((cos t, 0, sin t), (0, 1, 0), (- sin t, 0, cos t)).

Definition matmul3 (a b : mat3) : mat3 :=
  let '(b1, b2, b3) := b in
  let row (r : R * R * R) : R * R * R :=
    let '(x, y, z) := r in
    (x * b1.1.1 + y * b2.1.1 + z * b3.1.1,
     x * b1.1.2 + y * b2.1.2 + z * b3.1.2,
     x * b1.2 + y * b2.2 + z * b3.2) in
  let '(a1, a2, a3) := a in (row a1, row a2, row a3).

(** The sample rotation the method assumes it is given, after its
    comment: [R(Xl, chi) * R(Yl, ome)]. *)
Definition sample_rmat (chi ome : R) : mat3 :=
  matmul3 (rot_x chi) (rot_y ome).

(** The rows [valid_mask] selects, filled in order from [rows]; the other
    rows stay [nan]. *)
Fixpoint fill_rows {A} (mask : list bool) (rows : list A) : list (option A) :=
  match mask with
  | [] => []
  | false :: mask' => None :: fill_rows mask' rows
  | true :: mask' =>
      match rows with
      | r :: rows' => Some r :: fill_rows mask' rows'
      | [] => None :: fill_rows mask' []
      end
  end.

(** [xy_det[valid_mask, :] = valid_xy] on an array of [n] rows of [nan]: the
    mask has to be as long as the array, and the value has to have a row
    for each selected row, or one row for all of them. *)
Definition assign_masked {A} (n : nat) (mask : list bool) (rows : list A)
  : result (list (option A)) :=
  let selected := length (filter (fun b => b = true) mask) in
  if negb (Nat.eqb (length mask) n) then Raise IndexError
  else if Nat.eqb (length rows) selected then Ok (fill_rows mask rows)
  else match rows with
       | [r] => Ok (fill_rows mask (replicate selected r))
       | _ => Raise ValueError
       end.

Section AnglesToCart.

(** The detector, and [xrdutil.utils._project_on_detector_cylinder] on its
    geometry: from the rows (tth, eta, ome) and from chi, the projected
    points that are valid and the mask of the rows they come from.  The
    sample rotation itself is not among its arguments. *)
Variable panel : Type.
Variable proj_func :
  panel -> list (R * R * option R) -> option R ->
  list (R * R) * list bool.

(** [angles_to_cart] *)
Definition angles_to_cart (self : panel) (tth_eta : list (R * R))
    (rmat_s : option mat3) : result (list (option (R * R))) :=
  let rmat_s := match rmat_s with
                | None => identity_3x3
                | Some m => m
                end in
  let chi := np_arccos (snd (fst (snd (fst rmat_s)))) in
  let ome := np_arccos (fst (fst (fst (fst rmat_s)))) in
  let angs := map (fun te => (fst te, snd te, ome)) tth_eta in
  let '(valid_xy, valid_mask) := proj_func self angs chi in
  assign_masked (length angs) valid_mask valid_xy.

End AnglesToCart.

(** *** [update_memoization_sizes] *)

(** A Python object, as far as [is] tells objects apart: a class, or an
    instance of a class with an identity of its own. *)
Inductive pyobject : Type :=
| ClassObject (name : string)
| Instance (cls : string) (ident : nat).

#[global] Instance pyobject_eq_dec : EqDecision pyobject.
Proof. solve_decision. Defined.

(** [x is y] *)
Definition is_ (x y : pyobject) : bool :=
  match x, y with
  | ClassObject a, ClassObject b => String.eqb a b
  | Instance c i, Instance d j => (String.eqb c d && Nat.eqb i j)%bool
  | _, _ => false
  end.

(** The class the method belongs to. *)
Definition CylindricalDetector : pyobject := ClassObject "CylindricalDetector".

(** The memoized functions of the module. *)
Inductive memoized : Type :=
| _pixel_angles
| _pixel_tth_gradient
| _pixel_eta_gradient.

(** [sum(x is CylindricalDetector for x in all_panels)] *)
Definition num_matches (all_panels : list pyobject) : Z :=
  fold_right Z.add 0%Z
    (map (fun x => if is_ x CylindricalDetector then 1%Z else 0%Z) all_panels).

(** [update_memoization_sizes]: the arguments of its two calls, the one of
    [Detector.update_memoization_sizes] and those of
    [Detector.increase_memoization_sizes]. *)
Definition update_memoization_sizes (all_panels : list pyobject)
  : list pyobject * (list memoized * Z) :=
  (all_panels,
   ([_pixel_angles; _pixel_tth_gradient; _pixel_eta_gradient],
    num_matches all_panels)).

(** A projection to run the definitions on: the rows at the even
    positions are valid and keep their angles as coordinates. *)
Fixpoint even_rows {A} (l : list A) : list A :=
  match l with
  | a :: _ :: rest => a :: even_rows rest
  | _ => l
  end.

Fixpoint even_mask {A} (l : list A) : list bool :=
  match l with
  | [] => []
  | [_] => [true]
  | _ :: _ :: rest => true :: false :: even_mask rest
  end.

Definition demo_proj (_ : unit) (angs : list (R * R * option R))
    (_ : option R) : list (R * R) * list bool :=
  (map fst (even_rows angs), even_mask angs).

End CylindricalAngles.

(** ** hexrd/ipfcolor/sphere_sector.py *)

Module SphereSector.

Local Open Scope R_scope.

(** Modelled from the spec: the constant [constants.sqrt_epsf] of
    [hexrd.constants], which is not among the sources; the degeneracy
    epsilon is the square root of the machine epsilon of double precision,
    2^-52. *)
Definition eps : R := sqrt (/ 2 ^ 52).

(** A row of an N x 3 array, or an array of shape (3,). *)
Definition vec3 : Type := R * R * R.

(** [np.dot] of two 3-vectors. *)
Definition dot (a b : vec3) : R :=
  let '(a1, a2, a3) := a in
  let '(b1, b2, b3) := b in
  a1 * b1 + a2 * b2 + a3 * b3.

(** [np.cross] of two 3-vectors. *)
Definition cross (a b : vec3) : vec3 :=
  let '(a1, a2, a3) := a in
  let '(b1, b2, b3) := b in
  (a2 * b3 - a3 * b2, a3 * b1 - a1 * b3, a1 * b2 - a2 * b1).

(** [np.linalg.norm] of a 3-vector. *)
Definition norm (a : vec3) : R := sqrt (dot a a).

(** [a / n], a vector over a nonzero scalar. *)
Definition vdiv (a : vec3) (n : R) : vec3 :=
  let '(a1, a2, a3) := a in (a1 / n, a2 / n, a3 / n).

(** [a / np.linalg.norm(a)]: not a finite vector when the norm is zero. *)
Definition normalized (a : vec3) : option vec3 :=
  if Req_dec_T (norm a) 0 then None else Some (vdiv a (norm a)).

(** [np.arctan2(y, x)], for the zeros without sign. *)
Definition arctan2 (y x : R) : R :=
  if Rlt_dec 0 x then atan (y / x)
  else if Rlt_dec x 0 then
    if Rle_dec 0 y then atan (y / x) + PI else atan (y / x) - PI
  else if Rlt_dec 0 y then PI / 2
  else if Rlt_dec y 0 then - (PI / 2)
  else 0.

(** A 2-D array, the list of its rows. *)
Definition matrix : Type := list (list R).

Definition transpose {A} (d : A) (m : list (list A)) : list (list A) :=
  map (fun j => map (fun r => nth j r d) m) (seq 0 (length (hd [] m))).

(** [m.T] *)
Definition T (m : matrix) : matrix := transpose 0 m.
Definition TZ (m : list (list Z)) : list (list Z) := transpose 0%Z m.

Definition vec3_of (l : list R) : vec3 := (nth 0 l 0, nth 1 l 0, nth 2 l 0).

Definition sum (l : list R) : R := fold_right Rplus 0 l.

(** [np.mean(m, axis=1)]: the mean of every row; the empty Python list has
    no axis 1. *)
Definition mean_axis1 (m : matrix) : result (list R) :=
  match m with
  | [] => Raise ValueError
  | _ => Ok (map (fun row => sum row / INR (length row)) m)
  end.

(** [m[:, 0]]: the empty Python list takes no such index. *)
Definition col0 (m : matrix) : result vec3 :=
  match m with
  | [] => Raise TypeError
  | _ => Ok (vec3_of (map (fun row => nth 0 row 0) m))
  end.

(** The connectivity of a table entry: the empty list, an array of one
    triangle, or the transposed array of two. *)
Inductive connectivity_t : Type :=
| conn_none
| conn_1d (c : list Z)
| conn_2d (c : list (list Z)).

(** An entry of [pg2vertex]: triangle count, vertices, connectivity,
    hemisphere. *)
Record entry := entry_of {
  e_ntriangle : Z;
  e_vertices : matrix;
  e_connectivity : connectivity_t;
  e_hemisphere : string
}.

Definition pg2vertex : dict entry := [
  ("c1", entry_of 0%Z
     ([])
     (conn_none)
     "both");
  ("ci", entry_of 0%Z
     ([])
     (conn_none)
     "upper");
  ("c2", entry_of 2%Z
     (T ([[0; 0; 1]; [1; 0; 0]; [0; 1; 0]; [- 1; 0; 0]]))
     (conn_2d (TZ [[0; 1; 2]; [0; 2; 3]])%Z)
     "both");
  ("cs", entry_of 2%Z
     (T ([[0; 0; 1]; [1; 0; 0]; [0; 1; 0]; [- 1; 0; 0]]))
     (conn_2d (TZ [[0; 1; 2]; [0; 2; 3]])%Z)
     "upper");
  ("c2h", entry_of 2%Z
     (T ([[0; 0; 1]; [1; 0; 0]; [0; 1; 0]; [- 1; 0; 0]]))
     (conn_2d (TZ [[0; 1; 2]; [0; 2; 3]])%Z)
     "upper");
  ("d2", entry_of 2%Z
     (T ([[0; 0; 1]; [1; 0; 0]; [0; 1; 0]; [- 1; 0; 0]]))
     (conn_2d (TZ [[0; 1; 2]; [0; 2; 3]])%Z)
     "upper");
  ("c2v", entry_of 1%Z
     (T ([[0; 0; 1]; [1; 0; 0]; [0; 1; 0]]))
     (conn_1d [0; 1; 2]%Z)
     "both");
  ("d2h", entry_of 1%Z
     (T ([[0; 0; 1]; [1; 0; 0]; [0; 1; 0]]))
     (conn_1d [0; 1; 2]%Z)
     "upper");
  ("c4", entry_of 1%Z
     (T ([[0; 0; 1]; [1; 0; 0]; [0; 1; 0]]))
     (conn_1d [0; 1; 2]%Z)
     "both");
  ("s4", entry_of 2%Z
     (T ([[0; 0; 1]; [1; 0; 0]; [0; 1; 0]; [- 1; 0; 0]]))
     (conn_2d (TZ [[0; 1; 2]; [0; 2; 3]])%Z)
     "upper");
  ("c4h", entry_of 1%Z
     ([[0; 0; 1]; [1; 0; 0]; [0; 1; 0]])
     (conn_1d [0; 1; 2]%Z)
     "upper");
  ("d4", entry_of 1%Z
     ([[0; 0; 1]; [1; 0; 0]; [0; 1; 0]])
     (conn_1d [0; 1; 2]%Z)
     "upper");
  ("c4v", entry_of 1%Z
     (T ([[0; 0; 1]; [1; 0; 0]; [1 / sqrt 2; 1 / sqrt 2; 0]]))
     (conn_1d [0; 1; 2]%Z)
     "both");
  ("d2d", entry_of 1%Z
     ([[0; 0; 1]; [1; 0; 0]; [0; 1; 0]])
     (conn_1d [0; 1; 2]%Z)
     "upper");
  ("d4h", entry_of 1%Z
     (T ([[0; 0; 1]; [1; 0; 0]; [1 / sqrt 2; 1 / sqrt 2; 0]]))
     (conn_1d [0; 1; 2]%Z)
     "upper");
  ("c3", entry_of 1%Z
     (T ([[0; 0; 1]; [1; 0; 0]; [- 0.5; sqrt 3 / 2; 0]]))
     (conn_1d [0; 1; 2]%Z)
     "both");
  ("s6", entry_of 1%Z
     (T ([[0; 0; 1]; [1; 0; 0]; [- 0.5; sqrt 3 / 2; 0]]))
     (conn_1d [0; 1; 2]%Z)
     "upper");
  ("d3", entry_of 1%Z
     (T ([[0; 0; 1]; [1; 0; 0]; [- 0.5; sqrt 3 / 2; 0]]))
     (conn_1d [0; 1; 2]%Z)
     "upper");
  ("c3v", entry_of 1%Z
     (T ([[0; 0; 1]; [1; 0; 0]; [0.5; sqrt 3 / 2; 0]]))
     (conn_1d [0; 1; 2]%Z)
     "both");
  ("d3d", entry_of 1%Z
     (T ([[0; 0; 1]; [1; 0; 0]; [0.5; sqrt 3 / 2; 0]]))
     (conn_1d [0; 1; 2]%Z)
     "upper");
  ("c6", entry_of 1%Z
     (T ([[0; 0; 1]; [1; 0; 0]; [0.5; sqrt 3 / 2; 0]]))
     (conn_1d [0; 1; 2]%Z)
     "both");
  ("c3h", entry_of 1%Z
     (T ([[0; 0; 1]; [1; 0; 0]; [- 0.5; sqrt 3 / 2; 0]]))
     (conn_1d [0; 1; 2]%Z)
     "upper");
  ("c6h", entry_of 1%Z
     (T ([[0; 0; 1]; [1; 0; 0]; [0.5; sqrt 3 / 2; 0]]))
     (conn_1d [0; 1; 2]%Z)
     "upper");
  ("d6", entry_of 1%Z
     (T ([[0; 0; 1]; [1; 0; 0]; [0.5; sqrt 3 / 2; 0]]))
     (conn_1d [0; 1; 2]%Z)
     "both");
  ("c6v", entry_of 1%Z
     (T ([[0; 0; 1]; [1; 0; 0]; [sqrt 3 / 2; 0.5; 0]]))
     (conn_1d [0; 1; 2]%Z)
     "both");
  ("d3h", entry_of 1%Z
     (T ([[0; 0; 1]; [1; 0; 0]; [sqrt 3 / 2; 0.5; 0]]))
     (conn_1d [0; 1; 2]%Z)
     "upper");
  ("d6h", entry_of 1%Z
     (T ([[0; 0; 1]; [1; 0; 0]; [sqrt 3 / 2; 0.5; 0]]))
     (conn_1d [0; 1; 2]%Z)
     "upper");
  ("t", entry_of 2%Z
     (T ([[0; 0; 1]; [1 / sqrt 3; - 1 / sqrt 3; 1 / sqrt 3]; [1 / sqrt 3; 1 / sqrt 3; 1 / sqrt 3]; [1; 0; 0]]))
     (conn_2d (TZ [[0; 1; 2]; [1; 3; 2]])%Z)
     "upper");
  ("th", entry_of 2%Z
     (T ([[0; 0; 1]; [1 / sqrt 2; 0; 1 / sqrt 2]; [1 / sqrt 3; 1 / sqrt 3; 1 / sqrt 3]; [0; 1 / sqrt 2; 1 / sqrt 2]]))
     (conn_2d (TZ [[0; 1; 2]; [0; 2; 3]])%Z)
     "upper");
  ("o", entry_of 2%Z
     (T ([[0; 0; 1]; [1 / sqrt 2; 0; 1 / sqrt 2]; [1 / sqrt 3; 1 / sqrt 3; 1 / sqrt 3]; [0; 1 / sqrt 2; 1 / sqrt 2]]))
     (conn_2d (TZ [[0; 1; 2]; [0; 2; 3]])%Z)
     "upper");
  ("td", entry_of 1%Z
     (T ([[0; 0; 1]; [1 / sqrt 3; - 1 / sqrt 3; 1 / sqrt 3]; [1 / sqrt 3; 1 / sqrt 3; 1 / sqrt 3]]))
     (conn_1d [0; 1; 2]%Z)
     "upper");
  ("oh", entry_of 1%Z
     (T ([[0; 0; 1]; [1 / sqrt 2; 0; 1 / sqrt 2]; [1 / sqrt 3; 1 / sqrt 3; 1 / sqrt 3]]))
     (conn_1d [0; 1; 2]%Z)
     "upper")
]%string.

Record sector := {
  ntriangle : Z;
  vertices : matrix;
  connectivity : connectivity_t;
  hemisphere : string;
  ntriangle_laue : Z;
  vertices_laue : matrix;
  connectivity_laue : connectivity_t;
  hemisphere_laue : string;
  barycenter : vec3;
  barycenter_laue : vec3
}.

(** The barycenter of a vertex array: [np.mean(v, axis=1)], then divided
    by its norm.  The division is that of the reals; it is the division of
    floats whenever the norm is not zero. *)
Definition barycenter_of (v : matrix) : result vec3 :=
  m ← mean_axis1 v;
  let b := vec3_of m in
  Ok (vdiv b (norm b)).

(** [sector.__init__] *)
Definition sector_init (pgsym lauesym : string) : result sector :=
  data ← dict_get pg2vertex pgsym;
  data_laue ← dict_get pg2vertex lauesym;
  if negb (e_ntriangle data =? 0)%Z then
    b ← barycenter_of (e_vertices data);
    b_laue ← barycenter_of (e_vertices data_laue);
    Ok {| ntriangle := e_ntriangle data;
          vertices := e_vertices data;
          connectivity := e_connectivity data;
          hemisphere := e_hemisphere data;
          ntriangle_laue := e_ntriangle data_laue;
          vertices_laue := e_vertices data_laue;
          connectivity_laue := e_connectivity data_laue;
          hemisphere_laue := e_hemisphere data_laue;
          barycenter := b;
          barycenter_laue := b_laue |}
  else
    Ok {| ntriangle := e_ntriangle data;
          vertices := e_vertices data;
          connectivity := e_connectivity data;
          hemisphere := e_hemisphere data;
          ntriangle_laue := e_ntriangle data_laue;
          vertices_laue := e_vertices data_laue;
          connectivity_laue := e_connectivity data_laue;
          hemisphere_laue := e_hemisphere data_laue;
          barycenter := (0, 0, 1);
          barycenter_laue := (0, 0, 1) |}.

(** The two objects a coloring call works on: the sector, and the caller's
    N x 3 array, which the call may write to.  The array is the caller's
    own: it is no view of an array of the sector. *)
Record world := {
  self : sector;
  dir3 : list vec3
}.

(** One row of [check_norm]: a row of norm above [eps] is divided by its
    norm, any other row is left alone. *)
Definition unit_row (d : vec3) : vec3 :=
  let n := norm d in
  if Rgt_dec n eps then vdiv d n else d.

(** [check_norm]: writes the rows back into [dir3]. *)
Definition check_norm (w : world) : world :=
  {| self := self w; dir3 := map unit_row (dir3 w) |}.

(** [np.arccos] of a finite float: not a number outside [-1, 1]. *)
Definition np_arccos (x : R) : option R :=
  if Rle_dec (-1) x then if Rle_dec x 1 then Some (acos x) else None
  else None.

(** [max] of two floats as [ndarray.max] takes it: not a number as soon as
    one of them is not. *)
Definition nan_max (a b : option R) : option R :=
  x ← a; y ← b; Some (Rmax x y).

(** A row of the result of [get_color]: hue, saturation, lightness. *)
Abbreviation hsl_row := (option R * option R * option R)%type.

Section Rounded.

(** [np.dot] of two 3-vectors as the machine computes it: the dot product
    up to rounding.  Rounding decides whether the result falls in the
    domain [-1, 1] of the arc cosine (the product of two vectors of norm 1
    can come out above 1), so nothing is assumed of it. *)
Variable np_dot : vec3 -> vec3 -> R.

(** The azimuth of one row of [n2 = cross(b, dir3)]: the row is normalised
    when its norm is above [eps], its dot product with [n1] is taken, 0
    when it is not; [pi] is added to the arc cosine of a negative dot
    product. *)
Definition azimuth_row (n1 : option vec3) (n2 : vec3) : option R :=
  let mask := Rgt_dec (norm n2) eps in
  let n2 := if mask then vdiv n2 (norm n2) else n2 in
  dp ← (if mask then n ← n1; Some (np_dot n n2) else Some 0);
  rho ← np_arccos dp;
  Some (if Rlt_dec dp 0 then rho + PI else rho).

(** [calc_azi_rho] *)
Definition calc_azi_rho (w : world) (laueswitch : bool)
  : result (list (option R)) * world :=
  let w := check_norm w in
  let s := self w in
  let picked :=
    if negb laueswitch then
      rx ← (if negb (ntriangle s =? 0)%Z then col0 (vertices s)
            else Ok (1, 0, 0));
      Ok (rx, barycenter s)
    else
      rx ← (if negb (ntriangle s =? 0)%Z then col0 (vertices_laue s)
            else Ok (1, 0, 0));
      Ok (rx, barycenter_laue s) in
  match picked with
  | Raise e => (Raise e, w)
  | Ok (rx, b) =>
      if negb (ntriangle s =? 0)%Z then
        let n1 := cross b rx in
        let n1 := normalized n1 in
        let n2 := map (cross b) (dir3 w) in
        (Ok (map (azimuth_row n1) n2), w)
      else
        (Ok (map (fun d : vec3 =>
                    let '(x, y, _) := d in Some (arctan2 y x + PI))
               (dir3 w)), w)
  end.

(** [calc_pol_theta]: the arc cosine of the dot product of the barycenter
    with every row; [pol.max()] of an empty batch raises; the rescaling
    divides by the maximum, whatever it is. *)
Definition calc_pol_theta (w : world) (laueswitch : bool)
  : result (list (option R)) * world :=
  let w := check_norm w in
  let s := self w in
  let b := if negb laueswitch then barycenter s else barycenter_laue s in
  let pol := map (fun d => np_arccos (np_dot b d)) (dir3 w) in
  match pol with
  | [] => (Raise ValueError, w)
  | p :: ps =>
      let pol_max := fold_left nan_max ps p in
      (Ok (map (fun p => p ← p; m ← pol_max; Np.divide (p * PI) m) pol), w)
  end.

(** [calc_hue] *)
Definition calc_hue (w : world) (laueswitch : bool)
  : result (list (option R)) * world :=
  let '(rho, w) := calc_azi_rho w laueswitch in
  (Py.bind rho (fun rho => Ok (map (option_map (fun r => r / 2 / PI)) rho)),
   w).

(** [calc_saturation] *)
Definition calc_saturation (L : list (option R)) (laueswitch : bool)
  : list (option R) :=
  map (option_map (fun l => 1 - 2 * 0.25 * Rabs (l - 0.5))) L.

(** [calc_lightness] *)
Definition calc_lightness (w : world) (laueswitch : bool)
  : result (list (option R)) * world :=
  let '(theta, w) := calc_pol_theta w laueswitch in
  (Py.bind theta
     (fun theta =>
        Ok (map (option_map (fun t =>
                   let f1 := t / PI in
                   let f2 := (sin (t / 2)) ^ 2 in
                   let L := 0.25 * f1 + 0.75 * f2 in
                   1 - L)) theta)), w).

(** [get_color] *)
Definition get_color (w : world) (laueswitch : bool)
  : result (list hsl_row) * world :=
  let '(H, w) := calc_hue w laueswitch in
  match H with
  | Raise e => (Raise e, w)
  | Ok H =>
      let '(L, w) := calc_lightness w laueswitch in
      match L with
      | Raise e => (Raise e, w)
      | Ok L =>
          let S := calc_saturation L laueswitch in
          (Ok (zip_with (fun h sl => (h, fst sl, snd sl)) H (zip S L)), w)
      end
  end.

End Rounded.


(** The lightness of a polar angle, and the saturation of a lightness. *)
Definition lightness_of (t : R) : R :=
  1 - (0.25 * (t / PI) + 0.75 * (sin (t / 2)) ^ 2).

Definition saturation_of (l : R) : R := 1 - 2 * 0.25 * Rabs (l - 0.5).

(** The barycenter a call works with. *)
Definition active_barycenter (s : sector) (laueswitch : bool) : vec3 :=
  if negb laueswitch then barycenter s else barycenter_laue s.


(** What holds of every entry of the table: no triangle and no vertex, or
    triangles, a first vertex, and a barycenter of norm 1. *)
Definition entry_ok (e : entry) : Prop :=
  (e_ntriangle e = 0%Z /\ e_vertices e = []) \/
  (e_ntriangle e <> 0%Z /\
   (exists rx, col0 (e_vertices e) = Ok rx) /\
   exists b, barycenter_of (e_vertices e) = Ok b /\ norm b = 1).

(** What holds of every sector [sector_init] returns. *)
Definition sector_ok (s : sector) : Prop :=
  norm (barycenter s) = 1 /\ norm (barycenter_laue s) = 1 /\
  (ntriangle s = 0%Z ->
   barycenter s = (0, 0, 1) /\ barycenter_laue s = (0, 0, 1)) /\
  (ntriangle s <> 0%Z ->
   (exists rx, col0 (vertices s) = Ok rx) /\
   (exists rx, col0 (vertices_laue s) = Ok rx)).

(** The sector of point group c1 with Laue group ci, as [sector_init]
    builds it: no triangles, barycenter (0, 0, 1). *)
Definition sector_c1 : sector :=
  {| ntriangle := 0; vertices := []; connectivity := conn_none;
     hemisphere := "both";
     ntriangle_laue := 0; vertices_laue := []; connectivity_laue := conn_none;
     hemisphere_laue := "upper";
     barycenter := (0, 0, 1); barycenter_laue := (0, 0, 1) |}.

(** A batch of two directions: the barycenter of [sector_c1], and one a
    quarter turn away from it. *)
Definition batch_c1 : list vec3 := [(0, 0, 1); (1, 0, 0)].

End SphereSector.

(** ** hexrd/ipfcolor/sphere_sector.py: a barycenter in double precision *)

Module SphereSectorBinary64.

Import Floats.PrimFloat.

Local Open Scope float_scope.












End SphereSectorBinary64.

(** ** hexrd/ipfcolor/sphere_sector.py: the ranges of the colors *)

Module SphereSectorRange.

Import SphereSector.

Local Open Scope R_scope.

(** [hue_speed] *)
Definition hue_speed (rho : R) : R :=
  0.5 + exp (- (4 / 7) * rho ^ 2)
  + exp (- (4 / 7) * (rho - 2 * PI / 3) ^ 2)
  + exp (- (4 / 7) * (rho + 2 * PI / 3) ^ 2).

(** What holds of every entry of the table with triangles: the cross
    product of its barycenter and its first vertex, the reference
    direction [n1] of the azimuth, does not vanish, so that its
    normalisation is a vector of norm 1. *)
Definition entry_axis_ok (e : entry) : Prop :=
  e_ntriangle e <> 0%Z ->
  exists b rx n1,
    barycenter_of (e_vertices e) = Ok b /\ col0 (e_vertices e) = Ok rx /\
    normalized (cross b rx) = Some n1 /\ norm n1 = 1.

(** The same of a sector, for its point group and for its Laue group. *)
Definition sector_axes_ok (s : sector) : Prop :=
  ntriangle s <> 0%Z ->
  (exists rx n1,
     col0 (vertices s) = Ok rx /\
     normalized (cross (barycenter s) rx) = Some n1 /\ norm n1 = 1) /\
  (exists rx n1,
     col0 (vertices_laue s) = Ok rx /\
     normalized (cross (barycenter_laue s) rx) = Some n1 /\ norm n1 = 1).

(** A hue of [calc_hue], a lightness of [calc_lightness], a saturation of
    [calc_saturation]: the ranges they are shown to lie in. *)
Definition unit_interval (x : R) : Prop := 0 <= x <= 1.

(** The two arcs the azimuth of a group with triangles lies in, as
    fractions of the turn: a hue is never strictly between a quarter and
    three quarters. *)
Definition outer_quarters (h : R) : Prop :=
  0 <= h <= 1 / 4 \/ 3 / 4 <= h <= 1.

(** A dot product routine that rounding never takes out of the domain of
    the arc cosine, on vectors of norm 1. *)
Definition stays_in_domain (np_dot : vec3 -> vec3 -> R) : Prop :=
  forall a b, norm a = 1 -> norm b = 1 -> -1 <= np_dot a b <= 1.

Section Rounded.

Variable np_dot : vec3 -> vec3 -> R.

(** The angle between the barycenter in force and a row, normalised as
    [check_norm] does: an entry of [pol] in [calc_pol_theta], before the
    rescaling.  It is no number when the dot product falls outside
    [-1, 1]. *)
Definition polar_angle (s : sector) (laueswitch : bool) (r : vec3)
  : option R :=
  np_arccos (np_dot (active_barycenter s laueswitch) (unit_row r)).

(** The maximum [pol.max()] of a batch with first row [r0]. *)
Definition polar_max (s : sector) (laueswitch : bool) (r0 : vec3)
    (rest : list vec3) : option R :=
  fold_left nan_max (map (polar_angle s laueswitch) rest)
    (polar_angle s laueswitch r0).

End Rounded.

(** The color [get_color] gives a row: the hue from the azimuth [rho] of
    the row, the lightness from its polar angle [pol] rescaled by the
    maximum [pmax] of the batch, the saturation from the lightness. *)
Definition color_of (rho pol pmax : option R) : hsl_row :=
  let l := option_map lightness_of
             (p ← pol; m ← pmax; Np.divide (p * PI) m) in
  (option_map (fun r => r / 2 / PI) rho, option_map saturation_of l, l).

End SphereSectorRange.

(** ** Facts about loops, comprehensions and dicts *)

Module PyFacts.

Lemma bind_ok {A B} (m : result A) (k : A -> result B) (a : A) :
  m = Ok a -> (m ≫= k) = k a.
Proof. intros ->. reflexivity. Qed.

Lemma for_each_ext {A S} (l : list A) (f g : S -> A -> result S) (acc : S) :
  (forall s x, x ∈ l -> f s x = g s x) ->
  for_each l f acc = for_each l g acc.
Proof.
  revert acc. induction l as [|x l IH]; intros acc Hfg; [reflexivity|].
  cbn. rewrite Hfg by left. destruct (g acc x); [|reflexivity].
  cbn. apply IH. intros s y Hy. apply Hfg. right. exact Hy.
Qed.

Lemma for_each_app {A S} (l1 l2 : list A) (f : S -> A -> result S) (acc : S) :
  for_each (l1 ++ l2) f acc = Py.bind (for_each l1 f acc) (for_each l2 f).
Proof.
  revert acc. induction l1 as [|x l1 IH]; intros acc; [reflexivity|].
  cbn. destruct (f acc x); [|reflexivity]. cbn. apply IH.
Qed.

(** A loop whose body appends to a list appends the pieces in order. *)
Lemma for_each_append {A B} (l : list A) (body : list B -> A -> result (list B))
    (h : A -> list B) (acc : list B) :
  (forall s x, x ∈ l -> body s x = Ok (s ++ h x)) ->
  for_each l body acc = Ok (acc ++ concat (map h l)).
Proof.
  revert acc. induction l as [|x l IH]; intros acc Hb.
  - cbn. rewrite app_nil_r. reflexivity.
  - cbn. rewrite Hb by left. cbn. rewrite IH.
    + rewrite <- app_assoc. reflexivity.
    + intros s y Hy. apply Hb. right. exact Hy.
Qed.

Lemma traverse_ok {A B} (f : A -> result B) (g : A -> B) (l : list A) :
  (forall x, x ∈ l -> f x = Ok (g x)) -> traverse f l = Ok (map g l).
Proof.
  induction l as [|x l IH]; intros Hf; [reflexivity|].
  cbn. rewrite Hf by left. cbn. rewrite IH; [reflexivity|].
  intros y Hy. apply Hf. right. exact Hy.
Qed.

Lemma dict_get_set {V} (d : dict V) (k k' : string) (v : V) :
  dict_get (dict_set d k v) k' = if String.eqb k k' then Ok v else dict_get d k'.
Proof.
  induction d as [|[k0 v0] d IH]; cbn.
  - reflexivity.
  - destruct (String.eqb_spec k0 k) as [->|Hne]; cbn.
    + destruct (String.eqb k k'); reflexivity.
    + rewrite IH. destruct (String.eqb_spec k0 k') as [->|]; [|reflexivity].
      destruct (String.eqb_spec k k'); [congruence|reflexivity].
Qed.

Lemma dict_get_fromkeys {V} (ks : list string) (k : string) :
  k ∈ ks -> dict_get (@fromkeys V ks) k = Ok None.
Proof.
  unfold fromkeys.
  assert (Hgen : forall d : dict (option V),
             (k ∈ ks \/ dict_get d k = Ok None) ->
             (forall k', k' ∈ keys d -> dict_get d k' = Ok None) ->
             dict_get (fold_left (fun d k => dict_set d k None) ks d) k
             = Ok None).
  { induction ks as [|k0 ks IH]; intros d Hk Hd; cbn.
    - destruct Hk as [Hk|Hk]; [inversion Hk|exact Hk].
    - apply IH.
      + destruct (String.eqb_spec k0 k) as [->|Hne].
        * right. rewrite dict_get_set, String.eqb_refl. reflexivity.
        * destruct Hk as [Hk|Hk].
          -- inversion Hk; subst; [congruence|left; assumption].
          -- right. rewrite dict_get_set.
             destruct (String.eqb_spec k0 k); [congruence|exact Hk].
      + intros k'. rewrite dict_get_set.
        destruct (String.eqb_spec k0 k') as [->|Hne]; [reflexivity|].
        intros Hin. apply Hd. clear -Hin Hne.
        induction d as [|[k1 v1] d IHd]; cbn in *.
        * apply list_elem_of_singleton in Hin. congruence.
        * destruct (String.eqb_spec k1 k0) as [->|]; cbn in *; [exact Hin|].
          apply elem_of_cons in Hin as [->|Hin]; [left|right; auto]. }
  intros Hk. apply Hgen; [left; exact Hk|]. intros k' Hin. inversion Hin.
Qed.

Lemma dict_lookup_elem {V} (d : dict V) (k : string) (v : V) :
  NoDup (keys d) -> (k, v) ∈ d -> dict_lookup d k = Some v.
Proof.
  unfold dict_lookup. induction d as [|[k0 v0] d IH]; intros Hnd Hin.
  - inversion Hin.
  - cbn in *. apply NoDup_cons in Hnd as [Hk0 Hnd].
    apply elem_of_cons in Hin as [Heq|Hin].
    + injection Heq as -> ->. rewrite String.eqb_refl. reflexivity.
    + destruct (String.eqb_spec k0 k) as [->|Hne]; [|apply IH; assumption].
      exfalso. apply Hk0. apply list_elem_of_fmap. exists (k, v). auto.
Qed.

Lemma dict_lookup_Some_elem {V} (d : dict V) (k : string) (v : V) :
  dict_lookup d k = Some v -> (k, v) ∈ d.
Proof.
  unfold dict_lookup. induction d as [|[k0 v0] d IH]; cbn; [discriminate|].
  destruct (String.eqb_spec k0 k) as [->|Hne].
  - intros [= ->]. left.
  - intros Hl. right. apply IH. exact Hl.
Qed.

(** A loop that stores one entry per item builds the dict of the items. *)
Lemma for_each_dict_set {A V} (l : dict A) (f : string -> A -> V)
    (acc : dict V) :
  NoDup (keys l) ->
  exists d,
    for_each l (fun d kx => Ok (dict_set d (fst kx) (f (fst kx) (snd kx)))) acc
    = Ok d /\
    forall k, dict_get d k = match dict_lookup l k with
                             | Some x => Ok (f k x)
                             | None => dict_get acc k
                             end.
Proof.
  revert acc. induction l as [|[k0 x0] l IH]; intros acc Hnd.
  - exists acc. split; [reflexivity|]. intros k. reflexivity.
  - cbn in Hnd. apply NoDup_cons in Hnd as [Hk0 Hnd]. cbn.
    destruct (IH (dict_set acc k0 (f k0 x0)) Hnd) as (d & Hd & Hget).
    exists d. split; [exact Hd|]. intros k. rewrite Hget.
    unfold dict_lookup. cbn.
    destruct (String.eqb_spec k0 k) as [->|Hne].
    + destruct (dict_get l k) as [x|] eqn:E.
      * exfalso. apply Hk0. apply list_elem_of_fmap. exists (k, x).
        split; [reflexivity|]. apply dict_lookup_Some_elem.
        unfold dict_lookup. rewrite E. reflexivity.
      * rewrite dict_get_set, String.eqb_refl. reflexivity.
    + destruct (dict_get l k); [reflexivity|].
      rewrite dict_get_set.
      destruct (String.eqb_spec k0 k); [congruence|reflexivity].
Qed.

End PyFacts.

(** ** Facts about hexrd/imageseries/stats.py *)

Module StatsFacts.

Import Stats.

(** *** Row bands of [_chunk_ranges] *)

Lemma chunk_ranges_closed_form (R C i : Z) :
  C <> 0 ->
  _chunk_ranges R C i = Ok (chunk_start R C i, chunk_start R C (i + 1)).
Proof.
  intros HC. unfold _chunk_ranges, floordiv, pymod, chunk_start.
  destruct (Z.eqb_spec C 0) as [|_]; [contradiction|]. cbn.
  destruct (Z.ltb_spec i (R mod C)); do 2 f_equal; lia.
Qed.

Lemma chunk_start_0 (R C : Z) : 0 < C -> chunk_start R C 0 = 0.
Proof.
  intros HC. unfold chunk_start.
  pose proof (Z.mod_pos_bound R C HC). lia.
Qed.

Lemma chunk_start_last (R C : Z) : 0 < C -> chunk_start R C C = R.
Proof.
  intros HC. unfold chunk_start.
  pose proof (Z.mod_pos_bound R C HC).
  pose proof (Z.div_mod R C). lia.
Qed.

Lemma chunk_start_mono (R C i j : Z) :
  0 <= R -> 0 < C -> i <= j -> chunk_start R C i <= chunk_start R C j.
Proof.
  intros HR HC Hij. unfold chunk_start.
  assert (0 <= R / C) by (apply Z.div_pos; lia).
  assert (i * (R / C) <= j * (R / C)) by nia. lia.
Qed.

(** A row below the last boundary lies in some band. *)
Lemma chunk_start_covers (R C : Z) (n : nat) (row : Z) :
  0 <= R -> 0 < C ->
  0 <= row < chunk_start R C (Z.of_nat n) ->
  exists i, 0 <= i < Z.of_nat n /\
            chunk_start R C i <= row < chunk_start R C (i + 1).
Proof.
  intros HR HC. induction n as [|n IH]; intros Hrow.
  - rewrite chunk_start_0 in Hrow by lia. lia.
  - destruct (Z_lt_le_dec row (chunk_start R C (Z.of_nat n))) as [Hlt|Hge].
    + destruct IH as (i & Hi & Hb); [lia|]. exists i. split; [lia|exact Hb].
    + exists (Z.of_nat n). split; [lia|].
      replace (Z.of_nat n + 1) with (Z.of_nat (S n)) by lia. lia.
Qed.

(** C8: for R >= 1 rows and C >= 1 chunks, band i of [_chunk_ranges] has
    R//C rows plus one when i < R % C, starts at i*(size+1) when
    i < remainder and at i*size + remainder otherwise, and the C bands
    partition the rows [0, R): every row lies in exactly one band.  In
    particular [_chunk_ranges(10, 3, i)] is (0,4), (4,7), (7,10). *)
Theorem chunk_ranges_partition (R C : Z) (HR : 1 <= R) (HC : 1 <= C) :
  let size := R / C in
  let rem := R mod C in
  (forall i, 0 <= i < C ->
     exists r0 r1,
       _chunk_ranges R C i = Ok (r0, r1) /\
       r1 - r0 = size + (if i <? rem then 1 else 0) /\
       r0 = (if i <? rem then i * (size + 1) else i * size + rem)) /\
  (forall row, 0 <= row < R ->
     exists i r0 r1,
       0 <= i < C /\ _chunk_ranges R C i = Ok (r0, r1) /\ r0 <= row < r1 /\
       forall j s0 s1,
         0 <= j < C -> _chunk_ranges R C j = Ok (s0, s1) ->
         s0 <= row < s1 -> j = i) /\
  map (_chunk_ranges 10 3) [0; 1; 2] = [Ok (0, 4); Ok (4, 7); Ok (7, 10)].
Proof.
  intros size rem. split; [|split].
  - intros i Hi. eexists _, _. split; [apply chunk_ranges_closed_form; lia|].
    unfold chunk_start. fold size rem.
    destruct (Z.ltb_spec i rem); lia.
  - intros row Hrow.
    destruct (chunk_start_covers R C (Z.to_nat C) row) as (i & Hi & Hb);
      [lia|lia| |].
    { rewrite Z2Nat.id by lia. rewrite chunk_start_last by lia. lia. }
    exists i, (chunk_start R C i), (chunk_start R C (i + 1)).
    split; [lia|]. split; [apply chunk_ranges_closed_form; lia|].
    split; [exact Hb|].
    intros j s0 s1 Hj Hcr Hs.
    rewrite chunk_ranges_closed_form in Hcr by lia.
    injection Hcr as <- <-.
    destruct (Z.lt_trichotomy j i) as [Hlt|[->|Hgt]]; [|reflexivity|].
    + pose proof (chunk_start_mono R C (j + 1) i). lia.
    + pose proof (chunk_start_mono R C (i + 1) j). lia.
  - reflexivity.
Qed.

Lemma chunk_ranges_partition_witness :
  exists r0 r1, _chunk_ranges 7 2 1 = Ok (r0, r1) /\ r1 - r0 = 3 /\ r0 = 4.
Proof.
  destruct (chunk_ranges_partition 7 2 ltac:(lia) ltac:(lia)) as (H & _ & _).
  destruct (H 1 ltac:(lia)) as (r0 & r1 & H1 & H2 & H3).
  exists r0, r1. repeat split; assumption.
Defined.

(** *** [max] and the requested number of frames *)

(** [_nframes] clamps a positive request to the length of the series. *)
Lemma nframes_clamped (ims : imageseries) (k : Z) :
  0 < k -> _nframes ims k = Z.min (len ims) k.
Proof.
  intros Hk. unfold _nframes. destruct (Z.ltb_spec 0 k); [reflexivity|lia].
Qed.

(** [_chunk_op] never reads the number of frames it is passed. *)
Lemma chunk_op_frame_count_unused op ims (nf nf' : Z) (chunk : chunk_t) :
  _chunk_op op ims nf chunk = _chunk_op op ims nf' chunk.
Proof. reflexivity. Qed.

Lemma max_chunk_frame_count_unused (B : Z) ims (chunk : chunk_t) (k : Z) :
  max B ims (Some chunk) k = max B ims (Some chunk) 0.
Proof. unfold max. apply chunk_op_frame_count_unused. Qed.

Lemma slice_maximum (r0 r1 : Z) (a b : image) :
  slice r0 r1 (maximum a b) = maximum (slice r0 r1 a) (slice r0 r1 b).
Proof. unfold slice, maximum. rewrite zip_with_drop, zip_with_take. reflexivity. Qed.

Lemma slice_fold_maximum (r0 r1 : Z) (fs : list image) (f : image) :
  slice r0 r1 (fold_left maximum fs f)
  = fold_left maximum (map (slice r0 r1) fs) (slice r0 r1 f).
Proof.
  revert f. induction fs as [|g fs IH]; intros f; [reflexivity|].
  cbn. rewrite IH, slice_maximum. reflexivity.
Qed.

Lemma length_fold_maximum (n : nat) (fs : list image) (f : image) :
  length f = n -> Forall (fun g : image => length g = n) fs ->
  length (fold_left maximum fs f) = n.
Proof.
  revert f. induction fs as [|g fs IH]; intros f Hf Hfs; [exact Hf|].
  apply Forall_cons in Hfs as [Hg Hfs]. cbn. apply IH; [|exact Hfs].
  unfold maximum. rewrite length_zip_with. lia.
Qed.

Lemma toarray_stack (fr : list image) (c i : nat) (acc : list image) :
  (i + c <= length fr)%nat ->
  for_each (seqZ (Z.of_nat i) (Z.of_nat c))
    (fun a j =>
       match fr !! Z.to_nat j with
       | Some f => Ok (a ++ [f])
       | None => Raise IndexError
       end) acc
  = Ok (acc ++ take c (drop i fr)).
Proof.
  revert i acc. induction c as [|c IH]; intros i acc Hlen.
  - cbn. rewrite app_nil_r. reflexivity.
  - rewrite seqZ_cons by lia. cbn [for_each].
    rewrite Nat2Z.id.
    destruct (lookup_lt_is_Some_2 fr i ltac:(lia)) as [f Hf].
    rewrite Hf. cbn [Py.bind].
    replace (Z.succ (Z.of_nat i)) with (Z.of_nat (S i)) by lia.
    replace (Z.pred (Z.of_nat (S c))) with (Z.of_nat c) by lia.
    rewrite IH by lia. rewrite (drop_S _ _ _ Hf). cbn.
    rewrite <- app_assoc. reflexivity.
Qed.

Lemma toarray_all (ims : imageseries) :
  _toarray ims (len ims) = Ok (frames ims).
Proof.
  unfold _toarray, len.
  pose proof (toarray_stack (frames ims) (length (frames ims)) 0 []
                ltac:(lia)) as H.
  change (Z.of_nat 0) with 0 in H. cbn [drop app] in H.
  rewrite firstn_all in H. exact H.
Qed.

Lemma slice_columns_id (nc : Z) (f : image) :
  Forall (fun row : list Z => length row = Z.to_nat nc) f ->
  map (slice 0 nc) f = f.
Proof.
  intros Hf. induction Hf as [|row f Hrow _ IH]; [reflexivity|].
  cbn. rewrite IH. f_equal. unfold slice. cbn.
  rewrite Z.sub_0_r. apply take_ge. lia.
Qed.

Lemma PIS_rectangle_frames (ims : imageseries) (r0 r1 : Z) :
  well_shaped ims ->
  frames (PIS_rectangle ims r0 r1 (snd (shape ims)))
  = map (slice r0 r1) (frames ims).
Proof.
  intros Hws. unfold PIS_rectangle. cbn [frames].
  apply map_ext_in. intros f Hin. apply slice_columns_id.
  pose proof (ws_cols _ Hws) as Hc. rewrite List.Forall_forall in Hc.
  specialize (Hc f Hin). unfold slice.
  apply Forall_take, Forall_drop. exact Hc.
Qed.

Lemma PIS_rectangle_len (ims : imageseries) (r0 r1 nc : Z) :
  len (PIS_rectangle ims r0 r1 nc) = len ims.
Proof. unfold len, PIS_rectangle. cbn. rewrite length_map. reflexivity. Qed.

(** One chunk writes its band of the maximum over all the frames. *)
Lemma chunk_op_band (ims : imageseries) (nf i n : Z) (img : image)
    (f : image) (fs : list image) :
  well_shaped ims -> frames ims = f :: fs ->
  0 <= i < n -> length img = Z.to_nat (fst (shape ims)) ->
  let r0 := chunk_start (fst (shape ims)) n i in
  let r1 := chunk_start (fst (shape ims)) n (i + 1) in
  _chunk_op np_max ims nf (i, n, img)
  = Ok (take (Z.to_nat r0) img ++ slice r0 r1 (full_max f fs)
        ++ drop (Z.to_nat r1) img).
Proof.
  intros Hws Hfr Hi Himg r0 r1. unfold _chunk_op, mbind, result_bind.
  destruct (shape ims) as [nr nc] eqn:Esh. cbn [fst snd] in *.
  pose proof (ws_nr _ Hws) as Hnr. rewrite Esh in Hnr. cbn in Hnr.
  rewrite chunk_ranges_closed_form by lia. cbn [Py.bind].
  fold r0 r1.
  assert (H0 : 0 <= r0) by
    (unfold r0; rewrite <- (chunk_start_0 nr n) by lia;
     apply chunk_start_mono; lia).
  assert (H01 : r0 <= r1) by (apply chunk_start_mono; lia).
  assert (H1 : r1 <= nr) by
    (unfold r1; rewrite <- (chunk_start_last nr n) at 2 by lia;
     apply chunk_start_mono; lia).
  pose proof (PIS_rectangle_frames ims r0 r1 Hws) as Hp.
  rewrite Esh in Hp. cbn [snd] in Hp.
  rewrite <- (PIS_rectangle_len ims r0 r1 nc), toarray_all. cbn [Py.bind].
  rewrite Hp, Hfr. cbn [map np_max Py.bind].
  rewrite <- slice_fold_maximum. fold (full_max f fs).
  assert (HM : length (full_max f fs) = Z.to_nat nr).
  { pose proof (ws_rows _ Hws) as Hr. rewrite Hfr, Esh in Hr. cbn in Hr.
    apply Forall_cons in Hr as [Hf Hfs].
    apply length_fold_maximum; assumption. }
  unfold set_rows.
  assert (Hl : forall a : image, length a = Z.to_nat nr ->
                 length (slice r0 r1 a) = Z.to_nat (r1 - r0)).
  { intros a Ha. unfold slice. rewrite length_take, length_drop. lia. }
  rewrite (Hl img Himg), (Hl _ HM), Nat.eqb_refl.
  replace (Z.to_nat r0 + Z.to_nat (r1 - r0))%nat with (Z.to_nat r1) by lia.
  reflexivity.
Qed.

(** Chunks [i], [i+1], ... of [n] turn an image that holds the maximum
    above row [chunk_start i] into the maximum. *)
Lemma chunk_loop (ims : imageseries) (nf n : Z) (f : image) (fs : list image)
    (c : nat) (i : Z) (img0 : image) :
  well_shaped ims -> frames ims = f :: fs ->
  0 <= i -> i + Z.of_nat c = n ->
  length img0 = Z.to_nat (fst (shape ims)) ->
  let Mx := full_max f fs in
  let at_row (k : Z) :=
    take (Z.to_nat (chunk_start (fst (shape ims)) n k)) Mx
    ++ drop (Z.to_nat (chunk_start (fst (shape ims)) n k)) img0 in
  for_each (seqZ i (Z.of_nat c))
    (fun img j => _chunk_op np_max ims nf (j, n, img)) (at_row i)
  = Ok (at_row n).
Proof.
  intros Hws Hfr Hi Hic Himg Mx at_row.
  pose proof (ws_nr _ Hws) as Hnr.
  assert (HM : length Mx = Z.to_nat (fst (shape ims))).
  { pose proof (ws_rows _ Hws) as Hr. rewrite Hfr in Hr.
    apply Forall_cons in Hr as [Hf Hfs].
    apply length_fold_maximum; assumption. }
  revert i Hi Hic. induction c as [|c IH]; intros i Hi Hic.
  - cbn. replace i with n by lia. reflexivity.
  - rewrite seqZ_cons by lia. cbn [for_each].
    set (nr := fst (shape ims)) in *.
    assert (H0 : 0 <= chunk_start nr n i) by
      (rewrite <- (chunk_start_0 nr n) by lia; apply chunk_start_mono; lia).
    assert (H01 : chunk_start nr n i <= chunk_start nr n (i + 1))
      by (apply chunk_start_mono; lia).
    assert (H1 : chunk_start nr n (i + 1) <= nr) by
      (rewrite <- (chunk_start_last nr n) at 2 by lia;
       apply chunk_start_mono; lia).
    rewrite (chunk_op_band ims nf i n (at_row i) f fs Hws Hfr) by
      (try lia; unfold at_row; rewrite length_app, length_take, length_drop;
       fold nr; lia).
    cbn [Py.bind]. fold nr. fold Mx.
    replace (take (Z.to_nat (chunk_start nr n i)) (at_row i)
             ++ slice (chunk_start nr n i) (chunk_start nr n (i + 1)) Mx
             ++ drop (Z.to_nat (chunk_start nr n (i + 1))) (at_row i))
      with (at_row (Z.succ i)).
    + replace (Z.pred (Z.of_nat (S c))) with (Z.of_nat c) by lia.
      apply IH; lia.
    + unfold at_row, slice. replace (Z.succ i) with (i + 1) by lia.
      set (a := chunk_start nr n i) in *.
      set (b := chunk_start nr n (i + 1)) in *.
      rewrite take_app_le by (rewrite length_take; lia).
      rewrite take_take. replace (Z.to_nat a `min` Z.to_nat a)%nat
        with (Z.to_nat a) by lia.
      rewrite drop_app_ge by (rewrite length_take; lia).
      rewrite length_take, drop_drop.
      replace (Z.to_nat a + (Z.to_nat b - Z.to_nat a `min` length Mx))%nat
        with (Z.to_nat b) by lia.
      rewrite app_assoc. f_equal.
      replace (Z.to_nat b) with (Z.to_nat a + Z.to_nat (b - a))%nat at 1
        by lia.
      symmetry. apply take_take_drop.
Qed.

Lemma nframes_nonneg (ims : imageseries) (k : Z) : 0 <= _nframes ims k.
Proof. unfold _nframes, len. destruct (0 <? k) eqn:E; lia. Qed.

(** Whatever frame count is asked for, [max] returns the per-pixel maximum
    over all the frames of the series: on the auto-chunked path, and on
    the path of an explicit chunk descriptor that covers the image. *)
Theorem max_over_all_frames (B : Z) (ims : imageseries) (k : Z) :
  0 < B -> well_shaped ims -> frames ims <> [] ->
  max B ims None k = np_max (frames ims) /\
  forall img : image, length img = Z.to_nat (fst (shape ims)) ->
    max B ims (Some (0, 1, img)) k = np_max (frames ims).
Proof.
  intros HB Hws Hne.
  destruct (frames ims) as [|f fs] eqn:Hfr; [contradiction|]. clear Hne.
  pose proof (ws_nr _ Hws) as Hnr. pose proof (ws_nc _ Hws) as Hnc.
  pose proof (ws_itemsize _ Hws) as Hsz.
  assert (HM : length (full_max f fs) = Z.to_nat (fst (shape ims))).
  { pose proof (ws_rows _ Hws) as Hr. rewrite Hfr in Hr.
    apply Forall_cons in Hr as [Hf Hfs].
    apply length_fold_maximum; assumption. }
  cbn [np_max]. fold (full_max f fs). split.
  - unfold max. destruct (shape ims) as [nr nc] eqn:Esh. cbn [fst snd] in *.
    unfold floordiv. destruct (Z.eqb_spec B 0) as [|_]; [lia|].
    unfold mbind, result_bind. cbn [Py.bind].
    set (n := 1 + _nframes ims k * nr * nc * itemsize ims / B).
    assert (Hn : 1 <= n).
    { pose proof (nframes_nonneg ims k).
      assert (0 <= _nframes ims k * nr * nc * itemsize ims)
        by (repeat apply Z.mul_nonneg_nonneg; lia).
      assert (0 <= _nframes ims k * nr * nc * itemsize ims / B)
        by (apply Z.div_pos; lia).
      lia. }
    pose proof (chunk_loop ims (_nframes ims k) n f fs (Z.to_nat n) 0
                  (zeros nr nc) Hws Hfr ltac:(lia) ltac:(lia)) as Hloop.
    rewrite Esh in Hloop. cbn [fst] in Hloop.
    specialize (Hloop ltac:(unfold zeros; rewrite length_replicate; lia)).
    cbn zeta in Hloop.
    rewrite chunk_start_0, chunk_start_last in Hloop by lia.
    change (Z.to_nat 0) with 0%nat in Hloop.
    rewrite take_0, drop_0 in Hloop. cbn [app] in Hloop.
    rewrite Z2Nat.id in Hloop by lia. rewrite Hloop. f_equal.
    rewrite take_ge by lia. rewrite drop_ge, app_nil_r; [reflexivity|].
    unfold zeros. rewrite length_replicate. lia.
  - intros img Himg.
    change (max B ims (Some (0, 1, img)) k)
      with (_chunk_op np_max ims (_nframes ims k) (0, 1, img)).
    rewrite (chunk_op_band ims (_nframes ims k) 0 1 img f fs Hws Hfr)
      by (try lia; exact Himg).
    rewrite chunk_start_0 by lia.
    replace (0 + 1) with 1 by lia. rewrite chunk_start_last by lia.
    f_equal. unfold slice. rewrite Z.sub_0_r.
    change (Z.to_nat 0) with 0%nat. rewrite take_0, drop_0. cbn [app].
    rewrite take_ge by lia. rewrite drop_ge by lia. apply app_nil_r.
Qed.

(** C1, on the series [two_frames] with frame_count 1: the frame count
    resolves to 1 and the maximum of the first frame is [[1]], which the
    frame-by-frame [_old_max] returns; [max] returns [[5]], the maximum over
    both frames, on the auto-chunked path and on the explicit chunk
    descriptor path alike. *)
Theorem max_reads_every_frame :
  _nframes two_frames 1 = 1 /\
  max_of_first 1 two_frames = Ok [[1]] /\
  _old_max two_frames 1 = Ok [[1]] /\
  max (2 ^ 30) two_frames None 1 = Ok [[5]] /\
  max (2 ^ 30) two_frames (Some (0, 1, zeros 1 1)) 1 = Ok [[5]].
Proof. repeat split; vm_compute; reflexivity. Qed.

(** *** The row bands that drive [percentile] *)

Lemma rows_in_buffer_pos (B ncol rsize : Z) :
  0 < B -> 0 < rsize ->
  exists m, _rows_in_buffer B ncol rsize = Ok m /\ 1 <= m.
Proof.
  intros HB Hr. unfold _rows_in_buffer.
  destruct (Z.eqb_spec rsize 0) as [|_]; [lia|].
  eexists. split; [reflexivity|].
  set (q := (inject_Z B / inject_Z rsize)%Q).
  assert (Hq : (0 < q)%Q).
  { unfold q. apply Qlt_shift_div_l.
    - change (inject_Z 0 < inject_Z rsize)%Q. rewrite <- Zlt_Qlt. exact Hr.
    - rewrite Qmult_0_l. change (inject_Z 0 < inject_Z B)%Q.
      rewrite <- Zlt_Qlt. exact HB. }
  pose proof (Qle_ceiling q) as Hc.
  assert (Hz : (inject_Z 0 < inject_Z (Qceiling q))%Q)
    by (eapply Qlt_le_trans; [exact Hq|exact Hc]).
  rewrite <- Zlt_Qlt in Hz. lia.
Qed.

Lemma row_band_count_spec (n m j : Z) :
  1 <= m -> (j * m < n <-> j < row_band_count n m).
Proof.
  intros Hm. unfold row_band_count.
  pose proof (Z.div_mod (n + m - 1) m ltac:(lia)).
  pose proof (Z.mod_pos_bound (n + m - 1) m ltac:(lia)).
  split; intros; nia.
Qed.

Lemma row_ranges_from_closed_form (n m : Z) (fuel : nat) (j : Z) :
  1 <= m ->
  (Z.to_nat (row_band_count n m - j) < fuel)%nat ->
  _row_ranges_from fuel n m (j * m)
  = Some (map (row_band n m) (seqZ j (row_band_count n m - j))).
Proof.
  intros Hm. revert j. induction fuel as [|fuel IH]; intros j Hf; [lia|].
  cbn [_row_ranges_from].
  pose proof (row_band_count_spec n m j Hm) as Hc.
  destruct (Z.ltb_spec (j * m) n) as [Hlt|Hge].
  - apply Hc in Hlt.
    replace (j * m + m) with ((j + 1) * m) by lia.
    rewrite IH by lia.
    rewrite (seqZ_cons j) by lia. cbn. do 2 f_equal.
    + unfold row_band. destruct (Z.leb_spec ((j + 1) * m) n); f_equal; lia.
    + f_equal. f_equal; lia.
  - assert (row_band_count n m - j <= 0) by lia.
    rewrite seqZ_nil by lia. reflexivity.
Qed.

Lemma row_ranges_closed_form (n m : Z) :
  1 <= m ->
  _row_ranges (S (Z.to_nat (row_band_count n m))) n m
  = Some (map (row_band n m) (seqZ 0 (row_band_count n m))).
Proof.
  intros Hm. unfold _row_ranges.
  pose proof (row_ranges_from_closed_form n m
                (S (Z.to_nat (row_band_count n m))) 0 Hm) as H.
  rewrite Z.sub_0_r in H. apply H. lia.
Qed.

Lemma row_band_lookup (n m : Z) (k : nat) (a b : Z) :
  map (row_band n m) (seqZ 0 (row_band_count n m)) !! k = Some (a, b) ->
  Z.of_nat k < row_band_count n m /\
  a = Z.of_nat k * m /\ b = Z.min n ((Z.of_nat k + 1) * m).
Proof.
  rewrite list_lookup_fmap. intros H.
  destruct (seqZ 0 (row_band_count n m) !! k) as [x|] eqn:E; [|discriminate].
  apply lookup_seqZ in E as [-> Hk]. cbn in H. unfold row_band in H.
  injection H as <- <-. rewrite Z.add_0_l. auto.
Qed.

(** A loop that does not advance never ends: with [m = 0] and a row to
    visit, no amount of fuel is enough. *)
Lemma row_ranges_stuck (fuel : nat) (n : Z) :
  0 < n -> _row_ranges fuel n 0 = None.
Proof.
  intros Hn. unfold _row_ranges. induction fuel as [|fuel IH]; [reflexivity|].
  cbn [_row_ranges_from]. destruct (Z.ltb_spec 0 n); [|lia].
  rewrite Z.add_0_l, IH. reflexivity.
Qed.

(** [percentile] runs through its row bands and comes to an end, on a
    series with frames, columns and a positive item size. *)
Lemma percentile_bands_end (B : Z) (ims : imageseries) (k : Z) :
  0 < B -> frames ims <> [] -> 0 < snd (shape ims) -> 0 < itemsize ims ->
  0 <= k ->
  exists fuel bands, percentile_bands B fuel ims k = Ok (Some bands).
Proof.
  intros HB Hfr Hnc Hsz Hk. unfold percentile_bands.
  destruct (shape ims) as [nr nc]. cbn [snd] in Hnc.
  assert (Hnf : 0 < _nframes ims k).
  { unfold _nframes, len. destruct (frames ims); [contradiction|].
    cbn [length]. destruct (Z.ltb_spec 0 k); lia. }
  destruct (rows_in_buffer_pos B k (_nframes ims k * nc * itemsize ims) HB)
    as (m & Hm & Hm1).
  { repeat apply Z.mul_pos_pos; assumption. }
  eexists _, _. rewrite Hm. cbn.
  rewrite (row_ranges_closed_form nr m Hm1). reflexivity.
Qed.

(** C9: with a positive memory budget, every positive per-row byte size
    (also one above the budget) gives a rows-per-band value of at least 1,
    and with that value the row-range generator of [percentile] ends after
    finitely many bands (at most one per row), which are non-empty, at most
    that many rows high, and cover every row of [0, n) exactly once. *)
Theorem rows_in_buffer_progress (B ncol rsize n : Z)
    (HB : 0 < B) (Hr : 0 < rsize) :
  exists m,
    _rows_in_buffer B ncol rsize = Ok m /\ 1 <= m /\
    exists fuel bands,
      _row_ranges fuel n m = Some bands /\
      Z.of_nat (length bands) <= Z.max 0 n /\
      chained 0 bands (Z.max 0 n) /\
      Forall (fun ab => fst ab < snd ab <= fst ab + m) bands /\
      forall row, 0 <= row < n ->
        exists k a b,
          bands !! k = Some (a, b) /\ a <= row < b /\
          forall k' a' b',
            bands !! k' = Some (a', b') -> a' <= row < b' -> k' = k.
Proof.
  destruct (rows_in_buffer_pos B ncol rsize HB Hr) as (m & Hm & Hm1).
  exists m. split; [exact Hm|]. split; [exact Hm1|].
  exists (S (Z.to_nat (row_band_count n m))),
         (map (row_band n m) (seqZ 0 (row_band_count n m))).
  split; [apply row_ranges_closed_form; exact Hm1|].
  pose proof (row_band_count_spec n m) as Hc.
  assert (Hcnt : row_band_count n m <= Z.max 0 n).
  { destruct (Z_lt_le_dec (Z.max 0 n) (row_band_count n m)) as [Hlt|]; [|lia].
    apply Hc in Hlt; [|exact Hm1]. nia. }
  assert (Hcnt0 : 0 <= n -> 0 <= row_band_count n m).
  { intros. unfold row_band_count. apply Z.div_pos; lia. }
  split; [|split; [|split]].
  - rewrite length_map, length_seqZ. lia.
  - assert (Hgen : forall (c : nat) j, 0 <= j ->
              j + Z.of_nat c = Z.max j (row_band_count n m) ->
              chained (Z.min (Z.max 0 n) (j * m))
                (map (row_band n m) (seqZ j (Z.of_nat c))) (Z.max 0 n)).
    { induction c as [|c IH]; intros j Hj Hjc.
      - rewrite seqZ_nil by lia. cbn [map chained].
        assert (~ j < row_band_count n m) by lia.
        rewrite <- Hc in H by exact Hm1.
        assert (0 <= j * m) by (apply Z.mul_nonneg_nonneg; lia). lia.
      - rewrite seqZ_cons by lia. cbn [map chained row_band].
        assert (j < row_band_count n m) as Hjlt by lia.
        pose proof Hjlt as Hjn. rewrite <- Hc in Hjn by exact Hm1.
        assert (0 <= j * m) by (apply Z.mul_nonneg_nonneg; lia).
        assert (Z.succ j * m = j * m + m) as Hs by lia.
        replace ((j + 1) * m) with (j * m + m) by lia.
        split; [lia|]. split; [lia|].
        replace (Z.min n (j * m + m))
          with (Z.min (Z.max 0 n) (Z.succ j * m)) by lia.
        replace (Z.pred (Z.of_nat (S c))) with (Z.of_nat c) by lia.
        apply IH; lia. }
    specialize (Hgen (Z.to_nat (row_band_count n m)) 0 ltac:(lia)).
    rewrite Z.mul_0_l in Hgen.
    replace (Z.min (Z.max 0 n) 0) with 0 in Hgen by lia.
    destruct (Z_lt_le_dec n 0).
    + assert (row_band_count n m <= 0) by lia.
      rewrite seqZ_nil by lia. cbn. lia.
    + rewrite Z2Nat.id in Hgen by auto. apply Hgen. lia.
  - apply Forall_forall. intros [a b] Hin.
    apply list_elem_of_lookup in Hin as [k Hk].
    apply row_band_lookup in Hk as (Hk & -> & ->). cbn.
    apply Hc in Hk; [|exact Hm1]. nia.
  - intros row Hrow.
    assert (Hq : row / m * m <= row < (row / m + 1) * m).
    { pose proof (Z.div_mod row m ltac:(lia)).
      pose proof (Z.mod_pos_bound row m ltac:(lia)). nia. }
    assert (0 <= row / m) by (apply Z.div_pos; lia).
    assert (Hk : row / m < row_band_count n m) by (apply Hc; [exact Hm1|nia]).
    exists (Z.to_nat (row / m)), (row / m * m), (Z.min n ((row / m + 1) * m)).
    split; [|split; [lia|]].
    + rewrite list_lookup_fmap.
      rewrite (lookup_seqZ_lt _ _ _) by lia. cbn. unfold row_band.
      rewrite Z2Nat.id by lia. rewrite Z.add_0_l. reflexivity.
    + intros k' a' b' Hl Hab.
      apply row_band_lookup in Hl as (Hk' & -> & ->).
      assert (Z.of_nat k' = row / m) by nia. lia.
Qed.

Lemma rows_in_buffer_progress_witness :
  exists m, _rows_in_buffer 1024 512 4096 = Ok m /\ 1 <= m /\
    exists fuel bands, _row_ranges fuel 3 m = Some bands /\
      Z.of_nat (length bands) <= 3.
Proof.
  destruct (rows_in_buffer_progress 1024 512 4096 3 ltac:(lia) ltac:(lia))
    as (m & H1 & H2 & fuel & bands & H3 & H4 & _).
  exists m. split; [exact H1|]. split; [exact H2|].
  exists fuel, bands. split; [exact H3|exact H4].
Defined.

End StatsFacts.


(** ** Facts about hexrd/config/material.py *)

Module MaterialFacts.

Import Material.

Local Open Scope string_scope.

(** *** The resolved path *)

Lemma definitions_absolute fs (cfg : config) :
  isabs (material_definitions cfg) = true ->
  fs (material_definitions cfg) = true ->
  definitions fs cfg = Ok (material_definitions cfg).
Proof.
  intros Habs Hex. unfold definitions. rewrite Habs. cbn. rewrite Hex.
  reflexivity.
Qed.

Lemma definitions_relative fs (cfg : config) :
  isabs (material_definitions cfg) = false ->
  fs (join (working_dir cfg) (material_definitions cfg)) = true ->
  definitions fs cfg
  = Ok (join (working_dir cfg) (material_definitions cfg)).
Proof.
  intros Habs Hex. unfold definitions. rewrite Habs. cbn. rewrite Hex.
  reflexivity.
Qed.

(** Whatever is configured, a missing file is reported with one and the
    same text. *)
Lemma definitions_missing fs (cfg : config) :
  fs (if isabs (material_definitions cfg) then material_definitions cfg
      else join (working_dir cfg) (material_definitions cfg)) = false ->
  definitions fs cfg = Raise (IOError not_exist_message).
Proof.
  intros Hex. unfold definitions.
  destruct (isabs (material_definitions cfg)); cbn in *; rewrite Hex;
    reflexivity.
Qed.

(** C5, at the configuration [cfg_relative] (path "materials.h5", working
    directory "/data") on a file system where the file is missing: the path
    resolves to "/data/materials.h5" and the accessor fails with the error
    of the missing file, but the message is the unformatted literal: it
    holds "%s" and names neither the configured value nor the resolved
    path. *)
Theorem definitions_message_unformatted :
  join (working_dir cfg_relative) (material_definitions cfg_relative)
  = "/data/materials.h5" /\
  definitions empty_fs cfg_relative = Raise (IOError not_exist_message) /\
  contains "%s" not_exist_message = true /\
  contains (material_definitions cfg_relative) not_exist_message = false /\
  contains "/data/materials.h5" not_exist_message = false.
Proof. repeat split; vm_compute; reflexivity. Qed.

End MaterialFacts.


(** ** Facts about hexrd/fitting/calibration/structureless.py *)

Module StructurelessFacts.

Import Structureless PyFacts.

Section Setters.

Context `{Collaborators}.

(** The rebuild never reads the parameters it replaces. *)
Lemma build_params_fresh (st : calibrator) (q : gmap string parameter) :
  build_params (with_params st q) = build_params st.
Proof. reflexivity. Qed.

Lemma make_lmfit_params_ok (st : calibrator) (p : gmap string parameter) :
  build_params st = Ok p ->
  make_lmfit_params st = Returns p (with_params st p).
Proof. intros Hb. unfold make_lmfit_params. rewrite Hb. reflexivity. Qed.

Lemma make_lmfit_params_raise (st : calibrator) (e : exn) :
  build_params st = Raise e -> make_lmfit_params st = Throws e st.
Proof. intros Hb. unfold make_lmfit_params. rewrite Hb. reflexivity. Qed.

Lemma set_engineering_constraints_same (st : calibrator) :
  set_engineering_constraints (_engineering_constraints st) st = Returns tt st.
Proof.
  unfold set_engineering_constraints.
  rewrite bool_decide_eq_true_2 by reflexivity. reflexivity.
Qed.

Lemma set_engineering_constraints_valid (st : calibrator) (v : option string)
    (p : gmap string parameter) :
  v <> _engineering_constraints st -> v ∈ valid_settings ->
  build_params (with_engineering_constraints st v) = Ok p ->
  set_engineering_constraints v st
  = Returns tt (with_params (with_engineering_constraints st v) p).
Proof.
  intros Hne Hv Hb. unfold set_engineering_constraints.
  rewrite bool_decide_eq_false_2 by exact Hne.
  rewrite bool_decide_eq_true_2 by exact Hv.
  rewrite (make_lmfit_params_ok _ p Hb). reflexivity.
Qed.

Lemma set_engineering_constraints_invalid (st : calibrator) (v : option string) :
  v <> _engineering_constraints st -> v ∉ valid_settings ->
  set_engineering_constraints v st = Throws TypeError st.
Proof.
  intros Hne Hv. unfold set_engineering_constraints.
  rewrite bool_decide_eq_false_2 by exact Hne.
  rewrite bool_decide_eq_false_2 by exact Hv. reflexivity.
Qed.

(** C3, as the setter has it: a value equal to the tag already held is
    accepted without any check; a different value that is absent, the
    string None or TARDIS is stored and the parameters rebuilt (given that
    the rebuild of the parameters returns); any other different value fails
    and leaves the calibrator as it was. *)
Theorem engineering_constraints_validation (st : calibrator)
    (v : option string) :
  (v = _engineering_constraints st ->
   set_engineering_constraints v st = Returns tt st) /\
  (v <> _engineering_constraints st ->
   v = None \/ v = Some "None"%string \/ v = Some "TARDIS"%string ->
   forall p, build_params (with_engineering_constraints st v) = Ok p ->
     set_engineering_constraints v st
     = Returns tt (with_params (with_engineering_constraints st v) p)) /\
  (v <> _engineering_constraints st ->
   v <> None -> v <> Some "None"%string -> v <> Some "TARDIS"%string ->
   exists e, set_engineering_constraints v st = Throws e st).
Proof.
  split; [|split].
  - intros ->. apply set_engineering_constraints_same.
  - intros Hne Hv p Hb. apply set_engineering_constraints_valid; auto.
    unfold valid_settings. rewrite !elem_of_cons. tauto.
  - intros Hne H1 H2 H3. exists TypeError.
    apply set_engineering_constraints_invalid; [exact Hne|].
    unfold valid_settings. rewrite !elem_of_cons, elem_of_nil. tauto.
Qed.

Lemma set_instr_cases (ins : instrument) (st : calibrator) :
  set_instr ins st
  = match build_params (with_instr st ins) with
    | Ok p => Returns tt (with_params (with_instr st ins) p)
    | Raise e => Throws e (with_instr st ins)
    end.
Proof.
  unfold set_instr, make_lmfit_params.
  destruct (build_params (with_instr st ins)); reflexivity.
Qed.

Lemma set_data_cases (dat : dataset) (st : calibrator) :
  set_data dat st
  = match build_params (with_data st dat) with
    | Ok p => Returns tt (with_params (with_data st dat) p)
    | Raise e => Throws e (with_data st dat)
    end.
Proof.
  unfold set_data, make_lmfit_params.
  destruct (build_params (with_data st dat)); reflexivity.
Qed.

Lemma set_engineering_constraints_cases (v : option string) (st : calibrator) :
  v <> _engineering_constraints st -> v ∈ valid_settings ->
  set_engineering_constraints v st
  = match build_params (with_engineering_constraints st v) with
    | Ok p => Returns tt (with_params (with_engineering_constraints st v) p)
    | Raise e => Throws e (with_engineering_constraints st v)
    end.
Proof.
  intros Hne Hv. unfold set_engineering_constraints, make_lmfit_params.
  rewrite bool_decide_eq_false_2 by exact Hne.
  rewrite bool_decide_eq_true_2 by exact Hv.
  destruct (build_params (with_engineering_constraints st v)); reflexivity.
Qed.

Lemma calc_residual_state (p : gmap string parameter) (st : calibrator) :
  state_after (calc_residual p st)
  = with_instr st
      (update_instrument_from_params (_instr st) p (euler_convention st)).
Proof.
  unfold calc_residual.
  destruct (residual_blocks _ p ≫= np_hstack); reflexivity.
Qed.

(** C4, as the setters have it.  Assigning the instrument or the dataset
    stores the new value and then rebuilds; so does assigning a valid
    constraint tag that differs from the one held, while assigning the tag
    already held returns at once and an invalid tag raises, both keeping
    the calibrator as it is.  When the rebuild returns, its result
    replaces the collection held before, of which nothing is read: the
    rebuild is the same whatever collection is held and whatever the
    distortion objects are, and so is the outcome of the assignment.  When
    the rebuild raises, the new value is stored and the collection held
    before stays.  The rebuild reads the instrument, into which an
    evaluation of the residual, returning or raising, has written its
    trial values. *)
Theorem reassignment_rebuilds (st : calibrator) :
  let rebuilt (st' : calibrator) (o : outcome unit) :=
    match build_params st' with
    | Ok p => o = Returns tt (with_params st' p)
    | Raise e => o = Throws e st' /\ params st' = params st
    end in
  (forall ins, rebuilt (with_instr st ins) (set_instr ins st)) /\
  (forall dat, rebuilt (with_data st dat) (set_data dat st)) /\
  (forall v, v <> _engineering_constraints st -> v ∈ valid_settings ->
     rebuilt (with_engineering_constraints st v)
       (set_engineering_constraints v st)) /\
  set_engineering_constraints (_engineering_constraints st) st
  = Returns tt st /\
  (forall q td,
     build_params (with_tth_distortion (with_params st q) td)
     = build_params st) /\
  (forall q ins, returned (set_instr ins st) = true ->
     set_instr ins (with_params st q) = set_instr ins st) /\
  (forall q dat, returned (set_data dat st) = true ->
     set_data dat (with_params st q) = set_data dat st) /\
  (forall q v, v <> _engineering_constraints st ->
     returned (set_engineering_constraints v st) = true ->
     set_engineering_constraints v (with_params st q)
     = set_engineering_constraints v st) /\
  (forall v, v <> _engineering_constraints st -> v ∉ valid_settings ->
     exists e, set_engineering_constraints v st = Throws e st) /\
  (forall p,
     state_after (calc_residual p st)
     = with_instr st
         (update_instrument_from_params (_instr st) p
            (euler_convention st))).
Proof.
  intros rebuilt. unfold rebuilt.
  split; [|split; [|split; [|split; [|split; [|split; [|split; [|split;
    [|split]]]]]]]].
  - intros ins. rewrite set_instr_cases.
    destruct (build_params (with_instr st ins)); [reflexivity|].
    split; reflexivity.
  - intros dat. rewrite set_data_cases.
    destruct (build_params (with_data st dat)); [reflexivity|].
    split; reflexivity.
  - intros v Hne Hv. rewrite (set_engineering_constraints_cases v st Hne Hv).
    destruct (build_params (with_engineering_constraints st v));
      [reflexivity|]. split; reflexivity.
  - apply set_engineering_constraints_same.
  - intros q td. reflexivity.
  - intros q ins. rewrite !set_instr_cases.
    change (build_params (with_instr (with_params st q) ins))
      with (build_params (with_instr st ins)).
    destruct (build_params (with_instr st ins)); [reflexivity|discriminate].
  - intros q dat. rewrite !set_data_cases.
    change (build_params (with_data (with_params st q) dat))
      with (build_params (with_data st dat)).
    destruct (build_params (with_data st dat)); [reflexivity|discriminate].
  - intros q v Hne.
    unfold set_engineering_constraints, make_lmfit_params.
    cbn [_engineering_constraints with_params].
    rewrite bool_decide_eq_false_2 by exact Hne.
    destruct (bool_decide (v ∈ valid_settings)); [|discriminate].
    change (build_params (with_engineering_constraints (with_params st q) v))
      with (build_params (with_engineering_constraints st v)).
    destruct (build_params (with_engineering_constraints st v));
      [reflexivity|discriminate].
  - intros v Hne Hv. exists TypeError.
    apply set_engineering_constraints_invalid; assumption.
  - intros p. apply calc_residual_state.
Qed.
End Setters.

Section Residual.

Context `{Collaborators}.
Variable st : calibrator.
Variable params : gmap string parameter.
Variable tth : string -> nat -> num.
Hypothesis WF : well_formed st params tth.

Lemma ring_item_detector xs rings (rng : ring) det meas_xy :
  (xs, rings) ∈ _data st -> rng ∈ rings -> (det, meas_xy) ∈ rng ->
  det ∈ detectors (_instr st).
Proof.
  intros Hd Hr Hi. eapply (wf_ring_detectors _ _ _ WF); eauto.
  apply list_elem_of_fmap. exists (det, meas_xy). auto.
Qed.

Lemma ring_angles_get xs rings (rng : ring) :
  (xs, rings) ∈ _data st -> rng ∈ rings ->
  exists d,
    ring_angles st xs rng = Ok d /\
    forall det, det ∈ detectors (_instr st) ->
      dict_get d det
      = Ok (cart_to_angles (_instr st) xs det <$> dict_lookup rng det).
Proof.
  intros Hd Hr.
  destruct (for_each_dict_set rng
              (fun k x => Some (cart_to_angles (_instr st) xs k x))
              (fromkeys (detectors (_instr st))))
    as (d & Hfe & Hget).
  { eapply (wf_ring_keys _ _ _ WF); eauto. }
  exists d. split.
  - unfold ring_angles. etrans; [|exact Hfe]. apply for_each_ext.
    intros s [det xy] Hin. cbn.
    rewrite bool_decide_eq_true_2; [reflexivity|].
    eapply ring_item_detector; eauto.
  - intros det Hdet. rewrite Hget.
    destruct (dict_lookup rng det); cbn; [reflexivity|].
    apply dict_get_fromkeys. exact Hdet.
Qed.

Lemma ring_correction_get xs rings (rng : ring) :
  (xs, rings) ∈ _data st -> rng ∈ rings ->
  exists d,
    ring_correction st xs rng = Ok d /\
    forall det, det ∈ detectors (_instr st) ->
      dict_get d det = Ok (dict_lookup rng det ≫= corr_of st xs det).
Proof.
  intros Hd Hr. unfold ring_correction, corr_of.
  destruct (_tth_distortion st) as [td|] eqn:Etd.
  - destruct (for_each_dict_set rng
                (fun k x =>
                   match dict_lookup td k with
                   | Some sd =>
                       Some (map fst (distortion_apply sd (_instr st) xs x))
                   | None => None
                   end)
                (fromkeys (detectors (_instr st))))
      as (d & Hfe & Hget).
    { eapply (wf_ring_keys _ _ _ WF); eauto. }
    exists d. split.
    + etrans; [|exact Hfe]. apply for_each_ext.
      intros s [det xy] Hin. cbn.
      destruct (wf_distortion _ _ _ WF td xs rings rng det xy Etd Hd Hr Hin)
        as (sd & Hsd & _).
      unfold dict_lookup. rewrite Hsd. reflexivity.
    + intros det Hdet. rewrite Hget. cbn.
      destruct (dict_lookup rng det) as [xy|] eqn:E; cbn.
      * apply dict_lookup_Some_elem in E.
        destruct (wf_distortion _ _ _ WF td xs rings rng det xy Etd Hd Hr E)
          as (sd & Hsd & _).
        unfold dict_lookup. rewrite Hsd. reflexivity.
      * apply dict_get_fromkeys. exact Hdet.
  - eexists. split; [reflexivity|]. intros det Hdet.
    rewrite dict_get_fromkeys by exact Hdet. cbn.
    destruct (dict_lookup rng det); reflexivity.
Qed.

Lemma meas_angles_get :
  exists ma,
    meas_angles st = Ok ma /\
    forall xs rings, (xs, rings) ∈ _data st ->
      dict_get ma xs = Ok (map (fun rng => unwrap [] (ring_angles st xs rng)) rings).
Proof.
  destruct (for_each_dict_set (_data st)
              (fun xs rings =>
                 map (fun rng => unwrap [] (ring_angles st xs rng)) rings) [])
    as (ma & Hfe & Hget); [apply (wf_sources _ _ _ WF)|].
  exists ma. split.
  - unfold meas_angles. etrans; [|exact Hfe]. apply for_each_ext.
    intros s [xs rings] Hin. cbn.
    erewrite bind_ok; [reflexivity|].
    apply traverse_ok. intros rng Hr.
    destruct (ring_angles_get xs rings rng Hin Hr) as (d & -> & _).
    reflexivity.
  - intros xs rings Hin. rewrite Hget.
    rewrite (dict_lookup_elem _ _ _ (wf_sources _ _ _ WF) Hin). reflexivity.
Qed.

Lemma tth_correction_get :
  exists tc,
    tth_correction st = Ok tc /\
    forall xs rings, (xs, rings) ∈ _data st ->
      dict_get tc xs
      = Ok (map (fun rng => unwrap [] (ring_correction st xs rng)) rings).
Proof.
  destruct (for_each_dict_set (_data st)
              (fun xs rings =>
                 map (fun rng => unwrap [] (ring_correction st xs rng)) rings)
              [])
    as (tc & Hfe & Hget); [apply (wf_sources _ _ _ WF)|].
  exists tc. split.
  - unfold tth_correction. etrans; [|exact Hfe]. apply for_each_ext.
    intros s [xs rings] Hin. cbn.
    erewrite bind_ok; [reflexivity|].
    apply traverse_ok. intros rng Hr.
    destruct (ring_correction_get xs rings rng Hin Hr) as (d & -> & _).
    reflexivity.
  - intros xs rings Hin. rewrite Hget.
    rewrite (dict_lookup_elem _ _ _ (wf_sources _ _ _ WF) Hin). reflexivity.
Qed.

Lemma zip_with_sub_degrees (r : num) (a : array2) (corr : list num) :
  zip_with sub (map (fun t => sub t r) (map degrees (map fst a)))
    (map degrees corr)
  = zip_with (fun t c => sub (sub t r) (degrees c))
      (map (fun p => degrees (fst p)) a) corr.
Proof.
  revert corr. induction a as [|p a IH]; intros [|c corr]; cbn; try reflexivity.
  rewrite IH. reflexivity.
Qed.

Lemma isub_same_length (a b : list num) :
  length b = length a -> isub a b = Ok (zip_with sub a b).
Proof.
  intros Hl. unfold isub. rewrite (proj2 (Nat.eqb_eq _ _) Hl). reflexivity.
Qed.

(** One pass of the innermost loop adds the combination's contribution. *)
Lemma residual_of_detector_spec xs rings (ii : nat) (rng : ring) prefix :
  (xs, rings) ∈ _data st -> rings !! ii = Some rng ->
  dict_get (tth_parameter_prefixes (_instr st)) xs = Ok prefix ->
  forall s det, det ∈ detectors (_instr st) ->
    residual_of_detector params prefix ii
      (unwrap [] (ring_angles st xs rng))
      (unwrap [] (ring_correction st xs rng)) s det
    = Ok (s ++ contribution st (tth xs ii) xs rng det).
Proof.
  intros Hd Hii Hpre s det Hdet.
  assert (Hr : rng ∈ rings) by (eapply list_elem_of_lookup_2; eauto).
  destruct (ring_angles_get xs rings rng Hd Hr) as (da & -> & Hga).
  destruct (ring_correction_get xs rings rng Hd Hr) as (dc & -> & Hgc).
  cbn [unwrap]. unfold residual_of_detector, contribution.
  rewrite (Hga det Hdet), (Hgc det Hdet). cbn.
  destruct (dict_lookup rng det) as [xy|] eqn:E; cbn;
    [|rewrite app_nil_r; reflexivity].
  destruct (cart_to_angles (_instr st) xs det xy) as [|pt a] eqn:Ea;
    [rewrite app_nil_r; reflexivity|].
  destruct (wf_params _ _ _ WF xs rings ii prefix Hd) as (p & Hp & Hv);
    [eapply lookup_lt_Some; eauto|exact Hpre|].
  rewrite Hp, Hv. cbn.
  destruct (corr_of st xs det xy) as [corr|] eqn:Ec; cbn.
  - assert (Hlen : length corr = length (pt :: a)).
    { unfold corr_of in Ec.
      destruct (_tth_distortion st) as [td|] eqn:Etd; [|discriminate].
      cbn in Ec. apply dict_lookup_Some_elem in E.
      destruct (wf_distortion _ _ _ WF td xs rings rng det xy Etd Hd Hr E)
        as (sd & Hsd & Hl).
      unfold dict_lookup in Ec. rewrite Hsd in Ec. injection Ec as <-.
      rewrite length_map, Hl, Ea. reflexivity. }
    rewrite isub_same_length
      by (cbn [length] in *; rewrite !length_map; exact Hlen).
    cbn.
    do 3 f_equal.
    apply (zip_with_sub_degrees (tth xs ii) (pt :: a) corr).
  - rewrite !map_map. reflexivity.
Qed.

Lemma for_each_map {A B S} (phi : A -> B) (l : list A)
    (body : S -> B -> result S) (acc : S) :
  for_each (map phi l) body acc = for_each l (fun s x => body s (phi x)) acc.
Proof.
  revert acc. induction l as [|x l IH]; intros acc; [reflexivity|].
  cbn. destruct (body acc (phi x)); [|reflexivity]. cbn. apply IH.
Qed.

Lemma imap_zip_map {A B C D} (f : A -> B) (g : A -> C)
    (h : nat -> B * C -> D) (l : list A) :
  imap h (zip (map f l) (map g l)) = imap (fun i x => h i (f x, g x)) l.
Proof.
  revert h. induction l as [|x l IH]; intros h; [reflexivity|].
  cbn. f_equal. apply IH.
Qed.

Lemma enumerate_zip_map {A B C} (f : A -> B) (g : A -> C) (l : list A) :
  enumerate (zip (map f l) (map g l))
  = map (fun ir => (fst ir, (f (snd ir), g (snd ir)))) (enumerate l).
Proof.
  unfold enumerate. rewrite imap_zip_map.
  change (map ?phi ?l') with (phi <$> l'). rewrite fmap_imap. reflexivity.
Qed.

(** One pass of the loop over the sources adds the contributions of the
    source's rings, ring by ring and detector by detector. *)
Lemma residual_of_source_spec ma tc xs rings s :
  (xs, rings) ∈ _data st ->
  dict_get ma xs = Ok (map (fun rng => unwrap [] (ring_angles st xs rng)) rings) ->
  dict_get tc xs
  = Ok (map (fun rng => unwrap [] (ring_correction st xs rng)) rings) ->
  residual_of_source st params ma tc (tth_parameter_prefixes (_instr st)) s xs
  = Ok (s ++ concat (map (fun ir : nat * ring =>
              concat (map (contribution st (tth xs (fst ir)) xs (snd ir))
                        (detectors (_instr st))))
            (enumerate rings))).
Proof.
  intros Hd Hma Htc. unfold residual_of_source.
  destruct (wf_prefix _ _ _ WF xs rings Hd) as (prefix & Hpre).
  rewrite (bind_ok _ _ _ Hpre), (bind_ok _ _ _ Hma), (bind_ok _ _ _ Htc).
  rewrite enumerate_zip_map, for_each_map.
  apply for_each_append. intros s' [ii rng] Hin. cbn.
  apply elem_of_lookup_imap_1 in Hin as (i & y & Heq & Hl).
  injection Heq as -> ->.
  apply for_each_append. intros s'' det Hdet.
  eapply residual_of_detector_spec; eauto.
Qed.

Lemma residual_blocks_spec :
  residual_blocks st params = Ok (contributions st tth).
Proof.
  unfold residual_blocks.
  destruct meas_angles_get as (ma & -> & Hma).
  destruct tth_correction_get as (tc & -> & Htc). cbn.
  unfold keys. rewrite for_each_map.
  erewrite for_each_append; [reflexivity|].
  intros s [xs rings] Hin. cbn.
  apply residual_of_source_spec; auto.
Qed.

End Residual.

(** C2, as [calc_residual] has it, on a well-formed calibrator (after the
    trial values are pushed into the instrument): when some (X-ray source,
    ring, detector) combination has measured data, the residual is the
    concatenation, in the order source, ring index, detector, of one array
    per combination with non-empty data (measured two-theta in degrees
    minus the ring's fitted two-theta, minus the correction in degrees when
    there is one), combinations with absent or empty data adding nothing;
    when no combination has data, stacking the empty list fails. *)
Theorem calc_residual_contributions `{Collaborators} (st : calibrator)
    (params : gmap string parameter) (tth : string -> nat -> num) :
  let st' := with_instr st
               (update_instrument_from_params (_instr st) params
                  (euler_convention st)) in
  well_formed st' params tth ->
  calc_residual params st
  = match contributions st' tth with
    | [] => Throws ValueError st'
    | blocks => Returns (concat blocks) st'
    end.
Proof.
  intros st' WF. unfold calc_residual. fold st'.
  rewrite (residual_blocks_spec st' params tth WF).
  destruct (contributions st' tth); reflexivity.
Qed.

(** The string None is neither absent nor TARDIS, yet assigning it to a
    calibrator that holds no tag is accepted and stored; and a calibrator
    built with the tag foo (the constructor checks nothing) accepts foo
    again. *)
Lemma constraint_tag_counterexample :
  (Some "None"%string <> None /\ Some "None"%string <> Some "TARDIS"%string /\
   returned (set_engineering_constraints (Some "None"%string)
               (demo_init demo_data None)) = true /\
   _engineering_constraints
     (state_after (set_engineering_constraints (Some "None"%string)
                     (demo_init demo_data None)))
   = Some "None"%string) /\
  (Some "foo"%string <> None /\ Some "foo"%string <> Some "TARDIS"%string /\
   returned (set_engineering_constraints (Some "foo"%string)
               (demo_init demo_data (Some "foo"%string))) = true).
Proof.
  split.
  - split; [discriminate|]. split; [discriminate|].
    split; vm_compute; reflexivity.
  - split; [discriminate|]. split; [discriminate|].
    vm_compute; reflexivity.
Qed.

(** After a fit the two-theta parameter of ring 0 holds the fitted value 9,
    where a rebuild would seed it with 7.  Reassigning the tag the
    calibrator holds returns normally, and the parameter still holds 9.
    Assigning a dataset whose ring names the unknown detector det3 raises
    [KeyError]: the dataset is stored, and the parameter still holds 9.
    On the calibrator whose fitted panel translation 5 was written into the
    instrument, assigning the dataset again returns: the translation
    parameter holds the fitted 5, the two-theta parameter the seed 7. *)
Lemma fitted_tag_counterexample :
  (params demo_fitted !! "beam_tth_0"%string = Some 9%Z /\
   (unwrap ∅ (build_params demo_fitted)) !! "beam_tth_0"%string = Some 7%Z /\
   returned (set_engineering_constraints
               (_engineering_constraints demo_fitted) demo_fitted) = true /\
   params (state_after
             (set_engineering_constraints
                (_engineering_constraints demo_fitted) demo_fitted))
     !! "beam_tth_0"%string = Some 9%Z) /\
  (thrown (set_data StructurelessRun.demo_stray demo_fitted) = Some KeyError /\
   _data (state_after (set_data StructurelessRun.demo_stray demo_fitted))
   = StructurelessRun.demo_stray /\
   params (state_after (set_data StructurelessRun.demo_stray demo_fitted))
     !! "beam_tth_0"%string = Some 9%Z) /\
  (params demo_geometry_fitted !! "panel_tvec_x"%string = Some 5%Z /\
   params demo_geometry_fitted !! "beam_tth_0"%string = Some 9%Z /\
   returned (set_data demo_geometry_data demo_geometry_fitted) = true /\
   params (state_after (set_data demo_geometry_data demo_geometry_fitted))
     !! "panel_tvec_x"%string = Some 5%Z /\
   params (state_after (set_data demo_geometry_data demo_geometry_fitted))
     !! "beam_tth_0"%string = Some 7%Z).
Proof. repeat split; vm_compute; reflexivity. Qed.

Ltac split_elems :=
  repeat match goal with
         | H : _ ∈ _ :: _ |- _ => apply elem_of_cons in H as [H|H]
         | H : _ ∈ [] |- _ => inversion H
         | H : (_, _) = (_, _) |- _ => injection H as ? ?; subst
         | H : ?x = _ |- _ => is_var x; subst x
         end.

Ltac solve_nodup :=
  repeat (apply NoDup_cons; split;
          [rewrite ?elem_of_cons, elem_of_nil; intuition discriminate|]);
  apply NoDup_nil_2.

Lemma demo_cal_rebuilt : @build_params demo demo_cal = Ok demo_params.
Proof. vm_compute. reflexivity. Qed.

Lemma demo_cal_well_formed :
  @well_formed demo demo_cal (params demo_cal) demo_tth.
Proof.
  constructor.
  - cbn. solve_nodup.
  - intros xs rings rng Hd Hr.
    change (_data demo_cal) with demo_data in Hd. unfold demo_data in Hd.
    split_elems; cbn; solve_nodup.
  - intros xs rings rng det Hd Hr Hk.
    change (_data demo_cal) with demo_data in Hd. unfold demo_data in Hd.
    split_elems; cbn in Hk; split_elems; cbn; repeat constructor.
  - intros td xs rings rng det xy Htd Hd Hr Hi.
    change (_data demo_cal) with demo_data in Hd. unfold demo_data in Hd.
    cbn in Htd. injection Htd as <-.
    split_elems; eexists; (split; [reflexivity|reflexivity]).
  - intros xs rings Hd.
    change (_data demo_cal) with demo_data in Hd. unfold demo_data in Hd.
    split_elems. eexists. reflexivity.
  - intros xs rings ii prefix Hd Hii Hp.
    change (_data demo_cal) with demo_data in Hd. unfold demo_data in Hd.
    split_elems. cbn in Hp. injection Hp as <-. cbn in Hii.
    destruct ii as [|[|ii]]; [| |lia]; eexists;
      (split; [vm_compute; reflexivity|reflexivity]).
Qed.

Lemma calc_residual_contributions_witness :
  @calc_residual demo (params demo_cal) demo_cal
  = Returns [-7; 173; 172]%Z demo_cal.
Proof.
  rewrite (@calc_residual_contributions demo demo_cal (params demo_cal)
             demo_tth demo_cal_well_formed).
  reflexivity.
Defined.

(** On [demo_no_data] every combination is absent or empty, and the
    residual is not the empty vector: its evaluation raises. *)
Lemma calc_residual_no_data :
  @contributions demo (demo_init demo_no_data None) demo_tth = [] /\
  thrown (@calc_residual demo (params (demo_init demo_no_data None))
            (demo_init demo_no_data None))
  = Some ValueError.
Proof. split; vm_compute; reflexivity. Qed.

End StructurelessFacts.

(** ** Facts about hexrd/instrument/cylindrical_detector.py *)

Module CylindricalFacts.

Import Cylindrical.

Local Open Scope R_scope.

Lemma divide_nonzero (x y : R) : y <> 0 -> Np.divide x y = Some (x / y).
Proof.
  intros Hy. unfold Np.divide. destruct (Req_dec_T y 0); [contradiction|].
  reflexivity.
Qed.

Lemma divide_zero (x : R) : Np.divide x 0 = None.
Proof.
  unfold Np.divide. destruct (Req_dec_T 0 0); [reflexivity|contradiction].
Qed.

Lemma radius_panel_2x4 : radius panel_2x4 = 1.
Proof.
  unfold radius, panel_2x4, linalg_norm. cbn.
  replace (0 * 0 + 0 * 0 + 1 * 1) with 1 by lra. apply sqrt_1.
Qed.

Lemma angle_extent_cases (d : detector) :
  (radius d <> 0 ->
   angle_extent d = Some (IZR (cols d) * pixel_size_col d / radius d / 2)) /\
  (radius d = 0 -> angle_extent d = None).
Proof.
  split.
  - intros Hr. unfold angle_extent. cbn.
    rewrite (divide_nonzero _ _ Hr). cbn.
    apply divide_nonzero. lra.
  - intros Hr. unfold angle_extent. cbn. rewrite Hr, divide_zero.
    reflexivity.
Qed.

(** C7, as the properties have it: the radius is the Euclidean norm of the
    translation vector; the physical size is (rows * row pitch,
    cols * column pitch); the angular extent is the second of these, the
    extent across the columns, divided by the radius and by 2 (for a
    detector away from the origin; at radius 0 it is not a finite
    number). *)
Theorem derived_geometry (d : detector) :
  radius d
  = sqrt ((tvec d).1.1 ² + (tvec d).1.2 ² + (tvec d).2 ²) /\
  physical_size d
  = (IZR (rows d) * pixel_size_row d, IZR (cols d) * pixel_size_col d) /\
  (radius d <> 0 ->
   angle_extent d = Some (IZR (cols d) * pixel_size_col d / radius d / 2)) /\
  (radius d = 0 -> angle_extent d = None).
Proof.
  split; [|split; [reflexivity|apply angle_extent_cases]].
  unfold radius, linalg_norm. destruct (tvec d) as [[x y] z]. cbn.
  unfold Rsqr. reflexivity.
Qed.

(** On [panel_2x4] the physical size is (2, 4) and the radius 1: the
    angular extent is 4 / 1 / 2 = 2, and not the first entry of the physical
    size (rows * row pitch) over the radius over 2, which is 1. *)
Lemma angle_extent_not_rows :
  physical_size panel_2x4 = (IZR 2 * 1, IZR 4 * 1) /\
  angle_extent panel_2x4 = Some 2 /\
  angle_extent panel_2x4
  <> Some (fst (physical_size panel_2x4) / radius panel_2x4 / 2).
Proof.
  assert (He : angle_extent panel_2x4 = Some 2).
  { destruct (angle_extent_cases panel_2x4) as [H _].
    rewrite H by (rewrite radius_panel_2x4; lra).
    rewrite radius_panel_2x4. cbn. f_equal. lra. }
  split; [reflexivity|]. split; [exact He|].
  rewrite He, radius_panel_2x4. cbn. intros [= Heq]. lra.
Qed.

End CylindricalFacts.

(** ** Facts about hexrd/ipfcolor/sphere_sector.py *)

Module SphereSectorFacts.

Import SphereSector.

Local Open Scope R_scope.

(** *** The degeneracy epsilon and norms *)

Lemma eps_pos : 0 < eps.
Proof.
  unfold eps. apply sqrt_lt_R0. apply Rinv_0_lt_compat.
  apply pow_lt. lra.
Qed.

Lemma eps_lt_1 : eps < 1.
Proof.
  unfold eps. rewrite <- sqrt_1.
  assert (H : 1 < 2 ^ 52) by (apply Rlt_pow_R1; [lra|lia]).
  apply sqrt_lt_1.
  - left. apply Rinv_0_lt_compat. lra.
  - lra.
  - rewrite <- Rinv_1. apply Rinv_lt_contravar; lra.
Qed.

Lemma dot_self_nonneg (a : vec3) : 0 <= dot a a.
Proof. destruct a as [[x y] z]. cbn. nra. Qed.

Lemma norm_nonneg (a : vec3) : 0 <= norm a.
Proof. apply sqrt_pos. Qed.

Lemma norm_sqr (a : vec3) : norm a * norm a = dot a a.
Proof. apply sqrt_sqrt. apply dot_self_nonneg. Qed.

Lemma vdiv_1 (a : vec3) : vdiv a 1 = a.
Proof. destruct a as [[x y] z]. cbn. repeat f_equal; lra. Qed.

Lemma dot_vdiv (a : vec3) (n : R) :
  n <> 0 -> dot (vdiv a n) (vdiv a n) = dot a a / (n * n).
Proof. intros Hn. destruct a as [[x y] z]. cbn. field. exact Hn. Qed.

(** A row divided by its norm has norm 1. *)
Lemma norm_vdiv (a : vec3) : 0 < norm a -> norm (vdiv a (norm a)) = 1.
Proof.
  intros Hn. unfold norm at 1. rewrite dot_vdiv by lra.
  rewrite norm_sqr. unfold Rdiv. rewrite Rinv_r.
  - apply sqrt_1.
  - rewrite <- norm_sqr. nra.
Qed.

Lemma unit_row_above (r : vec3) :
  eps < norm r -> unit_row r = vdiv r (norm r) /\ norm (unit_row r) = 1.
Proof.
  intros Hr. unfold unit_row.
  destruct (Rgt_dec (norm r) eps) as [_|Hn]; [|exfalso; apply Hn; exact Hr].
  split; [reflexivity|]. apply norm_vdiv. pose proof eps_pos. lra.
Qed.


Lemma unit_row_of_unit (b : vec3) : norm b = 1 -> unit_row b = b.
Proof.
  intros Hb. destruct (unit_row_above b) as [-> _].
  - rewrite Hb. apply eps_lt_1.
  - rewrite Hb. apply vdiv_1.
Qed.



(** *** What the coloring calls leave behind *)

Section InPlace.

Variable np_dot : vec3 -> vec3 -> R.

Lemma calc_azi_rho_world (w : world) (ls : bool) :
  snd (calc_azi_rho np_dot w ls) = check_norm w.
Proof.
  unfold calc_azi_rho.
  destruct ls; cbn;
    destruct (negb (ntriangle (self w) =? 0)%Z); cbn;
    try destruct (col0 _); reflexivity.
Qed.

Lemma calc_pol_theta_world (w : world) (ls : bool) :
  snd (calc_pol_theta np_dot w ls) = check_norm w.
Proof.
  unfold calc_pol_theta. destruct (map _ (dir3 (check_norm w))); reflexivity.
Qed.





End InPlace.

(** *** The table and the sectors built from it *)

Lemma norm_pos_z (x y z : R) : 0 < z -> 0 < norm (x, y, z).
Proof.
  intros Hz. unfold norm. apply sqrt_lt_R0. cbn. nra.
Qed.

Lemma barycenter_of_unit (r1 r2 r3 : list R) :
  0 < sum r3 -> (0 < length r3)%nat ->
  exists b, barycenter_of [r1; r2; r3] = Ok b /\ norm b = 1.
Proof.
  intros Hs Hl. unfold barycenter_of. cbn [mean_axis1 map].
  eexists. split; [reflexivity|].
  apply norm_vdiv. unfold vec3_of. cbn [nth].
  apply norm_pos_z. apply Rdiv_lt_0_compat; [exact Hs|].
  apply lt_0_INR. exact Hl.
Qed.

Lemma inv_sqrt_pos (x : R) : 0 < x -> 0 < / sqrt x.
Proof. intros Hx. apply Rinv_0_lt_compat. apply sqrt_lt_R0. exact Hx. Qed.

Ltac entry_tac :=
  first
    [ left; split; reflexivity
    | right; split; [discriminate|]; split;
      [ eexists; reflexivity
      | cbv [e_vertices T transpose map nth seq length hd];
        apply barycenter_of_unit;
        [ cbv [sum fold_right];
          pose proof (inv_sqrt_pos 2 ltac:(lra));
          pose proof (inv_sqrt_pos 3 ltac:(lra));
          unfold Rdiv; lra
        | cbv [length]; lia ] ] ].

Lemma table_ok : Forall entry_ok (map snd pg2vertex).
Proof.
  unfold pg2vertex. cbn [map snd].
  repeat (apply List.Forall_cons; [entry_tac|]).
  apply List.Forall_nil.
Qed.

Lemma dict_get_entry_ok (sym : string) (e : entry) :
  dict_get pg2vertex sym = Ok e -> entry_ok e.
Proof.
  intros Hg.
  assert (Hin : (sym, e) ∈ pg2vertex).
  { apply PyFacts.dict_lookup_Some_elem. unfold dict_lookup. rewrite Hg.
    reflexivity. }
  pose proof table_ok as Ht. rewrite List.Forall_forall in Ht.
  apply Ht. apply list_elem_of_In. apply list_elem_of_fmap.
  exists (sym, e). split; [reflexivity|exact Hin].
Qed.

Lemma norm_001 : norm (0, 0, 1) = 1.
Proof.
  unfold norm. cbn. replace (0 * 0 + 0 * 0 + 1 * 1) with 1 by lra.
  apply sqrt_1.
Qed.

Lemma sector_init_ok (pgsym lauesym : string) (s : sector) :
  sector_init pgsym lauesym = Ok s -> sector_ok s.
Proof.
  unfold sector_init.
  destruct (dict_get pg2vertex pgsym) as [data|] eqn:Ed; [|discriminate].
  destruct (dict_get pg2vertex lauesym) as [dl|] eqn:El; [|discriminate].
  cbn. pose proof (dict_get_entry_ok _ _ Ed) as Hd.
  pose proof (dict_get_entry_ok _ _ El) as Hl.
  destruct (Z.eqb_spec (e_ntriangle data) 0) as [H0|Hn0]; cbn.
  - intros [= <-]. unfold sector_ok. cbn.
    rewrite norm_001. repeat split; try reflexivity; contradiction.
  - destruct Hd as [[H0 _]|(_ & Hrx & b & Hb & Hnb)]; [contradiction|].
    rewrite Hb. cbn.
    destruct Hl as [[_ Hv]|(_ & Hrxl & bl & Hbl & Hnbl)].
    + rewrite Hv. cbn. discriminate.
    + rewrite Hbl. cbn. intros [= <-]. unfold sector_ok. cbn.
      repeat split; auto; contradiction.
Qed.





Lemma lookup_map {A B} (f : A -> B) (l : list A) (i : nat) :
  map f l !! i = f <$> (l !! i).
Proof. apply (list_lookup_fmap f l i). Qed.

Lemma fold_left_Rmax_ge (ps : list R) (p : R) :
  p <= fold_left Rmax ps p /\
  forall x, In x ps -> x <= fold_left Rmax ps p.
Proof.
  revert p. induction ps as [|q ps IH]; intros p; cbn.
  - split; [lra|]. intros x [].
  - destruct (IH (Rmax p q)) as [H1 H2].
    pose proof (Rmax_l p q). pose proof (Rmax_r p q).
    split; [lra|]. intros x [<-|Hx]; [lra|]. apply H2. exact Hx.
Qed.

(** *** The arc cosine and the maximum of floats *)

Lemma np_arccos_in (x : R) : -1 <= x <= 1 -> np_arccos x = Some (acos x).
Proof.
  intros [H1 H2]. unfold np_arccos.
  destruct (Rle_dec (-1) x); [|contradiction].
  destruct (Rle_dec x 1); [reflexivity|contradiction].
Qed.

Lemma np_arccos_Some (x a : R) :
  np_arccos x = Some a -> -1 <= x <= 1 /\ a = acos x.
Proof.
  unfold np_arccos.
  destruct (Rle_dec (-1) x); [|discriminate].
  destruct (Rle_dec x 1); [|discriminate].
  intros [= <-]. auto.
Qed.


Lemma fold_nan_max_Some (ps : list R) (p : R) :
  fold_left nan_max (map Some ps) (Some p) = Some (fold_left Rmax ps p).
Proof.
  revert p. induction ps as [|q ps IH]; intros p; [reflexivity|].
  cbn [map fold_left]. apply IH.
Qed.

Section Barycenter.

Variable np_dot : vec3 -> vec3 -> R.






Lemma calc_azi_rho_eta (w : world) (ls : bool) :
  calc_azi_rho np_dot w ls = (fst (calc_azi_rho np_dot w ls), check_norm w).
Proof.
  rewrite <- (calc_azi_rho_world np_dot w ls). apply surjective_pairing.
Qed.

Lemma calc_pol_theta_eta (w : world) (ls : bool) :
  calc_pol_theta np_dot w ls
  = (fst (calc_pol_theta np_dot w ls), check_norm w).
Proof.
  rewrite <- (calc_pol_theta_world np_dot w ls). apply surjective_pairing.
Qed.

Lemma get_color_fst (w : world) (ls : bool) (rho theta : list (option R)) :
  fst (calc_azi_rho np_dot w ls) = Ok rho ->
  fst (calc_pol_theta np_dot (check_norm w) ls) = Ok theta ->
  fst (get_color np_dot w ls)
  = Ok (zip_with (fun h sl => (h, fst sl, snd sl))
          (map (option_map (fun r => r / 2 / PI)) rho)
          (zip (map (option_map saturation_of)
                  (map (option_map lightness_of) theta))
               (map (option_map lightness_of) theta))).
Proof.
  intros Hr Ht. unfold get_color, calc_hue, calc_lightness.
  rewrite calc_azi_rho_eta, Hr. cbn.
  rewrite calc_pol_theta_eta, Ht. reflexivity.
Qed.





End Barycenter.


Lemma sector_init_c1 : sector_init "c1" "ci" = Ok sector_c1.
Proof. reflexivity. Qed.

Lemma norm_100 : norm (1, 0, 0) = 1.
Proof.
  unfold norm. cbn. replace (1 * 1 + 0 * 0 + 0 * 0) with 1 by lra.
  apply sqrt_1.
Qed.





End SphereSectorFacts.
(** ** More facts about hexrd/imageseries/stats.py *)

Module StatsReductionsFacts.

Import Stats StatsReductions StatsFacts.

(** *** Loops over the frames *)

(** A loop that reads the frames [i], [i+1], ... folds them in order. *)
Lemma for_each_frames {St} (fr : list image) (g : St -> image -> St)
    (c i : nat) (acc : St) :
  (i + c <= length fr)%nat ->
  for_each (seqZ (Z.of_nat i) (Z.of_nat c))
    (fun a j =>
       match fr !! Z.to_nat j with
       | Some f => Ok (g a f)
       | None => Raise IndexError
       end) acc
  = Ok (fold_left g (take c (drop i fr)) acc).
Proof.
  revert i acc. induction c as [|c IH]; intros i acc Hlen; [reflexivity|].
  rewrite seqZ_cons by lia. cbn [for_each].
  rewrite Nat2Z.id.
  destruct (lookup_lt_is_Some_2 fr i ltac:(lia)) as [f Hf].
  rewrite Hf. cbn [Py.bind].
  replace (Z.succ (Z.of_nat i)) with (Z.of_nat (S i)) by lia.
  replace (Z.pred (Z.of_nat (S c))) with (Z.of_nat c) by lia.
  rewrite IH by lia. rewrite (drop_S _ _ _ Hf). reflexivity.
Qed.

(** A loop that runs past the last frame raises. *)
Lemma for_each_frames_past {St} (fr : list image) (g : St -> image -> St)
    (c i : nat) (acc : St) :
  (i <= length fr < i + c)%nat ->
  for_each (seqZ (Z.of_nat i) (Z.of_nat c))
    (fun a j =>
       match fr !! Z.to_nat j with
       | Some f => Ok (g a f)
       | None => Raise IndexError
       end) acc
  = Raise IndexError.
Proof.
  revert i acc. induction c as [|c IH]; intros i acc Hlen; [lia|].
  rewrite seqZ_cons by lia. cbn [for_each]. rewrite Nat2Z.id.
  destruct (fr !! i) as [f|] eqn:Hf; [|reflexivity].
  apply lookup_lt_Some in Hf. cbn [Py.bind].
  replace (Z.succ (Z.of_nat i)) with (Z.of_nat (S i)) by lia.
  replace (Z.pred (Z.of_nat (S c))) with (Z.of_nat c) by lia.
  apply IH. lia.
Qed.

Lemma nframes_bounds (ims : imageseries) (k : Z) :
  frames ims <> [] -> 1 <= _nframes ims k <= len ims.
Proof.
  intros Hne. unfold _nframes, len.
  destruct (frames ims); [contradiction|]. cbn [length].
  destruct (Z.ltb_spec 0 k); lia.
Qed.

Lemma nframes_le_len (ims : imageseries) (k : Z) :
  0 <= _nframes ims k <= len ims.
Proof. unfold _nframes, len. destruct (Z.ltb_spec 0 k); lia. Qed.

(** [_toarray] stacks the first [n] frames. *)
Lemma toarray_first (ims : imageseries) (n : Z) :
  0 <= n <= len ims ->
  _toarray ims n = Ok (take (Z.to_nat n) (frames ims)).
Proof.
  intros Hn. unfold _toarray, len in *.
  pose proof (toarray_stack (frames ims) (Z.to_nat n) 0 [] ltac:(lia)) as H.
  change (Z.of_nat 0) with 0 in H. rewrite Z2Nat.id in H by lia.
  rewrite drop_0 in H. exact H.
Qed.

(** X1: [_old_max] honours the frame count: on a series with frames it
    returns the per-pixel maximum of the first [_nframes] frames (all of
    them for a count of 0 or below, at most [len] of them otherwise); on a
    series without frames, [ims[0]] raises. *)
Theorem old_max_honours_frame_count (ims : imageseries) (k : Z) :
  _old_max ims k
  = match frames ims with
    | [] => Raise IndexError
    | _ => max_of_first (Z.to_nat (_nframes ims k)) ims
    end.
Proof.
  unfold _old_max, max_of_first.
  destruct (frames ims) as [|f0 fs] eqn:Hfr; [reflexivity|].
  pose proof (nframes_bounds ims k) as Hb. rewrite Hfr in Hb.
  specialize (Hb ltac:(discriminate)).
  unfold len in Hb. rewrite Hfr in Hb. cbn [length] in Hb.
  set (nf := _nframes ims k) in *.
  pose proof (for_each_frames (f0 :: fs) maximum (Z.to_nat (nf - 1)) 1 f0)
    as H.
  rewrite Z2Nat.id in H by lia. change (Z.of_nat 1) with 1 in H.
  rewrite H by (cbn [length]; lia).
  replace (Z.to_nat nf) with (S (Z.to_nat (nf - 1))) by lia.
  reflexivity.
Qed.

(** *** [max], chunk by chunk *)

Lemma chunk_start_bounds (nr n i : Z) :
  0 <= nr -> 0 <= i < n ->
  0 <= chunk_start nr n i <= chunk_start nr n (i + 1) /\
  chunk_start nr n (i + 1) <= nr.
Proof.
  intros Hnr Hi. split; [split|].
  - rewrite <- (chunk_start_0 nr n) by lia. apply chunk_start_mono; lia.
  - apply chunk_start_mono; lia.
  - rewrite <- (chunk_start_last nr n) at 2 by lia.
    apply chunk_start_mono; lia.
Qed.

(** The rows of an image whose rows [r0 .. r1-1] were replaced. *)
Lemma lookup_band {A} (img v : list A) (r0 r1 : Z) (r : nat) :
  0 <= r0 <= r1 -> (Z.to_nat r1 <= length img)%nat ->
  length v = Z.to_nat (r1 - r0) ->
  (take (Z.to_nat r0) img ++ v ++ drop (Z.to_nat r1) img) !! r
  = if bool_decide (r0 <= Z.of_nat r < r1) then v !! (r - Z.to_nat r0)%nat
    else img !! r.
Proof.
  intros H01 Hlen Hv.
  destruct (decide (r < Z.to_nat r0)%nat) as [Hlt|Hge].
  - rewrite bool_decide_eq_false_2 by lia.
    rewrite lookup_app_l by (rewrite length_take; lia).
    apply lookup_take_lt. exact Hlt.
  - rewrite lookup_app_r by (rewrite length_take; lia).
    rewrite length_take.
    replace (Z.to_nat r0 `min` length img)%nat with (Z.to_nat r0) by lia.
    destruct (decide (Z.of_nat r < r1)) as [Hlt1|Hge1].
    + rewrite bool_decide_eq_true_2 by lia.
      apply lookup_app_l. lia.
    + rewrite bool_decide_eq_false_2 by lia.
      rewrite lookup_app_r by lia. rewrite lookup_drop. f_equal. lia.
Qed.

Lemma lookup_slice {A} (l : list A) (r0 r1 : Z) (j : nat) :
  0 <= r0 -> (j < Z.to_nat (r1 - r0))%nat ->
  slice r0 r1 l !! j = l !! (Z.to_nat r0 + j)%nat.
Proof.
  intros H0 Hj. unfold slice. rewrite lookup_take_lt by exact Hj.
  apply lookup_drop.
Qed.

Lemma full_max_length (ims : imageseries) (f : image) (fs : list image) :
  well_shaped ims -> frames ims = f :: fs ->
  length (full_max f fs) = Z.to_nat (fst (shape ims)).
Proof.
  intros Hws Hfr. pose proof (ws_rows _ Hws) as Hr. rewrite Hfr in Hr.
  apply Forall_cons in Hr as [Hf Hfs].
  apply length_fold_maximum; assumption.
Qed.

(** X2: one call of [max] with a chunk descriptor [(i, n, img)], for
    [0 <= i < n] and an image as high as the frames, returns the image with
    the rows of band [i] of [_chunk_ranges] replaced by those of the
    per-pixel maximum over all the frames; every other row, and the height,
    are those of [img]. *)
Theorem max_chunk_writes_its_band (B : Z) (ims : imageseries) (k i n : Z)
    (img : image) :
  well_shaped ims -> frames ims <> [] -> 0 <= i < n ->
  length img = Z.to_nat (fst (shape ims)) ->
  exists (r0 r1 : Z) (out full : image),
    _chunk_ranges (fst (shape ims)) n i = Ok (r0, r1) /\
    np_max (frames ims) = Ok full /\
    max B ims (Some (i, n, img)) k = Ok out /\
    length out = length img /\
    forall r : nat,
      out !! r
      = if bool_decide (r0 <= Z.of_nat r < r1) then full !! r else img !! r.
Proof.
  intros Hws Hne Hi Himg.
  destruct (frames ims) as [|f fs] eqn:Hfr; [contradiction|]. clear Hne.
  pose proof (ws_nr _ Hws) as Hnr.
  set (nr := fst (shape ims)) in *.
  destruct (chunk_start_bounds nr n i Hnr Hi) as [[H0 H01] H1].
  pose proof (full_max_length ims f fs Hws Hfr) as HM. fold nr in HM.
  exists (chunk_start nr n i), (chunk_start nr n (i + 1)).
  eexists _, (full_max f fs).
  split; [apply chunk_ranges_closed_form; lia|].
  split; [reflexivity|].
  change (max B ims (Some (i, n, img)) k)
    with (_chunk_op np_max ims (_nframes ims k) (i, n, img)).
  split; [apply (chunk_op_band ims _ i n img f fs Hws Hfr Hi Himg)|].
  fold nr.
  assert (Hsl : length (slice (chunk_start nr n i) (chunk_start nr n (i + 1))
                          (full_max f fs))
                = Z.to_nat (chunk_start nr n (i + 1) - chunk_start nr n i)).
  { unfold slice. rewrite length_take, length_drop. lia. }
  split.
  - rewrite !length_app, length_take, length_drop, Hsl. lia.
  - intros r. rewrite (lookup_band (A:=list Z)) by (try exact Hsl; lia).
    destruct (bool_decide _) eqn:E; [|reflexivity].
    apply bool_decide_eq_true_1 in E.
    rewrite lookup_slice by lia. f_equal. lia.
Qed.

Lemma well_shaped_three_frames : well_shaped three_frames.
Proof.
  constructor; cbn; try lia; repeat constructor.
Qed.

Lemma max_chunk_writes_its_band_witness :
  exists out : image,
    max 1024 three_frames (Some (1, 2, [[0]; [0]])) 1 = Ok out /\
    length out = 2%nat.
Proof.
  destruct (max_chunk_writes_its_band 1024 three_frames 1 1 2 [[0]; [0]]
              well_shaped_three_frames ltac:(discriminate) ltac:(lia)
              eq_refl)
    as (r0 & r1 & out & full & _ & _ & Hm & Hl & _).
  exists out. split; [exact Hm|exact Hl].
Defined.

(** X3: whatever frame count is asked for, [max] returns the per-pixel
    maximum over all the frames of the series: when it chunks by itself
    (for a positive memory budget), and when the caller runs the chunks
    [0 .. n-1] of any [n >= 1] one after the other, each call taking the
    image the one before returned, from any image as high as the frames. *)
Theorem max_chunk_by_chunk (B : Z) (ims : imageseries) (k n : Z)
    (img0 : image) :
  well_shaped ims -> frames ims <> [] -> 1 <= n ->
  length img0 = Z.to_nat (fst (shape ims)) ->
  for_each (seqZ 0 n) (fun img i => max B ims (Some (i, n, img)) k) img0
  = np_max (frames ims) /\
  (0 < B -> max B ims None k = np_max (frames ims)).
Proof.
  intros Hws Hne Hn Himg. split.
  - destruct (frames ims) as [|f fs] eqn:Hfr; [contradiction|].
    pose proof (ws_nr _ Hws) as Hnr.
    pose proof (full_max_length ims f fs Hws Hfr) as HM.
    pose proof (chunk_loop ims (_nframes ims k) n f fs (Z.to_nat n) 0 img0
                  Hws Hfr ltac:(lia) ltac:(lia) Himg) as Hloop.
    cbv beta zeta in Hloop.
    rewrite chunk_start_0, chunk_start_last in Hloop by lia.
    change (Z.to_nat 0) with 0%nat in Hloop.
    rewrite take_0, drop_0 in Hloop. cbn [app] in Hloop.
    rewrite Z2Nat.id in Hloop by lia.
    rewrite take_ge in Hloop by lia.
    rewrite drop_ge, app_nil_r in Hloop by lia.
    exact Hloop.
  - intros HB. apply (max_over_all_frames B ims k HB Hws Hne).
Qed.

Lemma max_chunk_by_chunk_witness :
  for_each (seqZ 0 2)
    (fun img i => max 1024 three_frames (Some (i, 2, img)) 1) [[0]; [0]]
  = np_max (frames three_frames).
Proof.
  exact (proj1 (max_chunk_by_chunk 1024 three_frames 1 2 [[0]; [0]]
                  well_shaped_three_frames ltac:(discriminate) ltac:(lia)
                  eq_refl)).
Defined.


(** *** Steps that do not advance *)

(** X5: the generator [_row_ranges(n, m)] yields nothing for [n <= 0], and
    for a step [m <= 0] with a row to visit it never ends: no number of loop
    tests exhausts it. *)
Theorem row_ranges_without_progress (n m : Z) :
  (n <= 0 -> forall fuel, _row_ranges (S fuel) n m = Some []) /\
  (0 < n -> m <= 0 -> forall fuel, _row_ranges fuel n m = None).
Proof.
  split.
  - intros Hn fuel. unfold _row_ranges. cbn [_row_ranges_from].
    destruct (Z.ltb_spec 0 n); [lia|reflexivity].
  - intros Hn Hm fuel. unfold _row_ranges.
    assert (Hgen : forall i, i <= 0 -> _row_ranges_from fuel n m i = None).
    { induction fuel as [|fuel IH]; intros i Hi; [reflexivity|].
      cbn [_row_ranges_from]. destruct (Z.ltb_spec i n); [|lia].
      rewrite IH by lia. reflexivity. }
    apply Hgen. lia.
Qed.

(** *** Reductions along the frame axis *)

Lemma map_seq_nth {A B} (h : A -> B) (d : A) (l : list A) :
  map (fun i => h (nth i l d)) (seq 0 (length l)) = map h l.
Proof.
  induction l as [|x l IH]; [reflexivity|].
  cbn [length seq map nth]. f_equal.
  rewrite <- seq_shift, map_map. exact IH.
Qed.

(** A frame of the shape [(nr, nc)] is the array of its pixels. *)
Lemma frame_pixels {B} (h : Z -> B) (nr nc : nat) (f : image) :
  length f = nr -> Forall (fun row : list Z => length row = nc) f ->
  map (fun r => map (fun c => h (nth c (nth r f []) 0)) (seq 0 nc)) (seq 0 nr)
  = map (map h) f.
Proof.
  intros <- Hc.
  rewrite <- (map_seq_nth (map h) [] f).
  apply map_ext_in. intros r Hr. apply in_seq in Hr.
  assert (Hrow : length (nth r f []) = nc).
  { rewrite List.Forall_forall in Hc. apply Hc. apply nth_In. lia. }
  rewrite <- Hrow. apply map_seq_nth.
Qed.

Lemma frame_pixels_id (nr nc : nat) (f : image) :
  length f = nr -> Forall (fun row : list Z => length row = nc) f ->
  map (fun r => map (fun c => nth c (nth r f []) 0) (seq 0 nc)) (seq 0 nr) = f.
Proof.
  intros Hr Hc. rewrite (frame_pixels (fun x => x) nr nc f Hr Hc).
  rewrite (map_ext _ (fun row => row) (@map_id Z)). apply map_id.
Qed.

Lemma pixel_values_snoc (a : list image) (f : image) (r c : nat) :
  pixel_values (a ++ [f]) r c = pixel_values a r c ++ [nth c (nth r f []) 0].
Proof. unfold pixel_values. rewrite map_app. reflexivity. Qed.

Lemma length_pixel_values (a : list image) (r c : nat) :
  length (pixel_values a r c) = length a.
Proof. unfold pixel_values. apply length_map. Qed.

Lemma sum_snoc (l : list Z) (x : Z) :
  fold_right Z.add 0 (l ++ [x]) = fold_right Z.add 0 l + x.
Proof. induction l as [|y l IH]; cbn; lia. Qed.

Lemma zip_with_map_map {A B C D} (h : B -> C -> D) (F : A -> B) (G : A -> C)
    (l : list A) :
  zip_with h (map F l) (map G l) = map (fun x => h (F x) (G x)) l.
Proof. induction l as [|x l IH]; cbn; [reflexivity|]. f_equal. exact IH. Qed.

(** Adding a frame to the running sums of a stack gives the sums of the
    longer stack. *)
Lemma add_frame_sums (shp : Z * Z) (pre : list image) (f : image) :
  length f = Z.to_nat (fst shp) ->
  Forall (fun row : list Z => length row = Z.to_nat (snd shp)) f ->
  zip_with (zip_with (fun a x => (a + IZR x)%R))
    (axis0 (fun l => IZR (fold_right Z.add 0 l)) shp pre) f
  = axis0 (fun l => IZR (fold_right Z.add 0 l)) shp (pre ++ [f]).
Proof.
  intros Hr Hc. unfold axis0.
  match goal with
  | |- zip_with ?h ?X f = _ =>
      transitivity
        (zip_with h X
           (map (fun r => map (fun c => nth c (nth r f []) 0)
                            (seq 0 (Z.to_nat (snd shp))))
              (seq 0 (Z.to_nat (fst shp)))))
  end.
  { rewrite (frame_pixels_id _ _ f Hr Hc). reflexivity. }
  rewrite zip_with_map_map. apply map_ext. intros r.
  rewrite zip_with_map_map. apply map_ext. intros c.
  rewrite pixel_values_snoc, sum_snoc, plus_IZR. reflexivity.
Qed.

Lemma fold_frame_sums (shp : Z * Z) (fs pre : list image) :
  Forall (fun f : image => length f = Z.to_nat (fst shp)) fs ->
  Forall (Forall (fun row : list Z => length row = Z.to_nat (snd shp))) fs ->
  fold_left (fun avg f => zip_with (zip_with (fun a x => (a + IZR x)%R)) avg f)
    fs (axis0 (fun l => IZR (fold_right Z.add 0 l)) shp pre)
  = axis0 (fun l => IZR (fold_right Z.add 0 l)) shp (pre ++ fs).
Proof.
  revert pre. induction fs as [|f fs IH]; intros pre Hr Hc.
  - rewrite app_nil_r. reflexivity.
  - apply Forall_cons in Hr as [Hf Hr]. apply Forall_cons in Hc as [Hfc Hc].
    cbn [fold_left]. rewrite add_frame_sums by assumption.
    rewrite IH by assumption. rewrite <- app_assoc. reflexivity.
Qed.

(** X6: on a series whose frames have the shape it reports, [average]
    honours the frame count: every pixel of the result is the sum of the
    values of that pixel over the first [_nframes] frames, divided by that
    number, which is never zero; on a series without frames the first read
    raises. *)
Theorem average_is_mean (ims : imageseries) (k : Z) :
  well_shaped ims ->
  average ims k
  = match frames ims with
    | [] => Raise IndexError
    | _ =>
        Ok (axis0 (fun l => Some (mean l)) (shape ims)
              (take (Z.to_nat (_nframes ims k)) (frames ims)))
    end.
Proof.
  intros Hws. unfold average.
  destruct (frames ims) as [|f0 fs] eqn:Hfr; [reflexivity|].
  pose proof (nframes_bounds ims k) as Hb. rewrite Hfr in Hb.
  specialize (Hb ltac:(discriminate)).
  unfold len in Hb. rewrite Hfr in Hb. cbn [length] in Hb.
  set (nf := _nframes ims k) in *.
  pose proof (ws_rows _ Hws) as Hr. pose proof (ws_cols _ Hws) as Hc.
  rewrite Hfr in Hr, Hc.
  pose proof (for_each_frames (f0 :: fs)
                (fun avg f =>
                   zip_with (zip_with (fun a x => (a + IZR x)%R)) avg f)
                (Z.to_nat (nf - 1)) 1 (map (map IZR) f0)) as H.
  rewrite Z2Nat.id in H by lia. change (Z.of_nat 1) with 1 in H.
  etrans; [apply PyFacts.bind_ok, H; cbn [length]; lia|]. clear H.
  cbn [drop]. rewrite drop_0. f_equal.
  apply Forall_cons in Hr as [Hf0 Hr]. apply Forall_cons in Hc as [Hf0c Hc].
  assert (H0 : map (map IZR) f0
               = axis0 (fun l => IZR (fold_right Z.add 0 l)) (shape ims) [f0]).
  { unfold axis0, pixel_values. cbn [map fold_right].
    rewrite <- (frame_pixels IZR _ _ f0 Hf0 Hf0c).
    apply map_ext. intros r. apply map_ext. intros c.
    rewrite Z.add_0_r. reflexivity. }
  rewrite H0, fold_frame_sums
    by (apply Forall_take; assumption).
  replace (Z.to_nat nf) with (S (Z.to_nat (nf - 1))) by lia.
  cbn [take app]. unfold axis0. rewrite map_map. apply map_ext. intros r.
  rewrite map_map. apply map_ext. intros c.
  unfold Np.divide, mean.
  destruct (Req_dec_T (IZR nf) 0) as [Hz|_].
  { apply eq_IZR_R0 in Hz. lia. }
  rewrite length_pixel_values. cbn [length]. rewrite length_take.
  do 3 f_equal. lia.
Qed.

Lemma average_is_mean_witness :
  average three_frames 2
  = Ok (axis0 (fun l => Some (mean l)) (2, 1) [[[1]; [10]]; [[5]; [2]]]).
Proof.
  exact (average_is_mean three_frames 2 well_shaped_three_frames).
Defined.

(** *** [percentile] and [median], band by band *)

Lemma nth_slice {A} (l : list A) (d : A) (r0 r1 : Z) (j : nat) :
  0 <= r0 -> (j < Z.to_nat (r1 - r0))%nat ->
  nth j (slice r0 r1 l) d = nth (Z.to_nat r0 + j) l d.
Proof.
  intros H0 Hj. rewrite !nth_lookup, lookup_slice by assumption. reflexivity.
Qed.

(** The reduction of a band of the stack is the band of the reduction. *)
Lemma axis0_slice {A} (stat : list Z -> A) (nr nc r0 r1 : Z)
    (a : list image) :
  0 <= r0 <= r1 -> r1 <= nr ->
  axis0 stat (r1 - r0, nc) (map (slice r0 r1) a)
  = slice r0 r1 (axis0 stat (nr, nc) a).
Proof.
  intros H01 H1. unfold axis0, slice at 2. cbn [fst snd].
  change (drop ?n (map ?f ?l)) with (drop n (f <$> l)).
  change (take ?n (?f <$> ?l)) with (take n (f <$> l)).
  rewrite <- fmap_drop, <- fmap_take, drop_seq, take_seq.
  replace (Z.to_nat (r1 - r0) `min` (Z.to_nat nr - Z.to_nat r0))%nat
    with (Z.to_nat (r1 - r0)) by lia.
  rewrite (Nat.add_comm 0 (Z.to_nat r0)), <- (fmap_add_seq (Z.to_nat r0) 0).
  change (?f <$> ?l) with (map f l). rewrite !map_map.
  apply map_ext_in. intros r Hr. apply in_seq in Hr.
  apply map_ext. intros c. f_equal.
  unfold pixel_values. rewrite map_map. apply map_ext. intros f.
  rewrite nth_slice by lia. reflexivity.
Qed.

Lemma set_rows_band (img v : image) (r0 r1 : Z) :
  0 <= r0 <= r1 -> (Z.to_nat r1 <= length img)%nat ->
  length v = Z.to_nat (r1 - r0) ->
  set_rows img r0 r1 v
  = Ok (take (Z.to_nat r0) img ++ v ++ drop (Z.to_nat r1) img).
Proof.
  intros H01 Hlen Hv. unfold set_rows.
  assert (Hm : length (slice r0 r1 img) = Z.to_nat (r1 - r0)).
  { unfold slice. rewrite length_take, length_drop. lia. }
  rewrite Hm, Hv, Nat.eqb_refl.
  replace (Z.to_nat r0 + Z.to_nat (r1 - r0))%nat with (Z.to_nat r1) by lia.
  reflexivity.
Qed.

Lemma length_axis0 {A} (stat : list Z -> A) (shp : Z * Z) (a : list image) :
  length (axis0 stat shp a) = Z.to_nat (fst shp).
Proof. unfold axis0. rewrite length_map, length_seq. reflexivity. Qed.

(** What one band of a series is reduced to, for a frame count within the
    series: the band of the reduction of its first frames. *)
Lemma band_reduction {A} (stat : list Z -> A) (ims : imageseries)
    (r0 r1 nf : Z) :
  well_shaped ims -> 0 <= r0 <= r1 -> r1 <= fst (shape ims) ->
  0 <= nf <= len ims ->
  let pims := PIS_rectangle ims r0 r1 (snd (shape ims)) in
  exists a,
    _toarray pims nf = Ok a /\
    axis0 stat (shape pims) a
    = slice r0 r1 (axis0 stat (shape ims) (take (Z.to_nat nf) (frames ims))).
Proof.
  intros Hws H01 H1 Hnf pims. eexists. split.
  { apply toarray_first. unfold pims. rewrite PIS_rectangle_len. exact Hnf. }
  unfold pims. rewrite (PIS_rectangle_frames ims r0 r1 Hws).
  unfold PIS_rectangle. cbn [shape].
  assert (Hl : Z.of_nat (length (slice r0 r1 (zeros (fst (shape ims)) 0)))
               = r1 - r0).
  { unfold slice, zeros. rewrite length_take, length_drop, length_replicate.
    lia. }
  rewrite Hl.
  change (take ?n (map ?f ?l)) with (take n (f <$> l)).
  rewrite <- fmap_take. change (?f <$> ?l) with (map f l).
  rewrite (axis0_slice stat (fst (shape ims))) by lia.
  destruct (shape ims); reflexivity.
Qed.

Lemma fill_band {A} (W img0 : list A) (a b : nat) :
  (a <= b <= length W)%nat -> length img0 = length W ->
  take a (take a W ++ drop a img0) ++ take (b - a) (drop a W)
    ++ drop b (take a W ++ drop a img0)
  = take b W ++ drop b img0.
Proof.
  intros Hab Hl.
  rewrite take_app_le by (rewrite length_take; lia).
  rewrite take_take. replace (a `min` a)%nat with a by lia.
  rewrite drop_app_ge by (rewrite length_take; lia).
  rewrite length_take, drop_drop.
  replace (a + (b - a `min` length W))%nat with b by lia.
  rewrite app_assoc. f_equal.
  rewrite take_take_drop. f_equal. lia.
Qed.

Section Percentile.

Variable B : Z.
Variable np_percentile : R -> list Z -> Z.
Variable np_median : list Z -> Z.

(** The bands [j], [j+1], ... of [_row_ranges] turn an image that holds the
    result above row [j*m] into the result. *)
Lemma percentile_loop (ims : imageseries) (pct : R) (nf m : Z)
    (img0 : image) (c : nat) (j : Z) :
  well_shaped ims -> 0 <= nf <= len ims -> 1 <= m ->
  length img0 = Z.to_nat (fst (shape ims)) ->
  0 <= j -> j + Z.of_nat c = Z.max j (row_band_count (fst (shape ims)) m) ->
  let nr := fst (shape ims) in
  let W := axis0 (np_percentile pct) (shape ims)
             (take (Z.to_nat nf) (frames ims)) in
  let at_row (k : Z) :=
    take (Z.to_nat (Z.min nr (k * m))) W
    ++ drop (Z.to_nat (Z.min nr (k * m))) img0 in
  for_each (map (row_band nr m) (seqZ j (Z.of_nat c)))
    (fun img rr =>
       let pims := PIS_rectangle ims (fst rr) (snd rr) (snd (shape ims)) in
       a ← _toarray pims nf;
       set_rows img (fst rr) (snd rr)
         (axis0 (np_percentile pct) (shape pims) a))
    (at_row j)
  = Ok (at_row (j + Z.of_nat c)).
Proof.
  intros Hws Hnf Hm Himg Hj Hjc nr W at_row.
  pose proof (ws_nr _ Hws) as Hnr. fold nr in Hnr, Himg, Hjc.
  assert (HW : length W = Z.to_nat nr) by apply length_axis0.
  pose proof (row_band_count_spec nr m) as Hcnt.
  revert j Hj Hjc. induction c as [|c IH]; intros j Hj Hjc.
  - cbn. rewrite Z.add_0_r. reflexivity.
  - rewrite seqZ_cons by lia. cbn [map for_each row_band fst snd].
    assert (Hlt : j * m < nr) by (apply Hcnt; lia).
    assert (Hj0 : 0 <= j * m) by (apply Z.mul_nonneg_nonneg; lia).
    set (a := j * m) in *. set (b := Z.min nr ((j + 1) * m)).
    assert (Hab : a < b <= nr) by (unfold a, b; nia).
    destruct (band_reduction (np_percentile pct) ims a b nf Hws
                ltac:(lia) ltac:(fold nr; lia) Hnf) as (arr & Harr & Hred).
    cbv zeta in Harr, Hred.
    etrans; [apply PyFacts.bind_ok|].
    { etrans; [apply PyFacts.bind_ok; exact Harr|].
      rewrite Hred. fold W. apply set_rows_band; [lia| |].
      - unfold at_row. rewrite length_app, length_take, length_drop. lia.
      - unfold slice. rewrite length_take, length_drop. lia. }
    replace (Z.pred (Z.of_nat (S c))) with (Z.of_nat c) by lia.
    replace (j + Z.of_nat (S c)) with (Z.succ j + Z.of_nat c) by lia.
    rewrite <- (IH (Z.succ j)) by lia. f_equal.
    unfold at_row. replace (Z.min nr (j * m)) with a by (unfold a; lia).
    replace (Z.min nr (Z.succ j * m)) with b by (unfold b; f_equal; lia).
    unfold slice. replace (Z.to_nat (b - a)) with (Z.to_nat b - Z.to_nat a)%nat
      by lia.
    apply fill_band; lia.
Qed.

(** With enough fuel, [percentile] returns the reduction of the stack of
    the first frames, taken as a whole. *)
Lemma percentile_spec (ims : imageseries) (pct : R) (k : Z) :
  0 < B -> well_shaped ims -> frames ims <> [] ->
  0 < snd (shape ims) -> 0 < itemsize ims ->
  exists fuel, forall fuel', (fuel <= fuel')%nat ->
    percentile B np_percentile fuel' ims pct k
    = Ok (Some (axis0 (np_percentile pct) (shape ims)
                  (take (Z.to_nat (_nframes ims k)) (frames ims)))).
Proof.
  intros HB Hws Hne Hnc Hsz.
  pose proof (nframes_bounds ims k Hne) as Hnf.
  pose proof (ws_nr _ Hws) as Hnr. pose proof (ws_rows _ Hws) as Hr.
  pose proof (percentile_loop ims pct (_nframes ims k)) as Hloop.
  unfold percentile. set (nf := _nframes ims k) in *.
  destruct (shape ims) as [nr nc] eqn:Esh. cbn [fst snd] in *.
  destruct (rows_in_buffer_pos B k (nf * nc * itemsize ims) HB)
    as (m & Hm & Hm1).
  { repeat apply Z.mul_pos_pos; lia. }
  exists (S (Z.to_nat (row_band_count nr m))). intros fuel' Hfuel.
  etrans; [apply PyFacts.bind_ok; exact Hm|].
  destruct (frames ims) as [|f0 fs] eqn:Hfr; [contradiction|].
  etrans; [apply PyFacts.bind_ok; reflexivity|].
  unfold _row_ranges.
  pose proof (row_ranges_from_closed_form nr m fuel' 0 Hm1) as Hrr.
  rewrite Z.mul_0_l, Z.sub_0_r in Hrr. rewrite Hrr by lia. clear Hrr.
  apply Forall_cons in Hr as [Hf0 _].
  assert (Hc0 : 0 <= row_band_count nr m).
  { unfold row_band_count. apply Z.div_pos; lia. }
  specialize (Hloop m (zeros_like f0) (Z.to_nat (row_band_count nr m)) 0
                Hws ltac:(lia) Hm1).
  specialize (Hloop ltac:(unfold zeros_like; rewrite length_map; exact Hf0)
                ltac:(lia) ltac:(lia)).
  cbv beta zeta in Hloop. rewrite Z2Nat.id in Hloop by lia.
  rewrite Z.mul_0_l in Hloop. replace (Z.min nr 0) with 0 in Hloop by lia.
  change (Z.to_nat 0) with 0%nat in Hloop. rewrite take_0, drop_0 in Hloop.
  cbn [app] in Hloop.
  etrans; [apply PyFacts.bind_ok; exact Hloop|].
  do 2 f_equal.
  assert (Hfull : nr <= (0 + row_band_count nr m) * m).
  { destruct (Z_lt_le_dec ((0 + row_band_count nr m) * m) nr) as [Hlt|]; [|lia].
    rewrite Z.add_0_l in Hlt.
    apply (row_band_count_spec nr m _ Hm1) in Hlt. lia. }
  replace (Z.min nr ((0 + row_band_count nr m) * m)) with nr by lia.
  rewrite take_ge by (rewrite length_axis0; cbn [fst]; lia).
  rewrite drop_ge by (unfold zeros_like; rewrite length_map; lia).
  apply app_nil_r.
Qed.

End Percentile.

(** X7: for a positive memory budget, on a series with frames of the shape
    it reports, with at least one column and a positive item size,
    [percentile] comes to an end and honours the frame count: its row bands
    leave no trace, the result being the per-pixel percentile of the whole
    stack of the first [_nframes] frames. *)
Theorem percentile_of_first_frames (B : Z)
    (np_percentile : R -> list Z -> Z) (ims : imageseries) (pct : R)
    (k : Z) :
  0 < B -> well_shaped ims -> frames ims <> [] ->
  0 < snd (shape ims) -> 0 < itemsize ims ->
  exists fuel, forall fuel', (fuel <= fuel')%nat ->
    percentile B np_percentile fuel' ims pct k
    = Ok (Some (axis0 (np_percentile pct) (shape ims)
                  (take (Z.to_nat (_nframes ims k)) (frames ims)))).
Proof. apply percentile_spec. Qed.

Lemma percentile_of_first_frames_witness :
  exists fuel,
    percentile 2 (fun _ => pick_first) fuel three_frames 50 2
    = Ok (Some [[1]; [10]]).
Proof.
  destruct (percentile_of_first_frames 2 (fun _ => pick_first) three_frames
              50 2 ltac:(lia) well_shaped_three_frames ltac:(discriminate)
              ltac:(cbn; lia) ltac:(cbn; lia)) as [fuel H].
  exists fuel. exact (H fuel (le_n fuel)).
Defined.

(** X8: on a series with frames of the shape it reports, [median] with a
    chunk descriptor [(i, n, img)], for [0 <= i < n] and an image as high
    as the frames, honours the frame count: the rows of band [i] of
    [_chunk_ranges] become those of the per-pixel median of the first
    [_nframes] frames, every other row and the height are those of [img];
    without a descriptor the result is that of [percentile] at 50, the
    per-pixel value [np.percentile] gives, not [np.median]. *)
Theorem median_band_by_band (B : Z) (np_percentile : R -> list Z -> Z)
    (np_median : list Z -> Z) (ims : imageseries) (k : Z) :
  well_shaped ims ->
  let first := take (Z.to_nat (_nframes ims k)) (frames ims) in
  (forall i n img fuel,
     0 <= i < n -> length img = Z.to_nat (fst (shape ims)) ->
     exists (r0 r1 : Z) (out : image),
       _chunk_ranges (fst (shape ims)) n i = Ok (r0, r1) /\
       median B np_percentile np_median fuel ims k (Some (i, n, img))
       = Ok (Some out) /\
       length out = length img /\
       forall r : nat,
         out !! r
         = if bool_decide (r0 <= Z.of_nat r < r1)
           then axis0 np_median (shape ims) first !! r
           else img !! r) /\
  (0 < B -> frames ims <> [] -> 0 < snd (shape ims) -> 0 < itemsize ims ->
   exists fuel, forall fuel', (fuel <= fuel')%nat ->
     median B np_percentile np_median fuel' ims k None
     = Ok (Some (axis0 (np_percentile 50%R) (shape ims) first))).
Proof.
  intros Hws first. split.
  - intros i n img fuel Hi Himg.
    pose proof (ws_nr _ Hws) as Hnr.
    pose proof (nframes_le_len ims k) as Hnf.
    unfold median. set (nf := _nframes ims k) in *.
    pose proof (band_reduction np_median ims) as Hband.
    destruct (shape ims) as [nr nc] eqn:Esh. cbn [fst snd] in *.
    destruct (chunk_start_bounds nr n i Hnr Hi) as [[H0 H01] H1].
    set (r0 := chunk_start nr n i) in *.
    set (r1 := chunk_start nr n (i + 1)) in *.
    destruct (Hband r0 r1 nf Hws ltac:(lia) H1 Hnf) as (a & Ha & Hred).
    cbv zeta in Ha, Hred. fold first in Hred.
    set (v := slice r0 r1 (axis0 np_median (nr, nc) first)) in *.
    assert (Hv : length v = Z.to_nat (r1 - r0)).
    { unfold v, slice. rewrite length_take, length_drop, length_axis0.
      cbn [fst]. lia. }
    exists r0, r1, (take (Z.to_nat r0) img ++ v ++ drop (Z.to_nat r1) img).
    split; [apply chunk_ranges_closed_form; lia|]. split.
    { etrans; [apply PyFacts.bind_ok, chunk_ranges_closed_form; lia|].
      etrans; [apply PyFacts.bind_ok; exact Ha|].
      etrans; [apply PyFacts.bind_ok;
               etrans; [apply (f_equal (set_rows img r0 r1)); exact Hred|];
               apply set_rows_band; [lia|lia|exact Hv]|].
      reflexivity. }
    split.
    + rewrite !length_app, length_take, length_drop, Hv. lia.
    + intros r. rewrite (lookup_band (A:=list Z)) by (try exact Hv; lia).
      destruct (bool_decide _) eqn:E; [|reflexivity].
      apply bool_decide_eq_true_1 in E. unfold v.
      rewrite lookup_slice by lia. f_equal. lia.
  - intros HB Hne Hnc Hsz.
    apply (percentile_spec B np_percentile ims 50%R k HB Hws Hne Hnc Hsz).
Qed.

Lemma median_band_by_band_witness :
  exists out : image,
    median 2 (fun _ => pick_first) pick_first 0 three_frames 2
      (Some (1, 2, [[0]; [0]]))
    = Ok (Some out) /\
    out !! 1%nat = Some [10].
Proof.
  destruct (median_band_by_band 2 (fun _ => pick_first) pick_first
              three_frames 2 well_shaped_three_frames) as [H _].
  destruct (H 1 2 [[0]; [0]] 0%nat ltac:(lia) eq_refl)
    as (r0 & r1 & out & Hr & Hm & _ & Hl).
  exists out. split; [exact Hm|].
  injection Hr as <- <-. exact (Hl 1%nat).
Defined.

End StatsReductionsFacts.

(** ** More facts about hexrd/fitting/calibration/structureless.py *)

Module StructurelessRunFacts.

Import Structureless StructurelessRun PyFacts.

(** *** Loops that check every item *)

Lemma for_each_guard {A St} (l : list A) (p : A -> bool) (g : St -> A -> St)
    (e : exn) (acc : St) :
  for_each l (fun s x => if p x then Ok (g s x) else Raise e) acc
  = if forallb p l then Ok (fold_left g l acc) else Raise e.
Proof.
  revert acc. induction l as [|x l IH]; intros acc; [reflexivity|].
  cbn. destruct (p x); [|reflexivity]. cbn. apply IH.
Qed.

Lemma traverse_guard {A B} (l : list A) (p : A -> bool) (h : A -> B)
    (e : exn) :
  traverse (fun x => if p x then Ok (h x) else Raise e) l
  = if forallb p l then Ok (map h l) else Raise e.
Proof.
  induction l as [|x l IH]; [reflexivity|].
  cbn. destruct (p x); [|reflexivity]. cbn. rewrite IH.
  destruct (forallb p l); reflexivity.
Qed.

Lemma traverse_ext {A B} (f g : A -> result B) (l : list A) :
  (forall x, f x = g x) -> traverse f l = traverse g l.
Proof.
  intros Hfg. induction l as [|x l IH]; [reflexivity|].
  cbn. rewrite Hfg, IH. reflexivity.
Qed.

Section MeasAngles.

Context `{Collaborators}.

Lemma ring_angles_guard (st : calibrator) (xs : string) (rng : ring) :
  ring_angles st xs rng
  = if forallb (fun it : string * array2 =>
                  bool_decide (fst it ∈ detectors (_instr st))) rng
    then Ok (fold_left
               (fun d (it : string * array2) =>
                  dict_set d (fst it)
                    (Some (cart_to_angles (_instr st) xs (fst it) (snd it))))
               rng (fromkeys (detectors (_instr st))))
    else Raise KeyError.
Proof.
  unfold ring_angles. rewrite <- for_each_guard.
  apply for_each_ext. intros s [det xy] _. reflexivity.
Qed.

(** [meas_angles] checks every detector name of every ring, and does
    nothing else that can fail. *)
Lemma meas_angles_guard (st : calibrator) :
  exists ma,
    meas_angles st
    = if rings_known (_instr st) (_data st) then Ok ma else Raise KeyError.
Proof.
  unfold meas_angles, rings_known.
  eexists (fold_left
             (fun d (sr : string * list ring) =>
                dict_set d (fst sr)
                  (map (fun rng =>
                          fold_left
                            (fun d (it : string * array2) =>
                               dict_set d (fst it)
                                 (Some (cart_to_angles (_instr st) (fst sr)
                                          (fst it) (snd it))))
                            rng (fromkeys (detectors (_instr st))))
                     (snd sr)))
             (_data st) []).
  rewrite <- for_each_guard. apply for_each_ext. intros s [xs rings] _.
  cbn [fst snd].
  rewrite (traverse_ext _ _ rings (ring_angles_guard st xs)).
  rewrite traverse_guard.
  destruct (forallb _ rings); reflexivity.
Qed.

Lemma rings_known_spec (ins : instrument) (dat : dataset) :
  rings_known ins dat = true <->
  forall xs rings (rng : ring) det xy,
    (xs, rings) ∈ dat -> rng ∈ rings -> (det, xy) ∈ rng ->
    det ∈ detectors ins.
Proof.
  unfold rings_known. rewrite List.forallb_forall. split.
  - intros Hall xs rings rng det xy Hd Hr Hi.
    apply list_elem_of_In in Hd. specialize (Hall _ Hd). cbn in Hall.
    rewrite List.forallb_forall in Hall.
    apply list_elem_of_In in Hr. specialize (Hall _ Hr).
    rewrite List.forallb_forall in Hall.
    apply list_elem_of_In in Hi. specialize (Hall _ Hi). cbn in Hall.
    apply bool_decide_eq_true_1 in Hall. exact Hall.
  - intros Hall [xs rings] Hd. apply list_elem_of_In in Hd. cbn.
    rewrite List.forallb_forall. intros rng Hr. apply list_elem_of_In in Hr.
    rewrite List.forallb_forall. intros [det xy] Hi.
    apply list_elem_of_In in Hi. cbn. apply bool_decide_eq_true_2.
    eapply Hall; eauto.
Qed.

(** X9: a ring of the dataset that names a detector the instrument lacks
    makes [meas_angles] raise [KeyError], wherever the ring stands in the
    dataset and whatever the rings before it hold (the geometric routines
    of the instrument being taken to return). *)
Theorem meas_angles_unknown_detector (st : calibrator) (xs : string)
    (rings : list ring) (rng : ring) (det : string) (xy : array2) :
  (xs, rings) ∈ _data st -> rng ∈ rings -> (det, xy) ∈ rng ->
  det ∉ detectors (_instr st) ->
  meas_angles st = Raise KeyError.
Proof.
  intros Hd Hr Hi Hn. destruct (meas_angles_guard st) as [ma Hma].
  rewrite Hma.
  destruct (rings_known (_instr st) (_data st)) eqn:E; [|reflexivity].
  exfalso. apply Hn.
  exact (proj1 (rings_known_spec _ _) E xs rings rng det xy Hd Hr Hi).
Qed.

Lemma build_params_stray (st : calibrator) :
  rings_known (_instr st) (_data st) = false ->
  build_params st = Raise KeyError.
Proof.
  intros Hk. unfold build_params.
  destruct (meas_angles_guard st) as [ma Hma]. rewrite Hma, Hk.
  reflexivity.
Qed.

(** X10: an assignment whose rebuild of the parameters fails is not undone.
    When a ring of the dataset names a detector the instrument lacks,
    assigning that dataset, or that instrument, or a new valid constraint
    tag, raises [KeyError] and leaves the calibrator with the new value in
    place and the parameters of before. *)
Theorem failed_rebuild_keeps_assignment (st : calibrator) :
  (forall dat, rings_known (_instr st) dat = false ->
     set_data dat st = Throws KeyError (with_data st dat)) /\
  (forall ins, rings_known ins (_data st) = false ->
     set_instr ins st = Throws KeyError (with_instr st ins)) /\
  (forall v, rings_known (_instr st) (_data st) = false ->
     v <> _engineering_constraints st -> v ∈ valid_settings ->
     set_engineering_constraints v st
     = Throws KeyError (with_engineering_constraints st v)).
Proof.
  split; [|split].
  - intros dat Hk. unfold set_data, make_lmfit_params.
    rewrite build_params_stray by exact Hk. reflexivity.
  - intros ins Hk. unfold set_instr, make_lmfit_params.
    rewrite build_params_stray by exact Hk. reflexivity.
  - intros v Hk Hne Hv. unfold set_engineering_constraints.
    rewrite bool_decide_eq_false_2 by exact Hne.
    rewrite bool_decide_eq_true_2 by exact Hv.
    unfold make_lmfit_params.
    rewrite build_params_stray by exact Hk. reflexivity.
Qed.

End MeasAngles.


(** *** The length of the residual *)

Lemma length_concat_concat_map {A B} (G : A -> list (list B)) (l : list A) :
  length (concat (concat (map G l)))
  = sum_list (map (fun x => length (concat (G x))) l).
Proof.
  induction l as [|x l IH]; [reflexivity|].
  cbn [map concat sum_list]. rewrite concat_app, length_app, IH.
  reflexivity.
Qed.

Lemma sum_list_map_ext {A} (f g : A -> nat) (l : list A) :
  (forall x, x ∈ l -> f x = g x) ->
  sum_list (map f l) = sum_list (map g l).
Proof.
  intros Hfg. f_equal. apply map_ext_in. intros x Hx. apply Hfg.
  apply list_elem_of_In. exact Hx.
Qed.

Lemma map_snd_enumerate {A B} (f : A -> B) (l : list A) :
  map (fun ir : nat * A => f (snd ir)) (enumerate l) = map f l.
Proof.
  unfold enumerate. change (map ?g ?l') with (g <$> l').
  rewrite fmap_imap. apply imap_const.
Qed.

Lemma Forall_concat_map {A B} (P : B -> Prop) (G : A -> list B)
    (l : list A) :
  (forall x, x ∈ l -> Forall P (G x)) -> Forall P (concat (map G l)).
Proof.
  intros HG. induction l as [|x l IH]; [constructor|].
  cbn. apply Forall_app. split; [apply HG; left|].
  apply IH. intros y Hy. apply HG. right. exact Hy.
Qed.

Section ResidualLength.

Context `{Collaborators}.
Variable st : calibrator.
Variable params : gmap string parameter.
Variable tth : string -> nat -> num.
Hypothesis WF : well_formed st params tth.

(** What one combination adds: no array, or one array with an entry for
    each angle pair of the detector. *)
Lemma contribution_points xs rings (rng : ring) (t : num) det :
  (xs, rings) ∈ _data st -> rng ∈ rings ->
  length (concat (contribution st t xs rng det)) = points_of st xs rng det /\
  Forall (fun b : list num => b <> []) (contribution st t xs rng det).
Proof.
  intros Hd Hr. unfold contribution, points_of.
  destruct (dict_lookup rng det) as [xy|] eqn:E; [|split; [reflexivity|constructor]].
  destruct (cart_to_angles (_instr st) xs det xy) as [|pt a] eqn:Ea;
    [split; [reflexivity|constructor]|].
  destruct (corr_of st xs det xy) as [corr|] eqn:Ec.
  - assert (Hlen : length corr = S (length a)).
    { unfold corr_of in Ec.
      destruct (_tth_distortion st) as [td|] eqn:Etd; [|discriminate].
      cbn in Ec. apply dict_lookup_Some_elem in E.
      destruct (wf_distortion _ _ _ WF td xs rings rng det xy Etd Hd Hr E)
        as (sd & Hsd & Hl).
      unfold dict_lookup in Ec. rewrite Hsd in Ec. injection Ec as <-.
      rewrite length_map, Hl, Ea. reflexivity. }
    cbn [concat]. rewrite app_nil_r, length_zip_with.
    cbn [length map]. rewrite length_map, Hlen.
    split; [cbn [length]; lia|].
    repeat constructor. destruct corr; [discriminate|]. discriminate.
  - cbn [concat]. rewrite app_nil_r. cbn [length map]. rewrite !length_map.
    split; [reflexivity|]. repeat constructor. discriminate.
Qed.

Lemma contributions_points :
  length (concat (contributions st tth)) = n_points st /\
  Forall (fun b : list num => b <> []) (contributions st tth).
Proof.
  unfold contributions, n_points. split.
  - rewrite length_concat_concat_map. apply sum_list_map_ext.
    intros [xs rings] Hd. cbn [fst snd].
    rewrite length_concat_concat_map.
    rewrite <- (map_snd_enumerate
                  (fun rng => sum_list (map (points_of st xs rng)
                                          (detectors (_instr st)))) rings).
    apply sum_list_map_ext. intros [ii rng] Hi. cbn [fst snd].
    apply elem_of_lookup_imap_1 in Hi as (i & y & Heq & Hl).
    injection Heq as -> ->. apply list_elem_of_lookup_2 in Hl.
    rewrite length_concat_concat_map. apply sum_list_map_ext.
    intros det _. apply (contribution_points xs rings _ _ det Hd Hl).
  - apply Forall_concat_map. intros [xs rings] Hd. cbn [fst snd].
    apply Forall_concat_map. intros [ii rng] Hi. cbn [fst snd].
    apply elem_of_lookup_imap_1 in Hi as (i & y & Heq & Hl).
    injection Heq as -> ->. apply list_elem_of_lookup_2 in Hl.
    apply Forall_concat_map. intros det _.
    apply (contribution_points xs rings _ _ det Hd Hl).
Qed.

End ResidualLength.

(** X11: on a well-formed calibrator (after the trial values are pushed
    into the instrument), the residual [calc_residual] returns has exactly
    one entry per angle pair the detectors give for the measured points of
    the dataset, and there is at least one; when the dataset holds no point
    at all, the call raises [ValueError] instead of returning an empty
    residual. *)
Theorem residual_one_entry_per_point `{Collaborators} (st : calibrator)
    (params : gmap string parameter) (tth : string -> nat -> num) :
  let st' := with_instr st
               (update_instrument_from_params (_instr st) params
                  (euler_convention st)) in
  well_formed st' params tth ->
  match calc_residual params st with
  | Returns r _ => length r = n_points st' /\ (0 < n_points st')%nat
  | Throws e _ => e = ValueError /\ n_points st' = 0%nat
  end.
Proof.
  intros st' WF. unfold calc_residual. fold st'.
  rewrite (StructurelessFacts.residual_blocks_spec st' params tth WF).
  destruct (contributions_points st' params tth WF) as [Hlen Hne].
  destruct (contributions st' tth) as [|b bs] eqn:E;
    unfold mbind, result_bind; cbn [Py.bind np_hstack].
  - split; [reflexivity|]. rewrite <- Hlen. reflexivity.
  - rewrite <- Hlen. split; [reflexivity|].
    apply Forall_cons in Hne as [Hb _]. cbn [concat]. rewrite length_app.
    destruct b; [contradiction|]. cbn [length]. lia.
Qed.

Lemma residual_one_entry_per_point_witness :
  match @calc_residual demo (params demo_cal) demo_cal with
  | Returns r _ => length r = 3%nat
  | Throws e _ => False
  end.
Proof.
  pose proof (@residual_one_entry_per_point demo demo_cal (params demo_cal)
                demo_tth StructurelessFacts.demo_cal_well_formed) as H.
  destruct (@calc_residual demo (params demo_cal) demo_cal) as [r s|e s].
  - destruct H as [H _]. rewrite H. reflexivity.
  - destruct H as [_ H]. discriminate H.
Defined.

(** *** The options of the fit *)

Lemma dict_lookup_cons {V} (k0 k : string) (v0 : V) (d : dict V) :
  dict_lookup ((k0, v0) :: d) k
  = if String.eqb k0 k then Some v0 else dict_lookup d k.
Proof. unfold dict_lookup. cbn. destruct (String.eqb k0 k); reflexivity. Qed.

Lemma dict_lookup_not_key {V} (d : dict V) (k : string) :
  k ∉ keys d -> dict_lookup d k = None.
Proof.
  intros Hk. destruct (dict_lookup d k) as [v|] eqn:E; [|reflexivity].
  exfalso. apply Hk. apply dict_lookup_Some_elem in E.
  apply list_elem_of_fmap. exists (k, v). auto.
Qed.

Lemma dict_lookup_set {V} (d : dict V) (k k' : string) (v : V) :
  dict_lookup (dict_set d k v) k'
  = if String.eqb k k' then Some v else dict_lookup d k'.
Proof.
  unfold dict_lookup. rewrite dict_get_set.
  destruct (String.eqb k k'); reflexivity.
Qed.

(** After [d.update(o)], a key of [o] has the value [o] gives it and any
    other key the value it had. *)
Lemma dict_lookup_update {V} (o d : dict V) (k : string) :
  NoDup (keys o) ->
  dict_lookup (update d o) k
  = match dict_lookup o k with
    | Some v => Some v
    | None => dict_lookup d k
    end.
Proof.
  unfold update. revert d. induction o as [|[k0 v0] o IH]; intros d Hnd.
  - reflexivity.
  - cbn in Hnd. apply NoDup_cons in Hnd as [Hk0 Hnd].
    cbn [fold_left fst snd]. rewrite IH by exact Hnd.
    rewrite dict_lookup_cons, dict_lookup_set.
    destruct (String.eqb_spec k0 k) as [->|Hne]; [|reflexivity].
    rewrite dict_lookup_not_key by exact Hk0. reflexivity.
Qed.

Lemma explicit_keyword_clash {V} (o : dict V) :
  existsb (fun k => bool_decide (k ∈ keys o)) explicit_keywords = true <->
  exists k, k ∈ explicit_keywords /\ k ∈ keys o.
Proof.
  rewrite existsb_exists. split.
  - intros (k & Hin & Hk). exists k. split; [apply list_elem_of_In; exact Hin|].
    apply bool_decide_eq_true_1 in Hk. exact Hk.
  - intros (k & Hin & Hk). exists k. split; [apply list_elem_of_In; exact Hin|].
    apply bool_decide_eq_true_2. exact Hk.
Qed.

(** X12: the options of [run_calibration].  On the least-squares path the
    minimizer receives the defaults of the method, each overridden by the
    caller's value where the caller names the key, and the caller's other
    keys besides; without options, the defaults as they are.  On any other
    path the minimizer is called with the method, the current parameters
    and a budget of 50000 evaluations, and options that name [method],
    [params] or [max_nfev] make the call fail with [TypeError], the
    calibrator staying as it was: that budget cannot be changed.  A call
    that returns stores the fitted parameters. *)
Theorem run_calibration_options `{Collaborators}
    (least_squares : gmap string parameter -> dict optval -> fit_result)
    (scalar_minimize :
       string -> gmap string parameter -> Z -> dict optval -> fit_result)
    (st : calibrator) :
  let run := run_calibration least_squares scalar_minimize in
  let fitted (res : fit_result) :=
    Returns res (with_params st (result_params res)) in
  run "least_squares"%string None st
  = fitted (least_squares (params st) default_options) /\
  (forall o, NoDup (keys o) ->
     exists fdict,
       run "least_squares"%string (Some o) st
       = fitted (least_squares (params st) fdict) /\
       forall k,
         dict_lookup fdict k
         = match dict_lookup o k with
           | Some v => Some v
           | None => dict_lookup default_options k
           end) /\
  (forall method o, method <> "least_squares"%string ->
     (exists k, k ∈ explicit_keywords /\ k ∈ keys o) ->
     run method (Some o) st = Throws TypeError st) /\
  (forall method o, method <> "least_squares"%string ->
     (forall k, k ∈ explicit_keywords -> k ∉ keys o) ->
     run method (Some o) st
     = fitted (scalar_minimize method (params st) 50000 o)) /\
  (forall method, method <> "least_squares"%string ->
     run method None st
     = fitted (scalar_minimize method (params st) 50000 [])).
Proof.
  intros run fitted. unfold run, fitted, run_calibration.
  split; [reflexivity|]. split; [|split; [|split]].
  - intros o Hnd. eexists. split; [reflexivity|].
    intros k. apply dict_lookup_update. exact Hnd.
  - intros method o Hm Hk.
    destruct (String.eqb_spec method "least_squares") as [|_]; [contradiction|].
    rewrite (proj2 (explicit_keyword_clash o) Hk). reflexivity.
  - intros method o Hm Hk.
    destruct (String.eqb_spec method "least_squares") as [|_]; [contradiction|].
    destruct (existsb _ explicit_keywords) eqn:E; [|reflexivity].
    apply explicit_keyword_clash in E as (k & Hin & Hko).
    exfalso. exact (Hk k Hin Hko).
  - intros method Hm.
    destruct (String.eqb_spec method "least_squares") as [|_]; [contradiction|].
    reflexivity.
Qed.

Lemma failed_rebuild_keeps_assignment_witness :
  @set_data demo demo_stray demo_cal
  = Throws KeyError (with_data demo_cal demo_stray).
Proof.
  exact (proj1 (@failed_rebuild_keeps_assignment demo demo_cal) demo_stray
           eq_refl).
Defined.

Lemma meas_angles_unknown_detector_witness :
  @meas_angles demo (with_data demo_cal demo_stray) = Raise KeyError.
Proof.
  refine (@meas_angles_unknown_detector demo (with_data demo_cal demo_stray)
            "beam"%string [ [("det3", [(1, 0)])] ]%string
            [("det3", [(1, 0)])]%string "det3"%string [(1, 0)] _ _ _ _).
  - left.
  - left.
  - left.
  - intros Hin. change ("det3"%string ∈ ["det1"; "det2"]%string) in Hin.
    rewrite !elem_of_cons, elem_of_nil in Hin. intuition discriminate.
Defined.

(** *** [tth_correction] *)

Lemma dict_get_cases {V} (d : dict V) (k : string) :
  (exists v, dict_get d k = Ok v /\ k ∈ keys d) \/
  (dict_get d k = Raise KeyError /\ k ∉ keys d).
Proof.
  induction d as [|[k0 v0] d IH]; cbn.
  - right. split; [reflexivity|]. apply not_elem_of_nil.
  - destruct (String.eqb_spec k0 k) as [->|Hne].
    + left. exists v0. split; [reflexivity|]. left.
    + destruct IH as [(v & Hv & Hin)|[Hr Hn]].
      * left. exists v. split; [exact Hv|]. right. exact Hin.
      * right. split; [exact Hr|]. rewrite not_elem_of_cons. auto.
Qed.

Section TthCorrection.

Context `{Collaborators}.

Lemma ring_correction_guard (st : calibrator) (td : dict distortion)
    (xs : string) (rng : ring) :
  _tth_distortion st = Some td ->
  exists d,
    ring_correction st xs rng
    = if forallb (fun it : string * array2 =>
                    bool_decide (fst it ∈ keys td)) rng
      then Ok d else Raise KeyError.
Proof.
  intros Htd. unfold ring_correction. rewrite Htd.
  eexists (fold_left
             (fun d (it : string * array2) =>
                match dict_lookup td (fst it) with
                | Some sd =>
                    dict_set d (fst it)
                      (Some (map fst (distortion_apply sd (_instr st) xs
                                        (snd it))))
                | None => d
                end)
             rng (fromkeys (detectors (_instr st)))).
  rewrite <- for_each_guard. apply for_each_ext. intros s [det xy] _.
  cbn [fst snd]. unfold dict_lookup.
  destruct (dict_get_cases td det) as [(sd & -> & Hin)|[-> Hn]].
  - rewrite bool_decide_eq_true_2 by exact Hin. reflexivity.
  - rewrite bool_decide_eq_false_2 by exact Hn. reflexivity.
Qed.

(** [tth_correction] with distortion objects checks that there is one for
    every detector name of every ring. *)
Lemma tth_correction_guard (st : calibrator) (td : dict distortion) :
  _tth_distortion st = Some td ->
  exists tc,
    tth_correction st
    = if forallb (fun sr : string * list ring =>
           forallb (fun rng : ring =>
             forallb (fun it : string * array2 =>
                        bool_decide (fst it ∈ keys td)) rng)
             (snd sr))
           (_data st)
      then Ok tc else Raise KeyError.
Proof.
  intros Htd. unfold tth_correction.
  eexists (fold_left
             (fun d (sr : string * list ring) =>
                dict_set d (fst sr)
                  (map (fun rng => unwrap [] (ring_correction st (fst sr) rng))
                     (snd sr)))
             (_data st) []).
  rewrite <- for_each_guard. apply for_each_ext. intros s [xs rings] _.
  cbn [fst snd].
  assert (Ht : traverse (ring_correction st xs) rings
               = if forallb (fun rng : ring =>
                      forallb (fun it : string * array2 =>
                                 bool_decide (fst it ∈ keys td)) rng) rings
                 then Ok (map (fun rng => unwrap [] (ring_correction st xs rng))
                            rings)
                 else Raise KeyError).
  { induction rings as [|rng rings IH]; [reflexivity|].
    cbn [traverse forallb map].
    destruct (ring_correction_guard st td xs rng Htd) as [d ->].
    destruct (forallb _ rng); [|reflexivity].
    cbn [Py.bind andb unwrap]. rewrite IH.
    destruct (forallb _ rings); reflexivity. }
  rewrite Ht. destruct (forallb _ rings); reflexivity.
Qed.

(** X24: with distortion objects configured, a ring of the dataset that
    names a detector for which there is no object makes [tth_correction]
    raise [KeyError], wherever the ring stands in the dataset; whether the
    instrument has a detector of that name is not asked. *)
Theorem tth_correction_missing_object (st : calibrator)
    (td : dict distortion) (xs : string) (rings : list ring) (rng : ring)
    (det : string) (xy : array2) :
  _tth_distortion st = Some td ->
  (xs, rings) ∈ _data st -> rng ∈ rings -> (det, xy) ∈ rng ->
  det ∉ keys td ->
  tth_correction st = Raise KeyError.
Proof.
  intros Htd Hd Hr Hi Hn.
  destruct (tth_correction_guard st td Htd) as [tc Htc]. rewrite Htc.
  destruct (forallb _ (_data st)) eqn:E; [|reflexivity].
  exfalso. apply Hn.
  rewrite List.forallb_forall in E.
  apply list_elem_of_In in Hd. specialize (E _ Hd). cbn in E.
  rewrite List.forallb_forall in E.
  apply list_elem_of_In in Hr. specialize (E _ Hr).
  rewrite List.forallb_forall in E.
  apply list_elem_of_In in Hi. specialize (E _ Hi). cbn in E.
  apply bool_decide_eq_true_1 in E. exact E.
Qed.

End TthCorrection.

(** On [demo_data] with a distortion object for det1 only: ring 0 names
    det2, a detector of the instrument, with an empty array. *)
Lemma tth_correction_missing_object_witness :
  @tth_correction demo
    (with_tth_distortion demo_cal (Some [("det1", 1)]%string))
  = Raise KeyError.
Proof.
  refine (@tth_correction_missing_object demo
            (with_tth_distortion demo_cal (Some [("det1", 1)]%string))
            [("det1", 1)]%string "beam"%string _ _ "det2"%string []
            eq_refl _ _ _ _).
  - left.
  - left.
  - right. left.
  - intros Hin. change ("det2"%string ∈ ["det1"]%string) in Hin.
    rewrite !elem_of_cons, elem_of_nil in Hin. intuition discriminate.
Defined.

End StructurelessRunFacts.

(** ** More facts about hexrd/ipfcolor/sphere_sector.py *)

Module SphereSectorRangeFacts.

Import SphereSector SphereSectorRange SphereSectorFacts.

Local Open Scope R_scope.

(** *** The reference direction of the azimuth *)

Lemma norm_pos_component (x y z : R) :
  x <> 0 \/ y <> 0 \/ z <> 0 -> 0 < norm (x, y, z).
Proof.
  intros Hc. unfold norm. apply sqrt_lt_R0. cbn.
  destruct Hc as [Hc|[Hc|Hc]].
  - assert (0 < x * x) by (destruct (Rtotal_order x 0) as [|[|]]; nra). nra.
  - assert (0 < y * y) by (destruct (Rtotal_order y 0) as [|[|]]; nra). nra.
  - assert (0 < z * z) by (destruct (Rtotal_order z 0) as [|[|]]; nra). nra.
Qed.

Lemma normalized_unit (v : vec3) :
  0 < norm v -> exists n1, normalized v = Some n1 /\ norm n1 = 1.
Proof.
  intros Hv. unfold normalized.
  destruct (Req_dec_T (norm v) 0) as [Hz|_]; [lra|].
  eexists. split; [reflexivity|]. apply norm_vdiv. exact Hv.
Qed.

Lemma cross_vdiv (m rx : vec3) (n : R) :
  n <> 0 -> cross (vdiv m n) rx = vdiv (cross m rx) n.
Proof.
  intros Hn. destruct m as [[m1 m2] m3], rx as [[x1 x2] x3]. cbn.
  repeat f_equal; field; exact Hn.
Qed.

Lemma norm_vdiv_pos (v : vec3) (n : R) :
  0 < n -> 0 < norm v -> 0 < norm (vdiv v n).
Proof.
  intros Hn Hv. unfold norm. apply sqrt_lt_R0.
  rewrite dot_vdiv by lra. apply Rdiv_lt_0_compat; [|nra].
  rewrite <- norm_sqr. nra.
Qed.

Lemma barycenter_axis (r1 r2 r3 : list R) :
  0 < sum r3 -> (0 < length r3)%nat ->
  0 < norm (cross
              (vec3_of (map (fun row => sum row / INR (length row))
                          [r1; r2; r3]))
              (vec3_of (map (fun row => nth 0 row 0) [r1; r2; r3]))) ->
  exists b rx n1,
    barycenter_of [r1; r2; r3] = Ok b /\ col0 [r1; r2; r3] = Ok rx /\
    normalized (cross b rx) = Some n1 /\ norm n1 = 1.
Proof.
  intros Hs Hl Hc. unfold barycenter_of, col0. cbn [mean_axis1].
  set (m := vec3_of (map (fun row => sum row / INR (length row))
                       [r1; r2; r3])) in *.
  set (rx := vec3_of (map (fun row => nth 0 row 0) [r1; r2; r3])) in *.
  assert (Hm : 0 < norm m).
  { unfold m, vec3_of. cbn [map nth]. apply norm_pos_z.
    apply Rdiv_lt_0_compat; [exact Hs|]. apply lt_0_INR. exact Hl. }
  destruct (normalized_unit (cross (vdiv m (norm m)) rx)) as (n1 & Hn1 & Hu).
  { rewrite cross_vdiv by lra. apply norm_vdiv_pos; assumption. }
  exists (vdiv m (norm m)), rx, n1. repeat split; assumption.
Qed.

Lemma sqrt_3_pos : 0 < sqrt 3.
Proof. apply sqrt_lt_R0. lra. Qed.

Ltac axis_tac :=
  intros Hn;
  first
    [ exfalso; apply Hn; reflexivity
    | cbv [e_vertices T transpose map nth seq length hd];
      pose proof (inv_sqrt_pos 2 ltac:(lra));
      pose proof (inv_sqrt_pos 3 ltac:(lra));
      pose proof sqrt_3_pos;
      apply barycenter_axis;
      [ cbv [sum fold_right]; unfold Rdiv; lra
      | cbv [length]; lia
      | cbv [vec3_of map nth sum fold_right length INR cross];
        apply norm_pos_component; unfold Rdiv;
        first [ left; lra | right; left; lra | right; right; lra ] ] ].

Lemma table_axis_ok : Forall entry_axis_ok (map snd pg2vertex).
Proof.
  unfold pg2vertex. cbn [map snd].
  repeat (apply List.Forall_cons; [unfold entry_axis_ok; axis_tac|]).
  apply List.Forall_nil.
Qed.


Lemma dict_get_entry_axis_ok (sym : string) (e : entry) :
  dict_get pg2vertex sym = Ok e -> entry_axis_ok e.
Proof.
  intros Hg.
  assert (Hin : (sym, e) ∈ pg2vertex).
  { apply PyFacts.dict_lookup_Some_elem. unfold dict_lookup. rewrite Hg.
    reflexivity. }
  pose proof table_axis_ok as Ht. rewrite List.Forall_forall in Ht.
  apply Ht. apply list_elem_of_In. apply list_elem_of_fmap.
  exists (sym, e). split; [reflexivity|exact Hin].
Qed.

Lemma sector_init_axes (pgsym lauesym : string) (s : sector) :
  sector_init pgsym lauesym = Ok s -> sector_axes_ok s.
Proof.
  unfold sector_init.
  destruct (dict_get pg2vertex pgsym) as [data|] eqn:Ed; [|discriminate].
  destruct (dict_get pg2vertex lauesym) as [dl|] eqn:El; [|discriminate].
  cbn. pose proof (dict_get_entry_axis_ok _ _ Ed) as Hd.
  pose proof (dict_get_entry_axis_ok _ _ El) as Hl.
  pose proof (dict_get_entry_ok _ _ El) as Hlo.
  destruct (Z.eqb_spec (e_ntriangle data) 0) as [H0|Hn0]; cbn.
  - intros [= <-]. intros Hn. cbn in Hn. contradiction.
  - destruct (Hd Hn0) as (b & rx & n1 & Hb & Hrx & Hn1 & Hu).
    rewrite Hb. cbn.
    destruct Hlo as [[_ Hv]|(Hnl & _)].
    + rewrite Hv. cbn. discriminate.
    + destruct (Hl Hnl) as (bl & rxl & n1l & Hbl & Hrxl & Hn1l & Hul).
      rewrite Hbl. cbn. intros [= <-]. intros _. cbn. split.
      * exists rx, n1. auto.
      * exists rxl, n1l. auto.
Qed.

(** *** Dot products and arc cosines *)

(** Cauchy-Schwarz, from the identity of Lagrange. *)
Lemma dot_sqr_le (a b : vec3) : dot a b * dot a b <= dot a a * dot b b.
Proof.
  assert (H : dot a a * dot b b - dot a b * dot a b
              = dot (cross a b) (cross a b)).
  { destruct a as [[a1 a2] a3], b as [[b1 b2] b3]. cbn. ring. }
  pose proof (dot_self_nonneg (cross a b)). lra.
Qed.

Lemma dot_bound (a b : vec3) :
  norm a <= 1 -> norm b <= 1 -> -1 <= dot a b <= 1.
Proof.
  intros Ha Hb. pose proof (dot_sqr_le a b) as Hcs.
  pose proof (norm_nonneg a). pose proof (norm_nonneg b).
  rewrite <- (norm_sqr a), <- (norm_sqr b) in Hcs.
  assert (norm a * norm a <= 1) by nra.
  assert (norm b * norm b <= 1) by nra.
  assert (dot a b * dot a b <= 1) by nra.
  split; nra.
Qed.

Lemma atan_nonneg (x : R) : 0 <= x -> 0 <= atan x.
Proof.
  intros [Hx|<-]; [|rewrite atan_0; lra].
  left. rewrite <- atan_0. apply atan_increasing. exact Hx.
Qed.

Lemma atan_neg (x : R) : x < 0 -> atan x < 0.
Proof. intros Hx. rewrite <- atan_0. apply atan_increasing. exact Hx. Qed.

Lemma acos_nonneg_arg (x : R) : 0 <= x -> 0 <= acos x <= PI / 2.
Proof.
  intros Hx. split; [apply acos_bound|].
  pose proof PI_RGT_0. unfold acos.
  destruct (Rle_dec x (-1)); [lra|]. destruct (Rle_dec 1 x); [lra|].
  assert (0 <= atan (x / sqrt (1 - x²))); [|lra].
  apply atan_nonneg. apply Rle_mult_inv_pos; [exact Hx|].
  apply sqrt_lt_R0. unfold Rsqr. nra.
Qed.

Lemma acos_neg_arg (x : R) : x < 0 -> PI / 2 < acos x <= PI.
Proof.
  intros Hx. split; [|apply acos_bound].
  pose proof PI_RGT_0. unfold acos.
  destruct (Rle_dec x (-1)); [lra|]. destruct (Rle_dec 1 x); [lra|].
  assert (atan (x / sqrt (1 - x²)) < 0); [|lra].
  apply atan_neg. unfold Rdiv.
  assert (0 < / sqrt (1 - x²)).
  { apply Rinv_0_lt_compat, sqrt_lt_R0. unfold Rsqr. nra. }
  nra.
Qed.

Lemma arctan2_bound (y x : R) : - PI <= arctan2 y x <= PI.
Proof.
  pose proof PI_RGT_0. unfold arctan2.
  destruct (Rlt_dec 0 x) as [Hx|Hx].
  { pose proof (atan_bound (y / x)). lra. }
  destruct (Rlt_dec x 0) as [Hx'|Hx'].
  - assert (Hi : / x < 0) by (apply Rinv_lt_0_compat; exact Hx').
    destruct (Rle_dec 0 y) as [Hy|Hy].
    + pose proof (atan_bound (y / x)).
      assert (atan (y / x) <= 0); [|lra].
      destruct Hy as [Hy|<-].
      * left. apply atan_neg. unfold Rdiv. nra.
      * unfold Rdiv. rewrite Rmult_0_l, atan_0. lra.
    + pose proof (atan_bound (y / x)).
      assert (0 <= atan (y / x)); [|lra].
      apply atan_nonneg. unfold Rdiv. nra.
  - destruct (Rlt_dec 0 y); [lra|]. destruct (Rlt_dec y 0); lra.
Qed.

Lemma fold_left_Rmax_in (ps : list R) (p : R) :
  In (fold_left Rmax ps p) (p :: ps).
Proof.
  revert p. induction ps as [|q ps IH]; intros p; [left; reflexivity|].
  cbn [fold_left]. destruct (IH (Rmax p q)) as [H|H].
  - destruct (Rle_dec p q) as [Hle|Hgt].
    + right. left. rewrite <- H. symmetry. apply Rmax_right. exact Hle.
    + left. rewrite <- H. symmetry. apply Rmax_left. lra.
  - right. right. exact H.
Qed.

Lemma zip_maps {A B C} (F : A -> B) (G : A -> C) (l : list A) :
  zip (map F l) (map G l) = map (fun x => (F x, G x)) l.
Proof. induction l as [|x l IH]; cbn; [reflexivity|]. f_equal. exact IH. Qed.

Lemma zip_with_maps {A B C D} (h : B -> C -> D) (F : A -> B) (G : A -> C)
    (l : list A) :
  zip_with h (map F l) (map G l) = map (fun x => h (F x) (G x)) l.
Proof. induction l as [|x l IH]; cbn; [reflexivity|]. f_equal. exact IH. Qed.

Lemma lightness_of_range (t : R) :
  0 <= t <= PI -> 0 <= lightness_of t <= 1.
Proof.
  intros Ht. unfold lightness_of. pose proof PI_RGT_0 as Hpi.
  assert (H1 : 0 <= t / PI <= 1).
  { split.
    - apply Rle_mult_inv_pos; lra.
    - apply (Rmult_le_reg_r PI); [lra|]. unfold Rdiv.
      rewrite Rmult_assoc, Rinv_l by lra. lra. }
  pose proof (SIN_bound (t / 2)) as Hs.
  assert (H2 : 0 <= sin (t / 2) ^ 2 <= 1) by (cbn; nra).
  lra.
Qed.

Lemma saturation_of_range (l : R) :
  0 <= l <= 1 -> 3 / 4 <= saturation_of l <= 1.
Proof.
  intros Hl. unfold saturation_of.
  pose proof (Rabs_pos (l - 0.5)).
  assert (Rabs (l - 0.5) <= 0.5) by (apply Rabs_le; lra).
  lra.
Qed.

Lemma lightness_of_PI : lightness_of PI = 0.
Proof.
  unfold lightness_of. pose proof PI_RGT_0.
  replace (PI / PI) with 1 by (field; lra).
  rewrite sin_PI2. lra.
Qed.

Lemma saturation_of_0 : saturation_of 0 = 0.75.
Proof.
  unfold saturation_of. rewrite Rabs_left by lra. lra.
Qed.

(** *** The azimuth and the hue *)

Section Hue.

Variable np_dot : vec3 -> vec3 -> R.

(** The azimuth of one row, when it is a number: it lies in the first or
    in the last quarter of the turn. *)
Lemma azimuth_row_range (n1 : option vec3) (v : vec3) (rho : R) :
  azimuth_row np_dot n1 v = Some rho ->
  0 <= rho <= PI / 2 \/ 3 * (PI / 2) < rho <= 2 * PI.
Proof.
  unfold azimuth_row.
  destruct (match Rgt_dec (norm v) eps with
            | left _ => n1 ≫= (fun n => Some (np_dot n (vdiv v (norm v))))
            | right _ => Some 0
            end) as [dp|] eqn:Edp.
  - destruct (Rgt_dec (norm v) eps); rewrite Edp; cbn;
      (destruct (np_arccos dp) as [a|] eqn:Ea; [|discriminate]; cbn;
       apply np_arccos_Some in Ea as [Hd ->]; intros [= <-];
       destruct (Rlt_dec dp 0) as [Hneg|Hpos];
       [ pose proof (acos_neg_arg _ Hneg); right; lra
       | pose proof (acos_nonneg_arg dp ltac:(lra)); left; lra ]).
  - destruct (Rgt_dec (norm v) eps); rewrite Edp; discriminate.
Qed.

(** The azimuth of one row is a number when the dot product of the two
    unit normals stays in the domain of the arc cosine. *)
Lemma azimuth_row_number (n1 v : vec3) :
  stays_in_domain np_dot -> norm n1 = 1 ->
  exists rho, azimuth_row np_dot (Some n1) v = Some rho.
Proof.
  intros Hdom Hn. unfold azimuth_row. cbn.
  destruct (Rgt_dec (norm v) eps) as [Hm|Hm]; cbn.
  - rewrite np_arccos_in.
    + cbn. eexists. reflexivity.
    + apply Hdom; [exact Hn|]. apply norm_vdiv.
      pose proof eps_pos. unfold Rgt in Hm. lra.
  - rewrite np_arccos_in by lra. cbn. eexists. reflexivity.
Qed.

(** [calc_azi_rho] works row by row on the normalised array; an azimuth
    that is a number lies in the turn, and for a group with triangles in
    its first or in its last quarter; every azimuth is a number for a
    group without triangles, and for any group when the dot products stay
    in the domain of the arc cosine. *)
Lemma calc_azi_rho_range (s : sector) (ls : bool) :
  sector_ok s -> sector_axes_ok s ->
  exists f : vec3 -> option R,
    (forall d, fst (calc_azi_rho np_dot {| self := s; dir3 := d |} ls)
               = Ok (map f (map unit_row d))) /\
    (forall v rho, f v = Some rho ->
       0 <= rho <= 2 * PI /\
       (ntriangle s <> 0%Z ->
        0 <= rho <= PI / 2 \/ 3 * (PI / 2) < rho <= 2 * PI)) /\
    (ntriangle s = 0%Z \/ stays_in_domain np_dot ->
     forall v, exists rho, f v = Some rho).
Proof.
  intros Hok Hax. destruct Hok as (_ & _ & H0 & Hn0).
  unfold calc_azi_rho. cbn [self dir3 check_norm].
  pose proof PI_RGT_0 as Hpi.
  destruct (Z.eqb_spec (ntriangle s) 0) as [Hz|Hnz]; cbn [negb].
  - exists (fun d : vec3 => let '(x, y, _) := d in Some (arctan2 y x + PI)).
    split; [intros d; destruct ls; reflexivity|]. split.
    + intros [[x y] z] rho [= <-].
      pose proof (arctan2_bound y x). split; [lra|]. contradiction.
    + intros _ [[x y] z]. eexists. reflexivity.
  - destruct (Hax Hnz) as [(rx & n1 & Hrx & Hn1 & Hu)
                             (rxl & n1l & Hrxl & Hn1l & Hul)].
    destruct ls; cbn [negb].
    + rewrite Hrxl. cbn. rewrite Hn1l.
      exists (fun v =>
                azimuth_row np_dot (Some n1l) (cross (barycenter_laue s) v)).
      split; [intros d; rewrite (map_map (cross _)); reflexivity|]. split.
      * intros v rho Hr. pose proof (azimuth_row_range _ _ _ Hr) as Hq.
        split; [lra|]. intros _. exact Hq.
      * intros [Hc|Hdom] v; [contradiction|].
        apply azimuth_row_number; assumption.
    + rewrite Hrx. cbn. rewrite Hn1.
      exists (fun v =>
                azimuth_row np_dot (Some n1) (cross (barycenter s) v)).
      split; [intros d; rewrite (map_map (cross _)); reflexivity|]. split.
      * intros v rho Hr. pose proof (azimuth_row_range _ _ _ Hr) as Hq.
        split; [lra|]. intros _. exact Hq.
      * intros [Hc|Hdom] v; [contradiction|].
        apply azimuth_row_number; assumption.
Qed.

(** The hue of an azimuth of the turn. *)
Lemma hue_of_azimuth (rho : R) :
  0 <= rho <= 2 * PI ->
  unit_interval (rho / 2 / PI) /\
  (0 <= rho <= PI / 2 \/ 3 * (PI / 2) < rho <= 2 * PI ->
   outer_quarters (rho / 2 / PI)).
Proof.
  intros Hb. pose proof PI_RGT_0 as Hpi.
  assert (Hh : rho / 2 / PI = rho * / (2 * PI)) by (field; lra).
  assert (Hi2 : 0 < / (2 * PI)) by (apply Rinv_0_lt_compat; lra).
  assert (H1 : 2 * PI * / (2 * PI) = 1) by (field; lra).
  assert (Hq1 : PI / 2 * / (2 * PI) = 1 / 4) by (field; lra).
  assert (Hq3 : 3 * (PI / 2) * / (2 * PI) = 3 / 4) by (field; lra).
  rewrite Hh. split.
  - unfold unit_interval. split; nra.
  - unfold outer_quarters. intros [Hlo|Hhi]; [left|right]; split; nra.
Qed.

End Hue.

(** The exact dot product stays in the domain of the arc cosine. *)
Lemma dot_stays_in_domain : stays_in_domain dot.
Proof. intros a b Ha Hb. apply dot_bound; lra. Qed.

(** X13: for every sector the constructor returns, every dot product
    routine and every batch of directions, [calc_hue] returns one hue per
    direction.  A hue is a number of [0, 1] or no number at all; for a
    group with triangles a hue that is a number never lies strictly
    between 1/4 and 3/4 (the azimuth is the arc cosine of a dot product,
    in [0, pi/2] when that is not negative and moved by pi when it is).
    Every hue is a number for a group without triangles, and for any group
    when rounding does not take the dot product of two unit vectors out of
    [-1, 1]. *)
Theorem hue_range (np_dot : vec3 -> vec3 -> R) (pgsym lauesym : string)
    (s : sector) (laueswitch : bool) (d : list vec3) :
  sector_init pgsym lauesym = Ok s ->
  exists H,
    fst (calc_hue np_dot {| self := s; dir3 := d |} laueswitch) = Ok H /\
    length H = length d /\
    (forall i h, H !! i = Some (Some h) ->
       unit_interval h /\ (ntriangle s <> 0%Z -> outer_quarters h)) /\
    (ntriangle s = 0%Z \/ stays_in_domain np_dot ->
     forall i, (i < length d)%nat -> exists h, H !! i = Some (Some h)).
Proof.
  intros Hs. pose proof (sector_init_ok _ _ _ Hs) as Hok.
  pose proof (sector_init_axes _ _ _ Hs) as Hax.
  destruct (calc_azi_rho_range np_dot s laueswitch Hok Hax)
    as (f & Hf & Hrange & Hnum).
  unfold calc_hue. rewrite calc_azi_rho_eta, Hf. cbn [fst Py.bind].
  eexists. split; [reflexivity|]. split; [rewrite !length_map; reflexivity|].
  split.
  - intros i h Hi. rewrite !lookup_map in Hi.
    destruct (d !! i) as [v|]; [|discriminate]. cbn in Hi.
    destruct (f (unit_row v)) as [rho|] eqn:Er; [|discriminate].
    cbn in Hi. injection Hi as <-.
    destruct (Hrange _ _ Er) as [Hb Hq].
    destruct (hue_of_azimuth rho Hb) as [Hu Ho].
    split; [exact Hu|]. intros Hn. apply Ho, Hq, Hn.
  - intros Hc i Hi. destruct (lookup_lt_is_Some_2 d i Hi) as [v Hv].
    destruct (Hnum Hc (unit_row v)) as [rho Hr].
    exists (rho / 2 / PI). rewrite !lookup_map, Hv. cbn. rewrite Hr.
    reflexivity.
Qed.

Lemma hue_range_witness :
  exists H,
    fst (calc_hue dot {| self := sector_c1; dir3 := batch_c1 |} false)
    = Ok H /\
    length H = 2%nat /\
    forall i, (i < 2)%nat -> exists h, H !! i = Some (Some h).
Proof.
  destruct (hue_range dot "c1" "ci" sector_c1 false batch_c1 sector_init_c1)
    as (H & Hc & Hl & _ & Hn).
  exists H. split; [exact Hc|]. split; [exact Hl|].
  apply Hn. right. exact dot_stays_in_domain.
Defined.

(** *** The polar angle, the lightness and the saturation *)

(** A list of floats holds a nan, or numbers only. *)
Lemma numbers_or_nan (l : list (option R)) :
  (exists xs, l = map Some xs) \/ None ∈ l.
Proof.
  induction l as [|[x|] l IH].
  - left. exists []. reflexivity.
  - destruct IH as [[xs ->]|Hn].
    + left. exists (x :: xs). reflexivity.
    + right. right. exact Hn.
  - right. left.
Qed.

Lemma fold_nan_max_nan (ps : list (option R)) (p : option R) :
  None ∈ p :: ps -> fold_left nan_max ps p = None.
Proof.
  revert p. induction ps as [|q ps IH]; intros p Hn.
  - apply list_elem_of_singleton in Hn. subst p. reflexivity.
  - cbn [fold_left]. apply IH.
    apply elem_of_cons in Hn as [<-|Hn]; [left|].
    apply elem_of_cons in Hn as [<-|Hn].
    + replace (nan_max p None) with (@None R) by (destruct p; reflexivity).
      left.
    + right. exact Hn.
Qed.

Section Polar.

Variable np_dot : vec3 -> vec3 -> R.

Lemma polar_angle_bound (s : sector) (ls : bool) (r : vec3) (a : R) :
  polar_angle np_dot s ls r = Some a -> 0 <= a <= PI.
Proof.
  unfold polar_angle. intros Ha. apply np_arccos_Some in Ha as [_ ->].
  apply acos_bound.
Qed.

(** The maximum of a batch: no number exactly when one polar angle is no
    number; otherwise the largest polar angle, which one row attains. *)
Lemma polar_max_spec (s : sector) (ls : bool) (r0 : vec3)
    (rest : list vec3) :
  (polar_max np_dot s ls r0 rest = None /\
   exists r, r ∈ r0 :: rest /\ polar_angle np_dot s ls r = None) \/
  (exists m,
     polar_max np_dot s ls r0 rest = Some m /\
     (forall r, r ∈ r0 :: rest ->
        exists a, polar_angle np_dot s ls r = Some a /\ a <= m) /\
     exists r, r ∈ r0 :: rest /\ polar_angle np_dot s ls r = Some m).
Proof.
  unfold polar_max.
  destruct (numbers_or_nan (map (polar_angle np_dot s ls) (r0 :: rest)))
    as [[xs Hxs]|Hn].
  - right. destruct xs as [|x xs]; [discriminate|].
    cbn [map] in Hxs. injection Hxs as H0 Hrest.
    rewrite H0, Hrest, fold_nan_max_Some. eexists. split; [reflexivity|].
    destruct (fold_left_Rmax_ge xs x) as [G1 G2].
    assert (Hall : forall r, r ∈ rest ->
              exists a, polar_angle np_dot s ls r = Some a /\ In a xs).
    { intros r Hr.
      assert (Hin : polar_angle np_dot s ls r
                    ∈ map (polar_angle np_dot s ls) rest)
        by (apply list_elem_of_In, in_map, list_elem_of_In, Hr).
      rewrite Hrest in Hin. apply list_elem_of_In, in_map_iff in Hin
        as (a & Ha & Hin).
      exists a. split; [symmetry; exact Ha|exact Hin]. }
    split.
    + intros r Hr. apply elem_of_cons in Hr as [->|Hr].
      * exists x. split; [exact H0|exact G1].
      * destruct (Hall r Hr) as (a & Ha & Hin).
        exists a. split; [exact Ha|apply G2, Hin].
    + destruct (fold_left_Rmax_in xs x) as [Hm|Hm].
      * exists r0. split; [left|]. rewrite H0. f_equal. exact Hm.
      * assert (Hin : Some (fold_left Rmax xs x)
                      ∈ map (polar_angle np_dot s ls) rest).
        { rewrite Hrest. apply list_elem_of_In, in_map. exact Hm. }
        apply list_elem_of_In, in_map_iff in Hin as (r & Hr & Hin).
        exists r. split; [right; apply list_elem_of_In; exact Hin|exact Hr].
  - left. split.
    + apply fold_nan_max_nan. exact Hn.
    + apply list_elem_of_In, in_map_iff in Hn as (r & Hr & Hin).
      exists r. split; [apply list_elem_of_In; exact Hin|exact Hr].
Qed.

Lemma calc_pol_theta_rows (s : sector) (ls : bool) (r0 : vec3)
    (rest : list vec3) :
  fst (calc_pol_theta np_dot {| self := s; dir3 := r0 :: rest |} ls)
  = Ok (map (fun r =>
               p ← polar_angle np_dot s ls r;
               m ← polar_max np_dot s ls r0 rest;
               Np.divide (p * PI) m)
          (r0 :: rest)).
Proof.
  unfold calc_pol_theta. cbn [self dir3 check_norm].
  fold (active_barycenter s ls). cbn [map fst].
  rewrite !map_map. reflexivity.
Qed.

Lemma calc_pol_theta_empty (s : sector) (ls : bool) :
  fst (calc_pol_theta np_dot {| self := s; dir3 := [] |} ls)
  = Raise ValueError.
Proof. reflexivity. Qed.

(** [get_color], row by row: the color of a row depends on the row, as
    [calc_hue] has normalised it, and on the largest polar angle of the
    batch. *)
Lemma get_color_rows (s : sector) (ls : bool) :
  sector_ok s -> sector_axes_ok s ->
  exists f : vec3 -> option R,
    (forall v rho, f v = Some rho -> 0 <= rho <= 2 * PI) /\
    forall r0 rest,
      fst (get_color np_dot {| self := s; dir3 := r0 :: rest |} ls)
      = Ok (map (fun r =>
                   color_of (f (unit_row r))
                     (polar_angle np_dot s ls (unit_row r))
                     (polar_max np_dot s ls (unit_row r0)
                        (map unit_row rest)))
              (r0 :: rest)).
Proof.
  intros Hok Hax.
  destruct (calc_azi_rho_range np_dot s ls Hok Hax) as (f & Hf & Hrange & _).
  exists f. split; [intros v rho Hr; apply (Hrange v rho Hr)|].
  intros r0 rest.
  pose proof (calc_pol_theta_rows s ls (unit_row r0) (map unit_row rest))
    as Ht.
  rewrite (get_color_fst np_dot _ _ _ _ (Hf (r0 :: rest)) Ht).
  f_equal. change (unit_row r0 :: map unit_row rest)
    with (map unit_row (r0 :: rest)).
  rewrite !map_map, zip_maps, zip_with_maps. reflexivity.
Qed.

(** The saturation and the lightness of a row, from its polar angle and
    the maximum of the batch, both numbers. *)
Lemma color_of_range (rho : option R) (pol pmax : R) :
  0 <= pol <= pmax ->
  let '(_, sat, l) := color_of rho (Some pol) (Some pmax) in
  (pmax = 0 /\ sat = None /\ l = None) \/
  (0 < pmax /\
   exists sv lv,
     sat = Some sv /\ l = Some lv /\ unit_interval lv /\ 3 / 4 <= sv <= 1).
Proof.
  intros Hp. unfold color_of. cbn [mbind option_bind]. unfold Np.divide.
  destruct (Req_dec_T pmax 0) as [Hz|Hnz]; cbn; [left; auto|].
  right. split; [lra|]. eexists _, _. split; [reflexivity|].
  split; [reflexivity|]. pose proof PI_RGT_0 as Hpi.
  assert (Ht : 0 <= pol * PI / pmax <= PI).
  { split.
    - apply Rle_mult_inv_pos; nra.
    - apply (Rmult_le_reg_r pmax); [lra|]. unfold Rdiv.
      rewrite Rmult_assoc, Rinv_l by lra. nra. }
  pose proof (lightness_of_range _ Ht) as Hl.
  split; [exact Hl|]. apply saturation_of_range. exact Hl.
Qed.

End Polar.

Lemma elem_of_map_unit_row (r' : vec3) (d : list vec3) :
  r' ∈ map unit_row d <-> exists r, r ∈ d /\ r' = unit_row r.
Proof.
  split.
  - intros Hr. apply list_elem_of_In, in_map_iff in Hr as (r & <- & Hin).
    exists r. split; [apply list_elem_of_In; exact Hin|reflexivity].
  - intros (r & Hr & ->). apply list_elem_of_In, in_map, list_elem_of_In, Hr.
Qed.

(** X14: for every sector the constructor returns and every dot product
    routine, [get_color] on an empty batch raises [ValueError] (the
    maximum of no polar angle), and on any other batch returns one row per
    direction.  A hue that is a number lies in [0, 1].  The lightness and
    the saturation are numbers for every row or for none: for none when
    the dot product of one row with the barycenter falls outside [-1, 1]
    (its arc cosine is no number, and neither is the maximum the angles
    are divided by) or when every direction lies at polar angle 0;
    otherwise they are numbers of [0, 1] and of [3/4, 1]. *)
Theorem color_ranges (np_dot : vec3 -> vec3 -> R) (pgsym lauesym : string)
    (s : sector) (laueswitch : bool) (d : list vec3) :
  sector_init pgsym lauesym = Ok s ->
  let angle (r : vec3) := polar_angle np_dot s laueswitch (unit_row r) in
  match d with
  | [] =>
      fst (get_color np_dot {| self := s; dir3 := d |} laueswitch)
      = Raise ValueError
  | _ =>
      exists hsl,
        fst (get_color np_dot {| self := s; dir3 := d |} laueswitch)
        = Ok hsl /\
        length hsl = length d /\
        forall i h sat l, hsl !! i = Some (h, sat, l) ->
          (forall hv, h = Some hv -> unit_interval hv) /\
          ((sat = None /\ l = None /\
            ((exists r, r ∈ d /\ angle r = None) \/
             (forall r, r ∈ d -> angle r = Some 0))) \/
           (exists sv lv,
              sat = Some sv /\ l = Some lv /\ unit_interval lv /\
              3 / 4 <= sv <= 1 /\
              (forall r, r ∈ d -> exists a, angle r = Some a) /\
              exists r a, r ∈ d /\ angle r = Some a /\ 0 < a))
  end.
Proof.
  intros Hs angle. pose proof (sector_init_ok _ _ _ Hs) as Hok.
  pose proof (sector_init_axes _ _ _ Hs) as Hax.
  destruct d as [|r0 rest].
  - unfold get_color, calc_hue, calc_lightness.
    rewrite calc_azi_rho_eta.
    destruct (calc_azi_rho_range np_dot s laueswitch Hok Hax)
      as (f & Hf & _).
    rewrite Hf. cbn [map Py.bind check_norm self dir3].
    rewrite calc_pol_theta_eta.
    change (check_norm {| self := s; dir3 := [] |})
      with {| self := s; dir3 := [] |}.
    rewrite calc_pol_theta_empty. reflexivity.
  - destruct (get_color_rows np_dot s laueswitch Hok Hax)
      as (f & Hrange & Hrows).
    eexists. split; [apply Hrows|]. split; [apply length_map|].
    intros i h sat l Hi. rewrite lookup_map in Hi.
    destruct ((r0 :: rest) !! i) as [r|] eqn:Er; [|discriminate].
    cbn [fmap option_fmap option_map] in Hi. apply (inj Some) in Hi.
    apply list_elem_of_lookup_2 in Er. split.
    { intros hv ->. unfold color_of in Hi. injection Hi as Hh _ _.
      destruct (f (unit_row r)) as [rho|] eqn:Ef; [|discriminate].
      cbn in Hh. injection Hh as <-.
      exact (proj1 (hue_of_azimuth rho (Hrange _ _ Ef))). }
    fold (angle r) in Hi.
    destruct (polar_max_spec np_dot s laueswitch (unit_row r0)
                (map unit_row rest))
      as [(Hmax & r' & Hr' & Hnan)|(m & Hmax & Hle & r' & Hr' & Hatt)];
      rewrite Hmax in Hi;
      change (unit_row r0 :: map unit_row rest)
        with (map unit_row (r0 :: rest)) in *;
      apply elem_of_map_unit_row in Hr' as (q & Hq & ->).
    + left. unfold color_of in Hi.
      replace (angle r ≫=
                 (fun p => None ≫= (fun m => Np.divide (p * PI) m)))
        with (@None R) in Hi by (destruct (angle r); reflexivity).
      injection Hi as _ <- <-. split; [reflexivity|]. split; [reflexivity|].
      left. exists q. split; [exact Hq|exact Hnan].
    + assert (Hall : forall x, x ∈ r0 :: rest ->
                exists a, angle x = Some a /\ 0 <= a <= m).
      { intros x Hx.
        destruct (Hle (unit_row x)) as (a & Ha & Ham).
        { apply elem_of_map_unit_row. exists x. auto. }
        exists a. split; [exact Ha|].
        pose proof (polar_angle_bound np_dot _ _ _ _ Ha). lra. }
      destruct (Hall r Er) as (a & Ha & Hb).
      rewrite Ha in Hi.
      pose proof (color_of_range (f (unit_row r)) a m Hb) as Hc.
      rewrite Hi in Hc.
      destruct Hc as [(Hz & -> & ->)|(Hpos & sv & lv & -> & -> & Hl & Hsv)].
      * left. split; [reflexivity|]. split; [reflexivity|]. right.
        intros x Hx. destruct (Hall x Hx) as (a' & Ha' & Hb').
        rewrite Ha'. f_equal. lra.
      * right. exists sv, lv.
        split; [reflexivity|]. split; [reflexivity|]. split; [exact Hl|].
        split; [exact Hsv|]. split.
        -- intros x Hx. destruct (Hall x Hx) as (a' & Ha' & _).
           exists a'. exact Ha'.
        -- exists q, m. split; [exact Hq|]. split; [exact Hatt|exact Hpos].
Qed.

Lemma color_ranges_witness :
  exists hsl,
    fst (get_color dot {| self := sector_c1; dir3 := batch_c1 |} false)
    = Ok hsl /\
    length hsl = 2%nat.
Proof.
  destruct (color_ranges dot "c1" "ci" sector_c1 false batch_c1
              sector_init_c1)
    as (hsl & Hc & Hl & _).
  exists hsl. split; [exact Hc|exact Hl].
Defined.

(** X15: in any batch whose polar angles are all numbers, a direction
    whose polar angle is the largest of the batch and not 0 is colored
    with lightness 0 and saturation 0.75, wherever it lies: the polar
    angles are rescaled so that the largest one of the batch becomes pi.
    In particular a batch of one direction away from the barycenter is
    colored black. *)
Theorem farthest_direction_is_black (np_dot : vec3 -> vec3 -> R)
    (pgsym lauesym : string) (s : sector) (laueswitch : bool)
    (d : list vec3) (j : nat) (dj : vec3) (a : R) :
  sector_init pgsym lauesym = Ok s ->
  let angle (r : vec3) := polar_angle np_dot s laueswitch (unit_row r) in
  d !! j = Some dj ->
  angle dj = Some a -> 0 < a ->
  (forall r, r ∈ d -> exists a', angle r = Some a' /\ a' <= a) ->
  exists hsl h,
    fst (get_color np_dot {| self := s; dir3 := d |} laueswitch) = Ok hsl /\
    hsl !! j = Some (h, Some 0.75, Some 0).
Proof.
  intros Hs angle Hj Ha Hpos Hfar. pose proof (sector_init_ok _ _ _ Hs) as Hok.
  pose proof (sector_init_axes _ _ _ Hs) as Hax.
  destruct d as [|r0 rest]; [discriminate|].
  destruct (get_color_rows np_dot s laueswitch Hok Hax) as (f & _ & Hrows).
  assert (Hpm : polar_max np_dot s laueswitch (unit_row r0)
                  (map unit_row rest) = Some a).
  { destruct (polar_max_spec np_dot s laueswitch (unit_row r0)
                (map unit_row rest))
      as [(_ & r' & Hr' & Hnan)|(m & Hmax & Hle & r' & Hr' & Hatt)];
      change (unit_row r0 :: map unit_row rest)
        with (map unit_row (r0 :: rest)) in *;
      apply elem_of_map_unit_row in Hr' as (q & Hq & ->).
    - destruct (Hfar q Hq) as (a' & Ha' & _). unfold angle in Ha'.
      rewrite Hnan in Ha'. discriminate.
    - rewrite Hmax. f_equal. apply Rle_antisym.
      + destruct (Hfar q Hq) as (a' & Ha' & Hle'). unfold angle in Ha'.
        rewrite Hatt in Ha'. injection Ha' as <-. exact Hle'.
      + destruct (Hle (unit_row dj)) as (a' & Ha' & Hle').
        { apply elem_of_map_unit_row. exists dj.
          split; [eapply list_elem_of_lookup_2; exact Hj|reflexivity]. }
        unfold angle in Ha. rewrite Ha in Ha'. injection Ha' as <-.
        exact Hle'. }
  eexists _, (option_map (fun r => r / 2 / PI) (f (unit_row dj))).
  split; [apply Hrows|].
  rewrite lookup_map, Hj. cbn [fmap option_fmap option_map].
  unfold color_of. rewrite Hpm. fold (angle dj). rewrite Ha.
  cbn [mbind option_bind]. unfold Np.divide.
  destruct (Req_dec_T a 0) as [Hz|_]; [lra|].
  cbn [option_map].
  replace (a * PI / a) with PI by (field; lra).
  rewrite lightness_of_PI, saturation_of_0. reflexivity.
Qed.

Lemma batch_c1_polar :
  polar_angle dot sector_c1 false (unit_row (1, 0, 0)) = Some (PI / 2).
Proof.
  unfold polar_angle. rewrite !(unit_row_of_unit _ norm_100). cbn.
  replace (0 * 1 + 0 * 0 + 1 * 0) with 0 by lra.
  rewrite np_arccos_in by lra. rewrite acos_0. reflexivity.
Qed.

Lemma farthest_direction_is_black_witness :
  exists hsl h,
    fst (get_color dot {| self := sector_c1; dir3 := [(1, 0, 0)] |} false)
    = Ok hsl /\
    hsl !! 0%nat = Some (h, Some 0.75, Some 0).
Proof.
  apply (farthest_direction_is_black dot "c1" "ci" sector_c1 false
           [(1, 0, 0)] 0 (1, 0, 0) (PI / 2) sector_init_c1 eq_refl
           batch_c1_polar).
  - pose proof PI_RGT_0. lra.
  - intros r Hr. apply list_elem_of_singleton in Hr. subst r.
    exists (PI / 2). split; [exact batch_c1_polar|lra].
Defined.

(** *** The constructor *)

Lemma dict_get_raise {V} (d : dict V) (k : string) (e : exn) :
  dict_get d k = Raise e -> e = KeyError.
Proof.
  induction d as [|[k0 v0] d IH]; cbn.
  - intros [= <-]. reflexivity.
  - destruct (String.eqb k0 k); [discriminate|exact IH].
Qed.

(** X16: the constructor returns exactly when both symbols are keys of the
    table and the Laue group has triangles if the point group has; then the
    sector has the triangle count of the point group and two barycenters of
    norm 1.  An unknown symbol raises [KeyError]; a point group with
    triangles together with a Laue group without raises [ValueError], from
    the mean of no vertex. *)
Theorem sector_init_defined (pgsym lauesym : string) :
  match dict_get pg2vertex pgsym, dict_get pg2vertex lauesym with
  | Ok e, Ok el =>
      if ((e_ntriangle e =? 0)%Z || negb (e_ntriangle el =? 0)%Z)%bool
      then exists s,
             sector_init pgsym lauesym = Ok s /\
             ntriangle s = e_ntriangle e /\
             ntriangle_laue s = e_ntriangle el /\
             norm (barycenter s) = 1 /\ norm (barycenter_laue s) = 1
      else sector_init pgsym lauesym = Raise ValueError
  | _, _ => sector_init pgsym lauesym = Raise KeyError
  end.
Proof.
  unfold sector_init.
  destruct (dict_get pg2vertex pgsym) as [e|x] eqn:Ed;
    [|rewrite (dict_get_raise _ _ _ Ed); reflexivity].
  destruct (dict_get pg2vertex lauesym) as [el|x] eqn:El;
    [|rewrite (dict_get_raise _ _ _ El); reflexivity].
  cbn [mbind result_bind Py.bind].
  pose proof (dict_get_entry_ok _ _ Ed) as He.
  pose proof (dict_get_entry_ok _ _ El) as Hel.
  destruct (Z.eqb_spec (e_ntriangle e) 0) as [H0|Hn0]; cbn [negb orb].
  - eexists. split; [reflexivity|]. cbn. rewrite norm_001. auto.
  - destruct He as [[H0 _]|(_ & _ & b & Hb & Hnb)]; [contradiction|].
    rewrite Hb. unfold mbind, result_bind. cbn [Py.bind].
    destruct (Z.eqb_spec (e_ntriangle el) 0) as [Hl0|Hln0]; cbn [negb].
    + destruct Hel as [[_ Hv]|(Hc & _)]; [|contradiction].
      rewrite Hv. reflexivity.
    + destruct Hel as [[Hc _]|(_ & _ & bl & Hbl & Hnbl)]; [contradiction|].
      rewrite Hbl. cbn [Py.bind]. eexists. split; [reflexivity|]. cbn. auto.
Qed.

(** *** [hue_speed] *)

Lemma exp_nonpos (x : R) : x <= 0 -> 0 < exp x <= 1.
Proof.
  intros Hx. split; [apply exp_pos|]. rewrite <- exp_0.
  destruct Hx as [Hx | ->]; [left; apply exp_increasing; exact Hx|right; reflexivity].
Qed.

(** X17: [hue_speed] is an even function of the azimuth, and its values
    lie above 0.5 and below 3.5: the constant 0.5 plus three exponentials
    of non-positive arguments, of which at most one is 1. *)
Theorem hue_speed_even_bounded (rho : R) :
  hue_speed (- rho) = hue_speed rho /\ 0.5 < hue_speed rho < 3.5.
Proof.
  unfold hue_speed. split.
  - replace (- (4 / 7) * (- rho) ^ 2) with (- (4 / 7) * rho ^ 2) by ring.
    replace (- (4 / 7) * (- rho - 2 * PI / 3) ^ 2)
      with (- (4 / 7) * (rho + 2 * PI / 3) ^ 2) by ring.
    replace (- (4 / 7) * (- rho + 2 * PI / 3) ^ 2)
      with (- (4 / 7) * (rho - 2 * PI / 3) ^ 2) by ring.
    ring.
  - pose proof PI_RGT_0 as Hpi.
    pose proof (pow2_ge_0 rho) as Pa.
    pose proof (pow2_ge_0 (rho - 2 * PI / 3)) as Pb.
    pose proof (pow2_ge_0 (rho + 2 * PI / 3)) as Pc.
    pose proof (exp_nonpos (- (4 / 7) * rho ^ 2) ltac:(lra)) as Ea.
    pose proof (exp_nonpos (- (4 / 7) * (rho - 2 * PI / 3) ^ 2) ltac:(lra))
      as Eb.
    pose proof (exp_nonpos (- (4 / 7) * (rho + 2 * PI / 3) ^ 2) ltac:(lra))
      as Ec.
    split; [lra|].
    assert (Hsq : forall x, x <> 0 -> 0 < x ^ 2).
    { intros x Hx. replace (x ^ 2) with (x * x) by ring.
      destruct (Rtotal_order x 0) as [|[|]]; nra. }
    assert (Hstrict : exp (- (4 / 7) * rho ^ 2) < 1
                      \/ exp (- (4 / 7) * (rho - 2 * PI / 3) ^ 2) < 1).
    { destruct (Req_dec_T rho 0) as [-> | Hr].
      - right. rewrite <- exp_0. apply exp_increasing.
        pose proof (Hsq (0 - 2 * PI / 3) ltac:(lra)). lra.
      - left. rewrite <- exp_0. apply exp_increasing.
        pose proof (Hsq rho Hr). lra. }
    lra.
Qed.

End SphereSectorRangeFacts.
(** ** More facts about hexrd/instrument/cylindrical_detector.py *)

Module CylindricalAnglesFacts.

Import CylindricalAngles.

Local Open Scope R_scope.

(** *** The branch-cut fix *)

Lemma fix_entry_cases (g : R) :
  fix_entry g <= Rabs (g - PI) /\ fix_entry g <= Rabs g /\
  fix_entry g <= Rabs (g + PI) /\
  (fix_entry g = Rabs (g - PI) \/ fix_entry g = Rabs g \/
   fix_entry g = Rabs (g + PI)).
Proof.
  unfold fix_entry, Rmin.
  repeat destruct (Rle_dec _ _); repeat split; try lra; auto.
Qed.

(** X18: [_fix_branch_cut_in_gradients] keeps the shape of the array and
    replaces every entry [g] by its distance to the nearest of [-pi], [0]
    and [pi]: a value between 0 and [|g|] that does not depend on the sign
    of [g]; an entry within [pi/2] of 0 becomes its absolute value, an
    entry within [pi/2] of [pi] or of [-pi] (a small gradient [d] that a
    wrap of the angle moved by [pi]) becomes the absolute value of the
    difference, and no entry of absolute value up to [3 pi/2] comes out
    above [pi/2]. *)
Theorem branch_cut_fix (pgarray : list (list R)) :
  let out := _fix_branch_cut_in_gradients pgarray in
  length out = length pgarray /\
  (forall r c : nat,
     out !! r ≫= (fun row => row !! c)
     = fix_entry <$> (pgarray !! r ≫= (fun row => row !! c))) /\
  forall g : R,
    0 <= fix_entry g <= Rabs g /\
    fix_entry (- g) = fix_entry g /\
    (Rabs g <= PI / 2 -> fix_entry g = Rabs g) /\
    (forall d, Rabs d <= PI / 2 ->
       fix_entry (d + PI) = Rabs d /\ fix_entry (d - PI) = Rabs d) /\
    (Rabs g <= 3 * (PI / 2) -> fix_entry g <= PI / 2).
Proof.
  intros out. unfold out, _fix_branch_cut_in_gradients.
  split; [apply length_map|]. split.
  - intros r c. change (map ?f ?l) with (f <$> l).
    rewrite list_lookup_fmap. destruct (pgarray !! r) as [row|]; [|reflexivity].
    cbn. apply list_lookup_fmap.
  - intros g. pose proof PI_RGT_0 as Hpi.
    assert (Hgen : forall x, fix_entry x
                   = Rmin (Rmin (Rabs (x - PI)) (Rabs x)) (Rabs (x + PI)))
      by reflexivity.
    split; [|split; [|split; [|split]]].
    + destruct (fix_entry_cases g) as (H1 & H2 & H3 & Hc).
      split; [|exact H2].
      destruct Hc as [-> | [-> | ->]]; apply Rabs_pos.
    + rewrite !Hgen. unfold Rmin.
      replace (- g - PI) with (- (g + PI)) by ring.
      replace (- g + PI) with (- (g - PI)) by ring.
      rewrite !Rabs_Ropp.
      repeat destruct (Rle_dec _ _); lra.
    + intros Hg. rewrite Hgen. unfold Rmin.
      revert Hg. unfold Rabs.
      repeat destruct (Rcase_abs _); repeat destruct (Rle_dec _ _); lra.
    + intros d Hd. rewrite !Hgen. unfold Rmin.
      replace (d + PI - PI) with d by ring.
      replace (d - PI + PI) with d by ring.
      revert Hd. unfold Rabs.
      split; repeat destruct (Rcase_abs _); repeat destruct (Rle_dec _ _); lra.
    + intros Hg. rewrite Hgen. unfold Rmin.
      revert Hg. unfold Rabs.
      repeat destruct (Rcase_abs _); repeat destruct (Rle_dec _ _); lra.
Qed.


(** *** [angles_to_cart] *)

Lemma fill_rows_spec {A} (mask : list bool) (rows : list A) :
  length rows = length (filter (fun b => b = true) mask) ->
  length (fill_rows mask rows) = length mask /\
  omap (fun x => x) (fill_rows mask rows) = rows /\
  forall i, fill_rows mask rows !! i = Some None <-> mask !! i = Some false.
Proof.
  revert rows. induction mask as [|b mask IH]; intros rows Hl.
  - cbn in *. destruct rows; [|discriminate].
    split; [reflexivity|]. split; [reflexivity|]. intros i. split; discriminate.
  - destruct b.
    + rewrite filter_cons_True in Hl by reflexivity.
      destruct rows as [|r rows]; [discriminate|].
      cbn in Hl. injection Hl as Hl. destruct (IH rows Hl) as (H1 & H2 & H3).
      cbn [fill_rows]. split; [cbn; rewrite H1; reflexivity|].
      split; [cbn; rewrite H2; reflexivity|].
      intros [|i]; cbn; [split; discriminate|apply H3].
    + rewrite filter_cons_False in Hl by discriminate.
      destruct (IH rows Hl) as (H1 & H2 & H3).
      cbn [fill_rows]. split; [cbn; rewrite H1; reflexivity|].
      split; [cbn; exact H2|].
      intros [|i]; cbn; [split; reflexivity|apply H3].
Qed.

Lemma sample_rmat_entries (chi ome : R) :
  snd (fst (snd (fst (sample_rmat chi ome)))) = cos chi /\
  fst (fst (fst (fst (sample_rmat chi ome)))) = cos ome.
Proof. cbn. split; ring. Qed.

Lemma np_arccos_cos (t : R) : np_arccos (cos t) = Some (acos (cos t)).
Proof.
  unfold np_arccos. pose proof (COS_bound t).
  destruct (Rle_dec (-1) (cos t)); [|lra].
  destruct (Rle_dec (cos t) 1); [reflexivity|lra].
Qed.

Section AnglesToCartFacts.

Variable panel : Type.
Variable proj_func :
  panel -> list (R * R * option R) -> option R ->
  list (R * R) * list bool.

(** X19: what [angles_to_cart] returns, given that the projection
    routine returns a mask with one entry per angle pair and one point per
    selected row: one row per angle pair, a row without a number exactly
    where the mask is false, and the points of the routine, in their
    order, at the other rows.  Without a sample rotation the routine is
    called with chi = 0 and ome = 0. *)
Theorem angles_to_cart_rows (self : panel) (tth_eta : list (R * R))
    (rmat_s : option mat3) (valid_xy : list (R * R))
    (valid_mask : list bool) :
  let rm := match rmat_s with
            | None => identity_3x3
            | Some m => m
            end in
  let chi := np_arccos (snd (fst (snd (fst rm)))) in
  let ome := np_arccos (fst (fst (fst (fst rm)))) in
  proj_func self (map (fun te => (fst te, snd te, ome)) tth_eta) chi
  = (valid_xy, valid_mask) ->
  length valid_mask = length tth_eta ->
  length valid_xy = length (filter (fun b => b = true) valid_mask) ->
  (rmat_s = None -> chi = Some 0 /\ ome = Some 0) /\
  exists out,
    angles_to_cart panel proj_func self tth_eta rmat_s = Ok out /\
    length out = length tth_eta /\
    (forall i, out !! i = Some None <-> valid_mask !! i = Some false) /\
    omap (fun x => x) out = valid_xy.
Proof.
  intros rm chi ome Hp Hm Hv. split.
  - intros ->. unfold chi, ome, rm, np_arccos. cbn.
    destruct (Rle_dec (-1) 1); [|lra]. destruct (Rle_dec 1 1); [|lra].
    rewrite acos_1. auto.
  - unfold angles_to_cart. fold rm. fold ome. fold chi. rewrite Hp.
    unfold assign_masked. rewrite length_map, Hm, Nat.eqb_refl. cbn [negb].
    rewrite Hv, Nat.eqb_refl.
    destruct (fill_rows_spec valid_mask valid_xy Hv) as (H1 & H2 & H3).
    eexists. split; [reflexivity|]. split; [lia|]. split; assumption.
Qed.

(** X20: [angles_to_cart] reads of the sample rotation two cosines only.
    For a rotation [R(Xl, chi) * R(Yl, ome)] it recovers chi and ome when
    they lie in [0, pi], and their opposites when they lie in [-pi, 0]; so
    its result is the same for chi and -chi, and for ome and -ome. *)
Theorem angles_to_cart_sign_blind (self : panel) (tth_eta : list (R * R))
    (chi ome : R) :
  let cart (c o : R) :=
    angles_to_cart panel proj_func self tth_eta (Some (sample_rmat c o)) in
  cart (- chi) ome = cart chi ome /\
  cart chi (- ome) = cart chi ome /\
  (forall t, 0 <= t <= PI -> np_arccos (cos t) = Some t) /\
  (forall t, - PI <= t <= 0 -> np_arccos (cos t) = Some (- t)) /\
  snd (fst (snd (fst (sample_rmat chi ome)))) = cos chi /\
  fst (fst (fst (fst (sample_rmat chi ome)))) = cos ome.
Proof.
  intros cart.
  assert (Hc : forall c o,
            cart c o
            = let '(valid_xy, valid_mask) :=
                proj_func self
                  (map (fun te => (fst te, snd te, np_arccos (cos o))) tth_eta)
                  (np_arccos (cos c)) in
              assign_masked (length tth_eta) valid_mask valid_xy).
  { intros c o. unfold cart, angles_to_cart.
    destruct (sample_rmat_entries c o) as [-> ->].
    rewrite length_map. reflexivity. }
  split; [rewrite !Hc, cos_neg; reflexivity|].
  split; [rewrite !Hc, cos_neg; reflexivity|].
  split; [|split; [|apply sample_rmat_entries]].
  - intros t Ht. rewrite np_arccos_cos, acos_cos by exact Ht. reflexivity.
  - intros t Ht. rewrite <- cos_neg, np_arccos_cos, acos_cos by lra.
    reflexivity.
Qed.

End AnglesToCartFacts.

Lemma angles_to_cart_rows_witness :
  angles_to_cart unit demo_proj tt [(1, 2); (3, 4); (5, 6)] None
  = Ok [Some (1, 2); None; Some (5, 6)].
Proof.
  destruct (angles_to_cart_rows unit demo_proj tt [(1, 2); (3, 4); (5, 6)]
              None [(1, 2); (5, 6)] [true; false; true]
              eq_refl eq_refl eq_refl) as (_ & out & Ho & _).
  rewrite Ho. unfold angles_to_cart in Ho. cbn in Ho. symmetry. exact Ho.
Defined.

(** *** [update_memoization_sizes] *)

Lemma num_matches_count (all_panels : list pyobject) :
  num_matches all_panels
  = Z.of_nat (length (filter (fun x => x = CylindricalDetector) all_panels)).
Proof.
  unfold num_matches. induction all_panels as [|x l IH]; [reflexivity|].
  cbn [map fold_right]. rewrite IH.
  destruct (decide (x = CylindricalDetector)) as [->|Hne].
  - rewrite filter_cons_True by reflexivity. cbn [is_ CylindricalDetector].
    rewrite String.eqb_refl. cbn [length]. lia.
  - rewrite filter_cons_False by exact Hne.
    assert (is_ x CylindricalDetector = false) as ->; [|lia].
    destruct x as [name|cls i]; [|reflexivity]. cbn.
    destruct (String.eqb_spec name "CylindricalDetector"); [|reflexivity].
    exfalso. apply Hne. unfold CylindricalDetector. congruence.
Qed.

(** X26: [update_memoization_sizes] counts the entries of [all_panels] that
    are the class [CylindricalDetector] itself: the size it passes on to
    [increase_memoization_sizes] is the number of those, and for a list of
    detector instances, of that class or of any other, it is 0. *)
Theorem memoization_counts_no_instance (all_panels : list pyobject) :
  let '(panels, (funcs, n)) := update_memoization_sizes all_panels in
  panels = all_panels /\
  funcs = [_pixel_angles; _pixel_tth_gradient; _pixel_eta_gradient] /\
  n = Z.of_nat (length (filter (fun x => x = CylindricalDetector) all_panels))
  /\
  ((forall x, x ∈ all_panels -> exists cls i, x = Instance cls i) -> n = 0%Z).
Proof.
  cbn. split; [reflexivity|]. split; [reflexivity|].
  split; [apply num_matches_count|].
  intros Hinst. rewrite num_matches_count.
  replace (filter (fun x => x = CylindricalDetector) all_panels) with
    (@nil pyobject); [reflexivity|].
  symmetry. induction all_panels as [|x l IH]; [reflexivity|].
  destruct (Hinst x ltac:(left)) as (cls & i & ->).
  rewrite filter_cons_False by discriminate.
  apply IH. intros y Hy. apply Hinst. right. exact Hy.
Qed.

Lemma memoization_counts_no_instance_witness :
  snd (snd (update_memoization_sizes
              [Instance "CylindricalDetector" 0;
               Instance "CylindricalDetector" 1]%string))
  = 0%Z.
Proof.
  pose proof (memoization_counts_no_instance
                [Instance "CylindricalDetector" 0;
                 Instance "CylindricalDetector" 1]%string) as H.
  cbn in H. destruct H as (_ & _ & _ & H). apply H.
  intros x Hx. rewrite !elem_of_cons, elem_of_nil in Hx.
  destruct Hx as [-> | [-> | []]]; eexists _, _; reflexivity.
Defined.

End CylindricalAnglesFacts.

(** ** More facts about hexrd/config/material.py *)

Module MaterialStateFacts.

Import Material MaterialState PyFacts.

Local Open Scope string_scope.

Section Facts.

Variable material : Type.
Variable plane_data_t : Type.
Variable planeData : material -> plane_data_t.
Variable wavelength : plane_data_t -> R.
Variable set_tThWidth : material -> R -> material.
Variable set_beamEnergy : material -> valunit -> material.
Variable keVToAngstrom : R -> R.

(** X21: the materials are loaded at most once.  A read of [materials]
    that returns leaves the dict in the object, and every later read
    returns that dict and changes nothing, whatever has become of the file
    system, of the loader and of the configuration (a new [dmin], a new
    path); a read that raises leaves the object as it was, without a
    dict, so that the next read tries again.  A dict that was assigned is
    what a read returns. *)
Theorem materials_loaded_once (path_exists : string -> bool)
    (load_materials_hdf5 : string -> valunit -> result (dict material))
    (st : state material) :
  match materials material path_exists load_materials_hdf5 st with
  | (Ok mats, st') =>
      _materials material st' = Some mats /\
      cfg material st' = cfg material st /\
      forall path_exists' load_materials_hdf5' cfg',
        let st'' := {| cfg := cfg'; _materials := _materials material st' |} in
        materials material path_exists' load_materials_hdf5' st''
        = (Ok mats, st'')
  | (Raise e, st') => st' = st /\ _materials material st = None
  end /\
  forall mats,
    materials material path_exists load_materials_hdf5
      (set_materials material mats st)
    = (Ok mats, set_materials material mats st).
Proof.
  split; [|reflexivity].
  unfold materials. destruct (_materials material st) as [mats|] eqn:E.
  - split; [exact E|]. split; [reflexivity|]. intros fs' ld' cfg'.
    cbn. rewrite E. reflexivity.
  - destruct (definitions path_exists _) as [f|e]; [|auto].
    destruct (load_materials_hdf5 f _) as [mats|e]; [|auto].
    cbn. split; [reflexivity|]. split; [reflexivity|]. reflexivity.
Qed.

Lemma dict_get_map_values {V W} (g : V -> W) (d : dict V) (k : string) :
  dict_get (map (fun kv => (fst kv, g (snd kv))) d) k
  = match dict_get d k with
    | Ok v => Ok (g v)
    | Raise e => Raise e
    end.
Proof.
  induction d as [|[k0 v0] d IH]; [reflexivity|].
  cbn. destruct (String.eqb k0 k); [reflexivity|exact IH].
Qed.

Lemma keys_map_values {V W} (g : V -> W) (d : dict V) :
  keys (map (fun kv => (fst kv, g (snd kv))) d) = keys d.
Proof. unfold keys. rewrite map_map. reflexivity. Qed.

(** X22: the [beam_energy] setter reaches every material, not the active
    one alone: after it, the dict has the keys it had, in their order, and
    under each the material it had with the energy assigned; a bare number
    [v] is assigned as the value [v] in keV.  When the materials cannot be
    read, the error of the read is raised and nothing is assigned. *)
Theorem beam_energy_for_every_material (path_exists : string -> bool)
    (load_materials_hdf5 : string -> valunit -> result (dict material))
    (x : R + valunit) (st : state material) :
  let set_be := set_beam_energy material set_beamEnergy path_exists
                  load_materials_hdf5 in
  let xv := match x with
            | inl v => valWUnit "beam energy" "energy" v "keV"
            | inr u => u
            end in
  set_be x st = set_be (inr xv) st /\
  match materials material path_exists load_materials_hdf5 st with
  | (Raise e, _) => set_be x st = (Raise e, st)
  | (Ok mats, _) =>
      exists mats',
        set_be x st = (Ok tt, {| cfg := cfg material st;
                                 _materials := Some mats' |}) /\
        keys mats' = keys mats /\
        forall k,
          dict_get mats' k
          = match dict_get mats k with
            | Ok m => Ok (set_beamEnergy m xv)
            | Raise e => Raise e
            end
  end.
Proof.
  intros set_be xv. split; [destruct x; reflexivity|].
  unfold set_be, set_beam_energy. fold xv.
  pose proof (materials_loaded_once path_exists load_materials_hdf5 st)
    as [Hm _].
  destruct (materials material path_exists load_materials_hdf5 st)
    as [[mats|e] st1].
  - destruct Hm as (_ & Hc & _). eexists. split.
    + unfold with_materials. rewrite Hc. reflexivity.
    + split; [apply (keys_map_values (fun m => set_beamEnergy m xv))|].
      intros k. apply (dict_get_map_values (fun m => set_beamEnergy m xv)).
  - destruct Hm as [-> _]. reflexivity.
Qed.

(** X23: [plane_data] is a read with an effect.  When the materials can be
    read and the active key is one of theirs, it assigns the width
    [radians(tthw)] (0.25 degrees unless configured) to the plane data of
    the active material, returns that plane data, and leaves every other
    material as it was; [beam_energy] then converts its wavelength.  An
    active key that is no key of the materials raises [KeyError]; an error
    of the read of the materials is passed on. *)
Theorem plane_data_of_active_material (path_exists : string -> bool)
    (load_materials_hdf5 : string -> valunit -> result (dict material))
    (st : state material) :
  let pdata := plane_data material plane_data_t planeData set_tThWidth
                 path_exists load_materials_hdf5 in
  let benergy := beam_energy material plane_data_t planeData wavelength
                   set_tThWidth path_exists load_materials_hdf5
                   keVToAngstrom in
  match materials material path_exists load_materials_hdf5 st with
  | (Raise e, _) => pdata st = (Raise e, st) /\ benergy st = (Raise e, st)
  | (Ok mats, st1) =>
      match dict_lookup mats (material_active (cfg material st)) with
      | None =>
          pdata st = (Raise KeyError, st1) /\
          benergy st = (Raise KeyError, st1)
      | Some m =>
          let m' :=
            set_tThWidth m
              (radians (default 0.25%R
                          (material_tth_width (cfg material st)))) in
          exists mats',
            let st' := {| cfg := cfg material st;
                          _materials := Some mats' |} in
            pdata st = (Ok (planeData m'), st') /\
            benergy st = (Ok (keVToAngstrom (wavelength (planeData m'))), st') /\
            dict_get mats' (material_active (cfg material st)) = Ok m' /\
            forall k, k <> material_active (cfg material st) ->
              dict_get mats' k = dict_get mats k
      end
  end.
Proof.
  intros pdata benergy. unfold benergy, beam_energy. fold pdata.
  unfold pdata, plane_data.
  pose proof (materials_loaded_once path_exists load_materials_hdf5 st)
    as [Hm _].
  destruct (materials material path_exists load_materials_hdf5 st)
    as [[mats|e] st1].
  - destruct Hm as (_ & Hc & _). unfold active, tthw. rewrite Hc.
    unfold dict_lookup.
    destruct (dict_get mats (material_active (cfg material st)))
      as [m|e] eqn:Eg.
    + eexists. unfold with_materials. rewrite Hc.
      split; [reflexivity|]. split; [reflexivity|]. split.
      * rewrite dict_get_set, String.eqb_refl. reflexivity.
      * intros k Hk. rewrite dict_get_set.
        destruct (String.eqb_spec (material_active (cfg material st)) k);
          [congruence|reflexivity].
    + assert (e = KeyError) as ->.
      { clear -Eg. induction mats as [|[k0 v0] mats IH]; cbn in Eg.
        - injection Eg as <-. reflexivity.
        - destruct (String.eqb k0 _); [discriminate|auto]. }
      split; reflexivity.
  - destruct Hm as [-> _]. split; reflexivity.
Qed.

End Facts.

Lemma materials_loaded_once_witness :
  let st' :=
    snd (materials (R * R) (fun _ => true) demo_loader
           {| cfg := demo_settings; _materials := None |}) in
  fst (materials (R * R) empty_fs (fun _ _ => Raise ValueError) st')
  = Ok [("ruby", (10, 0)%R); ("ceria", (20, 0)%R)].
Proof.
  pose proof (materials_loaded_once (R * R) (fun _ => true) demo_loader
                {| cfg := demo_settings; _materials := None |}) as [H _].
  cbn in H. destruct H as (_ & _ & H).
  specialize (H empty_fs (fun _ _ => Raise ValueError) demo_settings).
  apply (f_equal fst) in H. exact H.
Defined.

End MaterialStateFacts.

(** ** The old and the new maximum of hexrd/imageseries/stats.py *)

Module StatsAgreementFacts.

Import Stats StatsReductions StatsFacts StatsReductionsFacts.

Lemma old_max_first (ims : imageseries) (k : Z) :
  frames ims <> [] ->
  _old_max ims k = np_max (take (Z.to_nat (_nframes ims k)) (frames ims)).
Proof.
  intros Hne. pose proof (nframes_bounds ims k Hne) as Hb.
  unfold _old_max, len in *.
  destruct (frames ims) as [|f0 fs]; [contradiction|].
  cbn [length] in Hb. set (nf := _nframes ims k) in *.
  pose proof (for_each_frames (f0 :: fs) maximum (Z.to_nat (nf - 1)) 1 f0)
    as H.
  rewrite Z2Nat.id in H by lia. change (Z.of_nat 1) with 1 in H.
  rewrite H by (cbn [length]; lia).
  replace (Z.to_nat nf) with (S (Z.to_nat (nf - 1))) by lia.
  reflexivity.
Qed.

(** X27: [max] and the frame-by-frame [_old_max] agree whenever the frame
    count covers the series: for a count of 0 or below, or of at least
    [len(ims)], on a series with frames of the shape it reports and a
    positive memory budget, both return the per-pixel maximum over all the
    frames, [max] on its own chunking as well as on one chunk that covers
    the image. *)
Theorem max_agrees_with_old_max (B : Z) (ims : imageseries) (k : Z) :
  0 < B -> well_shaped ims -> frames ims <> [] ->
  k <= 0 \/ len ims <= k ->
  max B ims None k = _old_max ims k /\
  forall img : image, length img = Z.to_nat (fst (shape ims)) ->
    max B ims (Some (0, 1, img)) k = _old_max ims k.
Proof.
  intros HB Hws Hne Hk.
  destruct (max_over_all_frames B ims k HB Hws Hne) as [Ha Hc].
  assert (Ho : _old_max ims k = np_max (frames ims)).
  { rewrite (old_max_first ims k Hne). f_equal. apply take_ge.
    unfold _nframes, len in *. destruct (Z.ltb_spec 0 k); lia. }
  rewrite Ho. split; [exact Ha|exact Hc].
Qed.

Lemma max_agrees_with_old_max_witness :
  max 1024 three_frames None 0 = _old_max three_frames 0.
Proof.
  exact (proj1 (max_agrees_with_old_max 1024 three_frames 0 ltac:(lia)
                  well_shaped_three_frames ltac:(discriminate)
                  ltac:(left; lia))).
Defined.

(** X28: [_toarray(ims, n)], for a count that is not negative, stacks the
    first [n] frames of the series, in order, when the series has that
    many, and fails on the first frame past the end when it has not. *)
Theorem toarray_first_or_index_error (ims : imageseries) (n : Z) :
  0 <= n ->
  _toarray ims n
  = (if n <=? len ims then Ok (take (Z.to_nat n) (frames ims))
     else Raise IndexError).
Proof.
  intros Hn. destruct (Z.leb_spec n (len ims)) as [Hle|Hgt].
  - apply toarray_first. lia.
  - unfold _toarray, len in *.
    pose proof (for_each_frames_past (frames ims)
                  (fun (a : list image) f => a ++ [f]) (Z.to_nat n) 0 [])
      as H.
    change (Z.of_nat 0) with 0 in H. rewrite Z2Nat.id in H by lia.
    apply H. lia.
Qed.

Lemma toarray_first_or_index_error_witness :
  _toarray three_frames 2 = Ok [[[1]; [10]]; [[5]; [2]]] /\
  _toarray three_frames 4 = Raise IndexError.
Proof.
  split.
  - exact (toarray_first_or_index_error three_frames 2 ltac:(lia)).
  - exact (toarray_first_or_index_error three_frames 4 ltac:(lia)).
Defined.

End StatsAgreementFacts.

